(** * Detection post-processing (ppdet/utils/post_process.py)

    A shallow embedding of the post-processing routines of
    [static/ppdet/utils/post_process.py]: the flip transform, greedy NMS,
    Soft-NMS, box voting, the per-image selector with its global cap, the
    multi-scale mask merge and the guards of the mask encoder, then the
    corner post-process, the paste of a mask into the image canvas and the
    multi-scale box merge, followed by the properties proved of them.

    Numbers are IEEE-754 binary32 values ([get_nms_result] casts every
    detection array to [np.float32]); they are modelled with the
    parameterised specification of floating-point arithmetic of the
    standard library, instantiated at precision 24 and maximal exponent
    128.  Thresholds and [sigma], Python floats in the source, are taken at
    their binary32 value where the code combines them with a float32
    array; [box_voting_py] writes out that rounding for the vote
    threshold.  numpy carries out the scalar steps of the overlap loop of
    [nms] in double precision (a float32 scalar combined with a Python
    number) and compares the overlap with the Python threshold as it is:
    [nms_walk] follows these widths, for any order [argsort] may return,
    and the properties of the greedy walk are stated of it.  [nms] keeps
    the loop in binary32 on a stable order, for the properties that depend
    on neither.  [np_exp] is the exponential rounded to nearest; numpy's
    own may differ from it in the last bit.

    Arrays are lists: of records for the fixed-width detection rows, of
    rows of numbers for the box arrays of the flip, and a shape with a flat
    list of elements for the mask tensors.  A call that can raise returns
    an [outcome]; the [while] loop of Soft-NMS runs on fuel. *)

From Stdlib Require Import String Ascii ZArith List Bool Lia Arith.
From Stdlib Require Import Sorted Permutation.
From Stdlib Require Import Floats.SpecFloat.
Import ListNotations.

Set Implicit Arguments.

(** ** binary32 arithmetic *)

Module F32.

Definition prec : Z := 24.
Definition emax : Z := 128.

Definition float := spec_float.

Definition nan : float := S754_nan.
Definition zero : float := S754_zero false.
Definition of_Z (z : Z) : float := binary_normalize prec emax z 0 false.
Definition one : float := of_Z 1.

Definition add : float -> float -> float := SFadd prec emax.
Definition sub : float -> float -> float := SFsub prec emax.
Definition mul : float -> float -> float := SFmul prec emax.
Definition div : float -> float -> float := SFdiv prec emax.
Definition opp : float -> float := SFopp.

(** [lit n d] is the binary32 value nearest to the decimal [n/d]
    (both integers are exactly representable in the uses below). *)
Definition lit (n d : Z) : float := div (of_Z n) (of_Z d).

Definition eqb : float -> float -> bool := SFeqb.
Definition ltb : float -> float -> bool := SFltb.
Definition leb : float -> float -> bool := SFleb.
Definition gtb (x y : float) : bool := ltb y x.
Definition geb (x y : float) : bool := leb y x.

Definition is_nan (x : float) : bool :=
  match x with S754_nan => true | _ => false end.



(** The sign bit; a NaN carries none in this model. *)
Definition sign (x : float) : bool :=
  match x with
  | S754_zero s | S754_infinity s | S754_finite s _ _ => s
  | S754_nan => false
  end.

(** Python's builtin [max(a, b)] and [min(a, b)]: the first argument is
    kept unless the second compares strictly beyond it. *)
Definition py_max (a b : float) : float := if gtb b a then b else a.
Definition py_min (a b : float) : float := if ltb b a then b else a.

(** [np.maximum] and [np.minimum] on floats: NaN propagates. *)
Definition np_maximum (a b : float) : float :=
  if geb a b || is_nan a then a else b.
Definition np_minimum (a b : float) : float :=
  if leb a b || is_nan a then a else b.

End F32.

Abbreviation float := F32.float.

Declare Scope f32_scope.
Delimit Scope f32_scope with f32.
Infix "+" := F32.add : f32_scope.
Infix "-" := F32.sub : f32_scope.
Infix "*" := F32.mul : f32_scope.
Infix "/" := F32.div : f32_scope.
Infix ">=?" := F32.geb (at level 70) : f32_scope.
Infix "<=?" := F32.leb (at level 70) : f32_scope.
Infix ">?" := F32.gtb (at level 70) : f32_scope.
Infix "<?" := F32.ltb (at level 70) : f32_scope.

(** ** numpy helpers on lists *)

Section NumpyLists.
Context {A : Type}.

(** [a[i] = v] for an index in range (the only case the loops below
    produce); an index out of range leaves the list as it is. *)
Fixpoint upd (i : nat) (v : A) (l : list A) : list A :=
  match l, i with
  | [], _ => []
  | _ :: t, O => v :: t
  | h :: t, S i' => h :: upd i' v t
  end.

(** [np.where(p(a))[0]]: the positions that satisfy [p], ascending. *)
Fixpoint where_from (p : A -> bool) (start : nat) (l : list A) : list nat :=
  match l with
  | [] => []
  | h :: t =>
      if p h then start :: where_from p (S start) t
      else where_from p (S start) t
  end.

Definition np_where (p : A -> bool) (l : list A) : list nat :=
  where_from p 0 l.

(** [a[idx]] with an index array: the rows at [idx], in the order of
    [idx].  The indices come from [np_where] over an array of the same
    length, so they are in range. *)
Definition take_rows (d : A) (idx : list nat) (l : list A) : list A :=
  map (fun k => nth k l d) idx.

End NumpyLists.

(** numpy's ordering of floats when sorting: NaN sorts last. *)
Definition npy_lt (a b : float) : bool :=
  F32.ltb a b || (F32.is_nan b && negb (F32.is_nan a)).

(** Stable insertion of a key in an ascending list: the new key goes after
    the equal ones when it is inserted from the right end. *)
Section InsertionSort.
Context {A : Type}.
Variable key : A -> float.

Fixpoint insert_sorted (x : A) (l : list A) : list A :=
  match l with
  | [] => [x]
  | h :: t =>
      if npy_lt (key h) (key x) then h :: insert_sorted x t
      else x :: h :: t
  end.

(** Ascending stable sort (numpy sorts short arrays by insertion). *)
Definition sort_by (l : list A) : list A :=
  fold_right insert_sorted [] l.

End InsertionSort.

(** [np.sort(a)] and [a.argsort()]. *)
Definition np_sort (a : list float) : list float := sort_by (fun x => x) a.

Definition argsort (a : list float) : list nat :=
  map fst (sort_by snd (combine (seq 0 (length a)) a)).

(** [np.argmax(a)]: the first position of the maximum, a NaN counting as
    maximal. [argmax_from] carries the running maximum and its index. *)
Fixpoint argmax_from (mp : float) (best i : nat) (l : list float) : nat :=
  match l with
  | [] => best
  | x :: t =>
      if F32.is_nan mp then best
      else if negb (F32.leb x mp) then argmax_from x i (S i) t
      else argmax_from mp best (S i) t
  end.

Definition argmax (a : list float) : nat :=
  match a with
  | [] => 0
  | x :: t => argmax_from x 0 1 t
  end.

(** ** Detections *)

(** A row of an [(n, 5)] detection array: [score, x1, y1, x2, y2]. *)
Record det := mkDet {
  score : float;
  x1 : float;
  y1 : float;
  x2 : float;
  y2 : float
}.

Definition det0 : det := mkDet F32.zero F32.zero F32.zero F32.zero F32.zero.

Local Open Scope f32_scope.

(** [(x2 - x1 + 1) * (y2 - y1 + 1)] *)
Definition det_area (d : det) : float :=
  (x2 d - x1 d + F32.one) * (y2 d - y1 d + F32.one).

(** ** Greedy NMS *)

(** The overlap of box [i] (under consideration) with a lower scoring box
    [j], as the inner loop of [nms] computes it: intersection, denominator
    and their quotient.  No test guards the division; on numpy scalars it
    raises nothing. *)
Definition nms_inter (bi bj : det) : float :=
  let xx1 := F32.py_max (x1 bi) (x1 bj) in
  let yy1 := F32.py_max (y1 bi) (y1 bj) in
  let xx2 := F32.py_min (x2 bi) (x2 bj) in
  let yy2 := F32.py_min (y2 bi) (y2 bj) in
  let w := F32.py_max F32.zero (xx2 - xx1 + F32.one) in
  let h := F32.py_max F32.zero (yy2 - yy1 + F32.one) in
  w * h.

Definition nms_denominator (bi bj : det) : float :=
  det_area bi + det_area bj - nms_inter bi bj.

Definition nms_ovr (bi bj : det) : float :=
  nms_inter bi bj / nms_denominator bi bj.

Section NmsLoops.
Variable dets : list det.
Variable thresh : float.
Variable order : list nat.

Definition ndets : nat := length dets.

(** The inner loop, [for _j in range(_i + 1, ndets)], for a box [i]
    that is not suppressed. *)
Definition nms_inner (_i : nat) (suppressed : list Z) : list Z :=
  let i := nth _i order 0%nat in
  fold_left
    (fun sup _j =>
       let j := nth _j order 0%nat in
       if (nth j sup 0 =? 1)%Z then sup
       else if nms_ovr (nth i dets det0) (nth j dets det0) >=? thresh
            then upd j 1%Z sup
            else sup)
    (seq (S _i) (ndets - S _i)) suppressed.

(** The outer loop, [for _i in range(ndets)]. *)
Definition nms_outer (suppressed : list Z) : list Z :=
  fold_left
    (fun sup _i =>
       let i := nth _i order 0%nat in
       if (nth i sup 0 =? 1)%Z then sup else nms_inner _i sup)
    (seq 0 ndets) suppressed.

End NmsLoops.

Definition nms_suppressed (dets : list det) (thresh : float) : list Z :=
  let order := rev (argsort (map score dets)) in
  nms_outer dets thresh order (repeat 0%Z (ndets dets)).

Definition nms_keep (dets : list det) (thresh : float) : list nat :=
  np_where (fun s => (s =? 0)%Z) (nms_suppressed dets thresh).

Definition nms (dets : list det) (thresh : float) : list det :=
  if (length dets =? 0)%nat then []
  else take_rows det0 (nms_keep dets thresh) dets.

(** ** Outcomes of a call *)

(** The exceptions the modelled calls can raise. *)
Inductive exn :=
| IndexError
| KeyError
| ValueError
| TypeError
| AttributeError
| ZeroDivisionError.

(** A call returns a value, raises, or is still looping when the fuel
    granted to its [while] loop is spent. *)
Inductive outcome (A : Type) :=
| Ok (a : A)
| Raise (e : exn)
| OutOfFuel.

Arguments Ok {A} a.
Arguments Raise {A} e.
Arguments OutOfFuel {A}.

Definition bind {A B : Type} (r : outcome A) (k : A -> outcome B) : outcome B :=
  match r with
  | Ok a => k a
  | Raise e => Raise e
  | OutOfFuel => OutOfFuel
  end.

Notation "x <- c1 ;; c2" := (bind c1 (fun x => c2))
  (at level 61, c1 at next level, right associativity).

(** ** The exponential *)

(** [np.exp] on binary32 is a library routine; it is modelled by rounding
    to nearest a fixed-point evaluation of the series of the exponential
    (256 fractional bits, argument halved eight times and the result
    squared back), which agrees with the exponential to well below one unit
    in the last place. *)
Module Exp.

Definition P : Z := 256.

Definition fx_mul (a b : Z) : Z := Z.shiftr (a * b) P.

Fixpoint series (n : nat) (i : Z) (term acc y : Z) : Z :=
  match n with
  | O => acc
  | S n' =>
      let term' := (fx_mul term y / i)%Z in
      series n' (i + 1)%Z term' (acc + term')%Z y
  end.

Fixpoint squarings (j : nat) (v : Z) : Z :=
  match j with
  | O => v
  | S j' => squarings j' (fx_mul v v)
  end.

(** [exp(x) * 2^P] for [x = (-1)^s * m * 2^e] with [|x| < 128]. *)
Definition exp_fx (s : bool) (m : positive) (e : Z) : Z :=
  let y := Z.shiftl (if s then Z.neg m else Z.pos m) (e + P - 8) in
  let one := Z.shiftl 1 P in
  squarings 8 (series 48 1%Z one one y).

Definition np_exp (x : float) : float :=
  match x with
  | S754_nan => S754_nan
  | S754_infinity false => x
  | S754_infinity true => F32.zero
  | S754_zero _ => F32.one
  | S754_finite s m e =>
      if (128 <=? Z.shiftl (Z.pos m) e)%Z
      then (if s then F32.zero else S754_infinity false)
      else
        match exp_fx s m e with
        | Z.pos v => binary_round F32.prec F32.emax false v (- P)
        | _ => F32.zero
        end
  end.

End Exp.

Definition np_exp := Exp.np_exp.

(** ** Soft-NMS *)

Definition set_score (s : float) (d : det) : det :=
  mkDet s (x1 d) (y1 d) (x2 d) (y2 d).

Section SoftNms.
Variables sigma thres : float.

(** The decay weight of a row against the picked box [t] (the values
    unpacked from [dets[maxpos]]), whose area is [areas[maxpos]]. *)
Definition soft_weight (t d : det) : float :=
  let xx1 := F32.np_maximum (x1 t) (x1 d) in
  let yy1 := F32.np_maximum (y1 t) (y1 d) in
  let xx2 := F32.np_minimum (x2 t) (x2 d) in
  let yy2 := F32.np_minimum (y2 t) (y2 d) in
  let w := F32.np_maximum F32.zero (xx2 - xx1 + F32.one) in
  let h := F32.np_maximum F32.zero (yy2 - yy1 + F32.one) in
  let inter := w * h in
  let ovr := inter / (det_area d + det_area t - inter) in
  np_exp (F32.opp (ovr * ovr) / sigma).

(** One pass of the loop body on a non-empty [dets]: the row appended to
    [dets_final], the array [dets] as the body leaves it (scores
    overwritten in place), and the array the next pass works on. *)
Definition soft_nms_pass (dets : list det) : det * list det * list det :=
  let maxpos := argmax (map score dets) in
  let t := nth maxpos dets det0 in
  let forced := upd maxpos (set_score (F32.opp F32.one) t) dets in
  let scores := map (fun d => score d * soft_weight t d) forced in
  let idx_keep := np_where (fun s => s >=? thres) scores in
  let dets' := map (fun ds => set_score (snd ds) (fst ds)) (combine forced scores) in
  (t, dets', take_rows det0 idx_keep dets').

(** The [while len(dets) > 0] loop; [dets_final] is kept in append
    order. *)
Fixpoint soft_nms_loop (fuel : nat) (dets dets_final : list det)
  : outcome (list det) :=
  match dets with
  | [] => Ok dets_final
  | _ :: _ =>
      match fuel with
      | O => OutOfFuel
      | S fuel' =>
          let '(t, _, next) := soft_nms_pass dets in
          soft_nms_loop fuel' next (dets_final ++ [t])
      end
  end.

(** The caller's array after the call: the first pass writes the decayed
    scores into it; later passes work on copies. *)
Definition soft_nms_input_after (dets : list det) : list det :=
  match dets with
  | [] => []
  | _ :: _ => snd (fst (soft_nms_pass dets))
  end.

End SoftNms.

(** [soft_nms(dets, sigma, thres)], with the fuel granted to its loop. *)
Definition soft_nms (dets : list det) (sigma thres : float) (fuel : nat)
  : outcome (list det) :=
  soft_nms_loop sigma thres fuel dets [].

(** ** Box voting *)

(** A box [x1, y1, x2, y2]: the columns [1:] of a detection row. *)
Record box := mkBox {
  bx1 : float;
  by1 : float;
  bx2 : float;
  by2 : float
}.

Definition det_box (d : det) : box := mkBox (x1 d) (y1 d) (x2 d) (y2 d).
Definition with_box (d : det) (b : box) : det :=
  mkDet (score d) (bx1 b) (by1 b) (bx2 b) (by2 b).

Definition bbox_area (b : box) : float :=
  let w := bx2 b - bx1 b + F32.one in
  let h := by2 b - by1 b + F32.one in
  w * h.

(** The extents [iw] and [ih] of the intersection of [x[n]] and [y[k]]. *)
Definition inter_w (xn yk : box) : float :=
  F32.py_min (bx2 xn) (bx2 yk) - F32.py_max (bx1 xn) (bx1 yk) + F32.one.

Definition inter_h (xn yk : box) : float :=
  F32.py_min (by2 xn) (by2 yk) - F32.py_max (by1 xn) (by1 yk) + F32.one.

(** The entry [overlaps[n, k]] for [x[n] = xn] and [y[k] = yk]: it stays at
    the zero of [np.zeros] unless both extents of the intersection are
    positive. *)
Definition overlap_entry (xn yk : box) : float :=
  let y_area := bbox_area yk in
  let iw := inter_w xn yk in
  if iw >? F32.zero then
    let ih := inter_h xn yk in
    if ih >? F32.zero then
      let x_area := bbox_area xn in
      let ua := x_area + y_area - iw * ih in
      iw * ih / ua
    else F32.zero
  else F32.zero.

Definition bbox_overlaps (x y : list box) : list (list float) :=
  map (fun xn => map (fun yk => overlap_entry xn yk) y) x.

Definition fsum (l : list float) : float := fold_left F32.add l F32.zero.

(** [np.average(boxes, axis=0, weights=ws)]: it refuses weights that sum
    to zero. *)
Definition np_average (boxes : list box) (ws : list float) : outcome box :=
  let scl := fsum ws in
  if F32.eqb scl F32.zero then Raise ZeroDivisionError
  else
    let col (f : box -> float) :=
      fsum (map (fun bw => f (fst bw) * snd bw) (combine boxes ws)) / scl in
    Ok (mkBox (col bx1) (col by1) (col bx2) (col by2)).

Definition box0 : box := mkBox F32.zero F32.zero F32.zero F32.zero.

(** The body of [for k in range(nms_dets.shape[0])] for the row [top] and
    its row [ovr_k] of the overlap matrix. *)
Definition vote_row (dets : list det) (vote_thresh : float)
  (top : det) (ovr_k : list float) : outcome det :=
  let inds_to_vote := np_where (fun o => o >=? vote_thresh) ovr_k in
  let boxes_to_vote := take_rows box0 inds_to_vote (map det_box dets) in
  let ws := take_rows F32.zero inds_to_vote (map score dets) in
  b <- np_average boxes_to_vote ws ;;
  Ok (with_box top b).

Fixpoint vote_rows (dets : list det) (vote_thresh : float)
  (tops : list det) (ovr : list (list float)) : outcome (list det) :=
  match tops, ovr with
  | top :: tops', ovr_k :: ovr' =>
      d <- vote_row dets vote_thresh top ovr_k ;;
      ds <- vote_rows dets vote_thresh tops' ovr' ;;
      Ok (d :: ds)
  | _, _ => Ok []
  end.

Definition box_voting (nms_dets dets : list det) (vote_thresh : float)
  : outcome (list det) :=
  let top_to_all_overlaps :=
    bbox_overlaps (map det_box nms_dets) (map det_box dets) in
  vote_rows dets vote_thresh nms_dets top_to_all_overlaps.

(** ** The per-image selector *)

(** A row of the result: [label, score, x1, y1, x2, y2]. *)
Record ldet := mkLdet {
  label : float;
  ldet_det : det
}.

Definition lscore (d : ldet) : float := score (ldet_det d).

Definition ldet0 : ldet := mkLdet F32.zero det0.

(** The options bag.  [score_thresh], [nms_thresh] and [detections_per_im]
    are read with [config[...]] on every call that reaches them;
    [use_soft_nms] and [enable_voting] are read with [config.get(..., False)];
    [sigma] and [vote_thresh] are read only by the variant that needs them
    and raise [KeyError] when absent. *)
Record config := mkConfig {
  score_thresh : float;
  nms_thresh : float;
  detections_per_im : Z;
  use_soft_nms : bool;
  sigma : option float;
  enable_voting : bool;
  vote_thresh : option float
}.

Definition required {A : Type} (o : option A) : outcome A :=
  match o with
  | Some a => Ok a
  | None => Raise KeyError
  end.

(** The two input shapes: a dense score matrix [scores[n][j]] with the box
    of candidate [n] for class [j] at [boxes[n][j]] (columns [4j:4j+4]), or
    one label, score and box per candidate. *)
Inductive candidates :=
| Dense (scores : list (list float)) (boxes : list (list box))
| Labeled (labels : list float) (scores : list float) (boxes : list box).

Definition column {A : Type} (j : nat) (rows : list (list A)) : outcome (list A) :=
  fold_right
    (fun row acc =>
       match nth_error row j with
       | Some v => (vs <- acc ;; Ok (v :: vs))
       | None => Raise IndexError
       end)
    (Ok []) rows.

(** [dets_j]: the candidates of class [j] as [score, x1, y1, x2, y2] rows. *)
Definition class_dets (c : candidates) (cfg : config) (j : nat)
  : outcome (list det) :=
  match c with
  | Labeled labels scores boxes =>
      let inds := np_where (fun l => F32.eqb l (F32.of_Z (Z.of_nat j))) labels in
      let scores_j := take_rows F32.zero inds scores in
      let boxes_j := take_rows box0 inds boxes in
      Ok (map (fun sb => with_box (set_score (fst sb) det0) (snd sb))
              (combine scores_j boxes_j))
  | Dense scores boxes =>
      col <- column j scores ;;
      bcol <- column j boxes ;;
      let inds := np_where (fun s => s >? score_thresh cfg) col in
      let scores_j := take_rows F32.zero inds col in
      let boxes_j := take_rows box0 inds bcol in
      Ok (map (fun sb => with_box (set_score (fst sb) det0) (snd sb))
              (combine scores_j boxes_j))
  end.

(** Suppression, optional voting and labelling for one class.  Soft-NMS
    overwrites the scores of [dets_j] in place, and voting reads [dets_j]
    after that. *)
Definition class_result (fuel : nat) (cfg : config) (j : nat) (dets_j : list det)
  : outcome (list ldet) :=
  suppressed <-
    (if use_soft_nms cfg then
       sg <- required (sigma cfg) ;;
       out <- soft_nms dets_j sg (nms_thresh cfg) fuel ;;
       Ok (out, soft_nms_input_after sg (nms_thresh cfg) dets_j)
     else Ok (nms dets_j (nms_thresh cfg), dets_j)) ;;
  let '(nms_dets, dets_j') := suppressed in
  nms_dets <-
    (if enable_voting cfg then
       vt <- required (vote_thresh cfg) ;;
       box_voting nms_dets dets_j' vt
     else Ok nms_dets) ;;
  Ok (map (mkLdet (F32.of_Z (Z.of_nat j))) nms_dets).

(** [a[i]] for a Python integer index, negative indices counting from the
    end. *)
Definition py_index {A : Type} (l : list A) (i : Z) : outcome A :=
  let n := Z.of_nat (length l) in
  let i' := if (i <? 0)%Z then (i + n)%Z else i in
  if ((0 <=? i') && (i' <? n))%Z then
    match nth_error l (Z.to_nat i') with
    | Some v => Ok v
    | None => Raise IndexError
    end
  else Raise IndexError.

(** Lines 199-210: limit to [detections_per_im] detections over all
    classes.  [cls_boxes] holds the arrays of the classes
    [start_idx .. num_classes - 1]; [np.hstack] refuses an empty list. *)
Definition limit_per_image (K : Z) (cls_boxes : list (list ldet))
  : outcome (list ldet) :=
  match cls_boxes with
  | [] => Raise ValueError
  | _ :: _ =>
      let image_scores := concat (map (map lscore) cls_boxes) in
      cls_boxes' <-
        (if (Z.of_nat (length image_scores) >? K)%Z then
           image_thresh <- py_index (np_sort image_scores) (- K) ;;
           Ok (map (fun c =>
                      let keep := np_where (fun d => lscore d >=? image_thresh) c in
                      take_rows ldet0 keep c)
                   cls_boxes)
         else Ok cls_boxes) ;;
      Ok (concat cls_boxes')
  end.

Fixpoint class_results (fuel : nat) (c : candidates) (cfg : config)
  (js : list nat) : outcome (list (list ldet)) :=
  match js with
  | [] => Ok []
  | j :: js' =>
      dets_j <- class_dets c cfg j ;;
      r <- class_result fuel cfg j dets_j ;;
      rs <- class_results fuel c cfg js' ;;
      Ok (r :: rs)
  end.

Definition get_nms_result (fuel : nat) (c : candidates) (cfg : config)
  (num_classes : nat) (background_label : Z) : outcome (list ldet) :=
  let start_idx := if (background_label =? 0)%Z then 1%nat else 0%nat in
  cls_boxes <- class_results fuel c cfg (seq start_idx (num_classes - start_idx)) ;;
  limit_per_image (detections_per_im cfg) cls_boxes.

(** ** The flip transform *)

(** The columns [k::4] of a row. *)
Fixpoint stride4 {A : Type} (k : nat) (row : list A) : list A :=
  match row with
  | [] => []
  | h :: t =>
      match k with
      | O => h :: stride4 3 t
      | S k' => stride4 k' t
      end
  end.

(** [row[k::4] = vals], for as many values as there are columns. *)
Fixpoint set_stride4 {A : Type} (k : nat) (vals row : list A) : list A :=
  match row with
  | [] => []
  | h :: t =>
      match k with
      | O =>
          match vals with
          | v :: vals' => v :: set_stride4 3 vals' t
          | [] => h :: t
          end
      | S k' => h :: set_stride4 k' vals t
      end
  end.

Definition mirror (im_width x : float) : float := im_width - x - F32.one.

(** One row of [box_flip]; the two strided slices must have the same
    number of columns for both assignments to be accepted (a single column
    is broadcast by the first assignment, and then refused by the second).
    An array with no rows is taken to have an accepted width. *)
Definition flip_row (im_width : float) (row : list float) : outcome (list float) :=
  let c0 := stride4 0 row in
  let c2 := stride4 2 row in
  if (length c0 =? length c2)%nat then
    let flipped := set_stride4 0 (map (mirror im_width) c2) row in
    Ok (set_stride4 2 (map (mirror im_width) c0) flipped)
  else Raise ValueError.

Fixpoint flip_rows (im_width : float) (boxes : list (list float))
  : outcome (list (list float)) :=
  match boxes with
  | [] => Ok []
  | row :: rest =>
      r <- flip_row im_width row ;;
      rs <- flip_rows im_width rest ;;
      Ok (r :: rs)
  end.

Definition box_flip (boxes : list (list float)) (im_shape : list (list float))
  : outcome (list (list float)) :=
  match im_shape with
  | (_ :: im_width :: _) :: _ => flip_rows im_width boxes
  | _ => Raise IndexError
  end.

(** ** Multi-scale mask merge *)

(** A numpy array: its shape and its elements in row-major order. *)
Record ndarray := mkArray {
  shape : list nat;
  data : list float
}.

Fixpoint shape_eqb (s t : list nat) : bool :=
  match s, t with
  | [], [] => true
  | a :: s', b :: t' => (a =? b)%nat && shape_eqb s' t'
  | _, _ => false
  end.

Definition np_zeros (shp : list nat) : ndarray :=
  mkArray shp (repeat F32.zero (fold_right Nat.mul 1%nat shp)).

(** [len(a)] *)
Definition np_len (a : ndarray) : outcome nat :=
  match shape a with
  | [] => Raise TypeError
  | n :: _ => Ok n
  end.

Fixpoint chunks_rev (fuel width : nat) (l : list float) : list float :=
  match fuel with
  | O => l
  | S fuel' =>
      match l with
      | [] => []
      | _ => rev (firstn width l) ++ chunks_rev fuel' width (skipn width l)
      end
  end.

(** [a[:, :, :, ::-1]]: the last axis reversed. *)
Definition flip_last_axis (a : ndarray) : ndarray :=
  mkArray (shape a) (chunks_rev (length (data a)) (last (shape a) 1%nat) (data a)).

Fixpoint contains (needle hay : string) : bool :=
  String.prefix needle hay ||
  match hay with
  | EmptyString => false
  | String _ rest => contains needle rest
  end.

(** The body of [for k in result.keys()]: the arrays appended to
    [mask_list]. *)
Fixpoint collect_masks (M : nat) (result : list (string * ndarray))
  : list ndarray :=
  match result with
  | [] => []
  | (k, masks) :: rest =>
      if contains "mask" k then
        if negb (length (shape masks) =? 4)%nat then
          np_zeros [0%nat; M; M] :: collect_masks M rest
        else if contains "flip" k then
          flip_last_axis masks :: collect_masks M rest
        else masks :: collect_masks M rest
      else collect_masks M rest
  end.

Fixpoint add_all (acc : list float) (rest : list (list float)) : list float :=
  match rest with
  | [] => acc
  | a :: rest' => add_all (map (fun xy => fst xy + snd xy) (combine acc a)) rest'
  end.

(** The shape two shapes broadcast to.  The shapes are aligned at their
    last axis (they are given here last axis first); an axis of length 1
    stretches to the other length, and a missing axis counts as one. *)
Fixpoint broadcast_rev (s t : list nat) : option (list nat) :=
  match s, t with
  | [], _ => Some t
  | _, [] => Some s
  | a :: s', b :: t' =>
      match broadcast_rev s' t' with
      | None => None
      | Some r =>
          if (a =? b)%nat then Some (a :: r)
          else if (a =? 1)%nat then Some (b :: r)
          else if (b =? 1)%nat then Some (a :: r)
          else None
      end
  end.

Definition broadcast_shapes (s t : list nat) : option (list nat) :=
  match broadcast_rev (rev s) (rev t) with
  | Some r => Some (rev r)
  | None => None
  end.

(** The place, in the row-major elements of an array, of the element that
    the index [idx] of the broadcast array reads (shape and index last
    axis first): an axis of length 1 is read at 0. *)
Fixpoint offset_rev (stride : nat) (shp idx : list nat) : nat :=
  match shp, idx with
  | n :: shp', i :: idx' =>
      ((if (n =? 1)%nat then 0 else i) * stride
       + offset_rev (stride * n) shp' idx')%nat
  | _, _ => 0%nat
  end.

(** The indices of an array of shape [shp], in row-major order. *)
Fixpoint indices (shp : list nat) : list (list nat) :=
  match shp with
  | [] => [[]]
  | n :: shp' =>
      flat_map (fun i => map (cons i) (indices shp')) (seq 0 n)
  end.

Definition element (a : ndarray) (idx : list nat) : float :=
  nth (offset_rev 1 (rev (shape a)) (rev idx)) (data a) F32.zero.

(** [a + b] on arrays: numpy raises [ValueError] when the shapes do not
    broadcast. *)
Definition np_add (a b : ndarray) : outcome ndarray :=
  match broadcast_shapes (shape a) (shape b) with
  | None => Raise ValueError
  | Some shp =>
      Ok (mkArray shp (map (fun idx => element a idx + element b idx)
                           (indices shp)))
  end.

Fixpoint sum_arrays (acc : ndarray) (rest : list ndarray) : outcome ndarray :=
  match rest with
  | [] => Ok acc
  | b :: rest' => (s <- np_add acc b ;; sum_arrays s rest')
  end.

(** All the arrays have a first axis, of one length. *)
Definition same_first_axis (arrays : list ndarray) : bool :=
  match arrays with
  | a :: rest =>
      match shape a with
      | n :: _ =>
          forallb (fun b => match shape b with
                            | m :: _ => (n =? m)%nat
                            | [] => false
                            end) rest
      | [] => false
      end
  | [] => false
  end.

(** [np.mean(arrays, axis=0)] on a list of arrays.  Arrays of one shape
    are stacked and averaged element by element; the mean of no array at
    all is a scalar NaN ([None] here).  Arrays of different shapes do not
    stack.  When they agree on the first axis numpy fails to build an
    array of them ([ValueError]).  Otherwise it builds an array of
    objects and [np.mean] adds the arrays one to the next with numpy's
    broadcasting, which raises [ValueError] when two shapes do not
    broadcast, and divides the sum by their number. *)
Definition np_mean (arrays : list ndarray) : outcome (option ndarray) :=
  match arrays with
  | [] => Ok None
  | a :: rest =>
      let count := F32.of_Z (Z.of_nat (length arrays)) in
      if forallb (fun b => shape_eqb (shape b) (shape a)) rest then
        let total := add_all (data a) (map data rest) in
        Ok (Some (mkArray (shape a) (map (fun t => t / count) total)))
      else if same_first_axis arrays then Raise ValueError
      else
        total <- sum_arrays a rest ;;
        Ok (Some (mkArray (shape total)
                          (map (fun t => t / count) (data total))))
  end.

(** The result is [{'mask': (mask_pred, [[len(mask_pred)]])}]: the
    averaged array and its length. *)
Definition mstest_mask_post_process (result : list (string * ndarray)) (M : nat)
  : outcome (ndarray * nat) :=
  match find (fun kv => String.eqb (fst kv) "im_shape") result with
  | None => Raise KeyError
  | Some _ =>
      let mask_list := collect_masks M result in
      mask_pred <- np_mean mask_list ;;
      match mask_pred with
      | None => Raise TypeError
      | Some mp => (n <- np_len mp ;; Ok (mp, n))
      end
  end.

(** ** The guards of the mask encoder *)

(** The entries of [results] that [mask_encode] reads: [results['bbox'][0]]
    (possibly [None]), [results['mask'][0]], [results['mask'][1][0]] and
    [results['im_shape'][0]]. *)
Record encode_input := mkEncodeInput {
  in_bboxes : option ndarray;
  in_masks : ndarray;
  in_lengths : list nat;
  in_im_shapes : list (list float)
}.

Section MaskEncode.
(** The encoded masks, and the per-sample loop of lines 279-322, which
    relies on [expand_boxes], [cv2.resize] and the run-length encoder:
    all external to this file. *)
Variable segm : Type.
Variable encode_samples :
  Z -> float -> ndarray -> ndarray -> list nat -> list (list float) ->
  outcome (list segm).

(** [bboxes.shape]: an attribute [None] does not have. *)
Definition get_shape (bboxes : option ndarray) : outcome (list nat) :=
  match bboxes with
  | Some b => Ok (shape b)
  | None => Raise AttributeError
  end.

Definition is_None {A : Type} (o : option A) : bool :=
  match o with
  | None => true
  | Some _ => false
  end.

(** [len(bboxes.tolist())] *)
Definition tolist_len (bboxes : option ndarray) : outcome nat :=
  match bboxes with
  | Some b => np_len b
  | None => Raise AttributeError
  end.

Definition mask_encode (results : encode_input) (resolution : Z)
  (thresh_binarize : float) : outcome (list segm) :=
  (* scale = (resolution + 2.0) / resolution *)
  if (resolution =? 0)%Z then Raise ZeroDivisionError
  else
    let bboxes := in_bboxes results in
    (* bboxes.shape == (1, 1) or bboxes is None: left operand first *)
    shp <- get_shape bboxes ;;
    let no_detections :=
      if shape_eqb shp [1%nat; 1%nat] then true else is_None bboxes in
    if no_detections then Ok []
    else
      n <- tolist_len bboxes ;;
      if (n =? 0)%nat then Ok []
      else
        match bboxes with
        | Some b =>
            encode_samples resolution thresh_binarize b (in_masks results)
              (in_lengths results) (in_im_shapes results)
        | None => Raise AttributeError
        end.

End MaskEncode.


(** ** Corner-style detections *)

(** [corner_post_process(results, config, num_classes)], as a function of
    the array [results['bbox'][0]], whose rows are
    [label, score, x1, y1, x2, y2]: the value it stores back under
    ['bbox'], the selected rows with their number.  Rows whose score is
    not above -1 are left out first; the labels are explicit and no class
    is the background ([background_label=-1]). *)
Definition corner_post_process (fuel : nat) (detections : list ldet)
  (cfg : config) (num_classes : nat) : outcome (list ldet * nat) :=
  let keep_inds := fun d : ldet => lscore d >? F32.of_Z (-1) in
  let detections := filter keep_inds detections in
  let labels := map label detections in
  let scores := map lscore detections in
  let boxes := map (fun d => det_box (ldet_det d)) detections in
  cls_boxes <- get_nms_result fuel (Labeled labels scores boxes) cfg
                 num_classes (-1) ;;
  Ok (cls_boxes, length cls_boxes).

(** ** Pasting a mask into the image canvas *)

(** A two-dimensional [uint8] array: its shape and its rows. *)
Record image := mkImage {
  im_rows : nat;
  im_cols : nat;
  im_px : list (list Z)
}.

(** [np.zeros((h, w), dtype=np.uint8)] *)
Definition np_zeros2 (h w : Z) : outcome image :=
  if ((h <? 0) || (w <? 0))%Z then Raise ValueError
  else Ok (mkImage (Z.to_nat h) (Z.to_nat w)
                   (repeat (repeat 0%Z (Z.to_nat w)) (Z.to_nat h))).

(** Where the bound [i] of a slice falls in a sequence of [n] items: a
    negative bound counts from the end, and both are clipped. *)
Definition slice_bound (n i : Z) : Z :=
  if (i <? 0)%Z then Z.max (i + n) 0 else Z.min i n.

(** The first index and the number of items of [a:b] over [n] items. *)
Definition slice_start (n : nat) (a : Z) : nat :=
  Z.to_nat (slice_bound (Z.of_nat n) a).

Definition slice_len (n : nat) (a b : Z) : nat :=
  Z.to_nat (slice_bound (Z.of_nat n) b - slice_bound (Z.of_nat n) a).

(** [l[a:b]] *)
Definition py_slice {A : Type} (a b : Z) (l : list A) : list A :=
  firstn (slice_len (length l) a b) (skipn (slice_start (length l) a) l).

(** [img[ya:yb, xa:xb]] *)
Definition slice2 (img : image) (ya yb xa xb : Z) : image :=
  mkImage (slice_len (im_rows img) ya yb) (slice_len (im_cols img) xa xb)
          (map (py_slice xa xb) (py_slice ya yb (im_px img))).

Definition mapi {A B : Type} (f : nat -> A -> B) (l : list A) : list B :=
  map (fun p => f (fst p) (snd p)) (combine (seq 0 (length l)) l).

(** An axis of [s] items broadcasts to [t] items when [s] is [t] or 1. *)
Definition broadcasts (s t : nat) : bool := (s =? t)%nat || (s =? 1)%nat.

(** The element at [(i, j)] of [src] once broadcast. *)
Definition bcast_at (src : image) (i j : nat) : Z :=
  nth (if (im_cols src =? 1)%nat then 0%nat else j)
      (nth (if (im_rows src =? 1)%nat then 0%nat else i) (im_px src) [])
      0%Z.

(** [target[ya:yb, xa:xb] = src]: numpy raises [ValueError] when the shape
    of [src] does not broadcast to the shape of the region. *)
Definition assign2 (target : image) (ya yb xa xb : Z) (src : image)
  : outcome image :=
  let ylo := slice_start (im_rows target) ya in
  let xlo := slice_start (im_cols target) xa in
  let th := slice_len (im_rows target) ya yb in
  let tw := slice_len (im_cols target) xa xb in
  if broadcasts (im_rows src) th && broadcasts (im_cols src) tw then
    Ok (mkImage (im_rows target) (im_cols target)
          (mapi (fun y row =>
                   mapi (fun x v =>
                           if (ylo <=? y)%nat && (y <? ylo + th)%nat
                              && (xlo <=? x)%nat && (x <? xlo + tw)%nat
                           then bcast_at src (y - ylo) (x - xlo)
                           else v)
                        row)
                (im_px target)))
  else Raise ValueError.

(** The size [(w, h)] asked of [cv2.resize] for the integer box
    [xmin, ymin, xmax, ymax] (lines 303-306). *)
Definition resize_w (xmin xmax : Z) : Z := Z.max (xmax - xmin + 1) 1.
Definition resize_h (ymin ymax : Z) : Z := Z.max (ymax - ymin + 1) 1.

(** Lines 310-318 of [mask_encode]: the binarised mask [resized_mask],
    resized to the box, is pasted into an empty canvas of the image's
    size, clipped to the image. *)
Definition paste_mask (im_h im_w xmin ymin xmax ymax : Z)
  (resized_mask : image) : outcome image :=
  im_mask <- np_zeros2 im_h im_w ;;
  let x0 := Z.min (Z.max xmin 0) im_w in
  let x1 := Z.min (Z.max (xmax + 1) 0) im_w in
  let y0 := Z.min (Z.max ymin 0) im_h in
  let y1 := Z.min (Z.max (ymax + 1) 0) im_h in
  assign2 im_mask y0 y1 x0 x1
    (slice2 resized_mask (y0 - ymin)%Z (y1 - ymin)%Z
                         (x0 - xmin)%Z (x1 - xmin)%Z).

(** ** Multi-scale box merge *)

(** [n] rows of [width] elements each, from the elements in row-major
    order. *)
Fixpoint chunks (n width : nat) (l : list float) : list (list float) :=
  match n with
  | O => []
  | S n' => firstn width l :: chunks n' width (skipn width l)
  end.

(** The rows of a two-dimensional array. *)
Definition rows_of (a : ndarray) : list (list float) :=
  match shape a with
  | [n; width] => chunks n width (data a)
  | _ => []
  end.

(** [np.reshape(a, (-1, width))]: the number of rows is left to numpy,
    which refuses a [width] of 0 and a size that [width] does not
    divide. *)
Definition reshape_rows (a : ndarray) (width : nat)
  : outcome (list (list float)) :=
  let size := length (data a) in
  if (width =? 0)%nat || negb (size mod width =? 0)%nat then Raise ValueError
  else Ok (chunks (size / width) width (data a)).

(** [k[n:]] *)
Fixpoint string_drop (n : nat) (k : string) : string :=
  match n, k with
  | S n', String _ rest => string_drop n' rest
  | _, _ => k
  end.

(** [result[k][0]] *)
Definition get_item (result : list (string * ndarray)) (k : string)
  : outcome ndarray :=
  match find (fun kv => String.eqb (fst kv) k) result with
  | Some kv => Ok (snd kv)
  | None => Raise KeyError
  end.

(** [np.concatenate(arrays)] along the first axis: there must be an array,
    none may be a scalar, and all must agree on the other axes. *)
Definition np_concatenate (arrays : list ndarray) : outcome ndarray :=
  match arrays with
  | [] => Raise ValueError
  | a :: rest =>
      match shape a with
      | [] => Raise ValueError
      | n :: tail =>
          if forallb (fun b => match shape b with
                               | [] => false
                               | _ :: t => shape_eqb t tail
                               end) rest
          then Ok (mkArray
                     (fold_right (fun b acc => (hd 0%nat (shape b) + acc)%nat)
                                 0%nat arrays :: tail)
                     (concat (map data arrays)))
          else Raise ValueError
      end
  end.

(** The boxes of a row of [4 * num_classes] columns. *)
Fixpoint group4 (row : list float) : list box :=
  match row with
  | a :: b :: c :: d :: rest => mkBox a b c d :: group4 rest
  | _ => []
  end.

(** The body of [for k in result.keys()] in [mstest_box_post_process]:
    the arrays appended to [ms_boxes] and to [ms_scores], and
    [use_flip]. *)
Fixpoint collect_boxes (keys all : list (string * ndarray))
  (im_shape : list (list float)) (num_classes : nat)
  : outcome (list (list (list float)) * list ndarray * bool) :=
  match keys with
  | [] => Ok ([], [], false)
  | (k, v) :: rest =>
      if contains "bbox" k then
        boxes <- reshape_rows v (4 * num_classes) ;;
        scores <- get_item all (String.append "score" (string_drop 4 k)) ;;
        boxes <- (if contains "flip" k then box_flip boxes im_shape
                  else Ok boxes) ;;
        more <- collect_boxes rest all im_shape num_classes ;;
        let '(ms_boxes, ms_scores, use_flip) := more in
        Ok (boxes :: ms_boxes, scores :: ms_scores,
            contains "flip" k || use_flip)
      else collect_boxes rest all im_shape num_classes
  end.

(** The columns [label, score, x1, y1, x2, y2] of a result row. *)
Definition ldet_cols (r : ldet) : list float :=
  [label r; lscore r; x1 (ldet_det r); y1 (ldet_det r);
   x2 (ldet_det r); y2 (ldet_det r)].

(** The dictionary [mstest_box_post_process] returns: ['bbox'] always and
    ['bbox_flip'] when a flipped transform took part, each with its number
    of rows. *)
Record post_bbox := mkPostBbox {
  out_bbox : list ldet * nat;
  out_bbox_flip : option (list (list float) * nat)
}.

(** [mstest_box_post_process(result, config, num_classes)].  The arrays of
    [result] are [result[k][0]]; the image shape and the score arrays are
    two-dimensional, one row per image and per box. *)
Definition mstest_box_post_process (fuel : nat)
  (result : list (string * ndarray)) (cfg : config) (num_classes : nat)
  : outcome post_bbox :=
  im <- get_item result "im_shape" ;;
  let im_shape := rows_of im in
  collected <- collect_boxes result result im_shape num_classes ;;
  let '(ms_boxes, ms_scores, use_flip) := collected in
  ms_boxes <- (match ms_boxes with
               | [] => Raise ValueError
               | _ => Ok (concat ms_boxes)
               end) ;;
  ms_scores <- np_concatenate ms_scores ;;
  bbox_pred <- get_nms_result fuel
                 (Dense (rows_of ms_scores) (map group4 ms_boxes))
                 cfg num_classes 0 ;;
  if use_flip then
    let bbox := map (fun r => skipn 2 (ldet_cols r)) bbox_pred in
    flipped <- box_flip bbox im_shape ;;
    let bbox_flip :=
      map (fun rf => firstn 2 (ldet_cols (fst rf)) ++ snd rf)
          (combine bbox_pred flipped) in
    Ok (mkPostBbox (bbox_pred, length bbox_pred)
                   (Some (bbox_flip, length bbox_flip)))
  else Ok (mkPostBbox (bbox_pred, length bbox_pred) None).

(** ** Greedy NMS in the widths numpy computes in *)

(** binary64: the width of a Python float, and of what numpy makes of a
    [float32] scalar combined with a Python number. *)
Module F64.

Definition prec : Z := 53.
Definition emax : Z := 1024.

Definition float := spec_float.

Definition zero : float := S754_zero false.
Definition of_Z (z : Z) : float := binary_normalize prec emax z 0 false.
Definition one : float := of_Z 1.

Definition add : float -> float -> float := SFadd prec emax.
Definition sub : float -> float -> float := SFsub prec emax.
Definition mul : float -> float -> float := SFmul prec emax.
Definition div : float -> float -> float := SFdiv prec emax.

Definition ltb : float -> float -> bool := SFltb.
Definition leb : float -> float -> bool := SFleb.
Definition gtb (x y : float) : bool := ltb y x.
Definition geb (x y : float) : bool := leb y x.

(** [lit n d] is the binary64 value nearest to the decimal [n/d]. *)
Definition lit (n d : Z) : float := div (of_Z n) (of_Z d).

(** Python's builtin [max(a, b)]. *)
Definition py_max (a b : float) : float := if gtb b a then b else a.

Definition signed (s : bool) (m : positive) : Z :=
  if s then Zneg m else Zpos m.

(** A binary32 value seen as a binary64 value: the same number. *)
Definition of_f32 (x : F32.float) : float :=
  match x with
  | S754_finite s m e => binary_normalize prec emax (signed s m) e s
  | _ => x
  end.

(** A binary64 value rounded to binary32, to the nearest, ties to even. *)
Definition to_f32 (x : float) : F32.float :=
  match x with
  | S754_finite s m e => binary_normalize F32.prec F32.emax (signed s m) e s
  | _ => x
  end.

End F64.

(** [max(0.0, hi - lo + 1)]: the difference of the two [float32] scalars is
    a [float32] scalar, and adding the Python number 1 to it gives a
    [float64]. *)
Definition nms_extent (lo hi : float) : F64.float :=
  F64.py_max F64.zero (F64.add (F64.of_f32 (hi - lo)) F64.one).

(** [w * h] of the inner loop of [nms]. *)
Definition nms_inter64 (bi bj : det) : F64.float :=
  let xx1 := F32.py_max (x1 bi) (x1 bj) in
  let yy1 := F32.py_max (y1 bi) (y1 bj) in
  let xx2 := F32.py_min (x2 bi) (x2 bj) in
  let yy2 := F32.py_min (y2 bi) (y2 bj) in
  F64.mul (nms_extent xx1 xx2) (nms_extent yy1 yy2).

(** [inter / (iarea + areas[j] - inter)]: the two areas are [float32]
    scalars and so is their sum; the rest is [float64]. *)
Definition nms_ovr64 (bi bj : det) : F64.float :=
  let inter := nms_inter64 bi bj in
  F64.div inter (F64.sub (F64.of_f32 (det_area bi + det_area bj)) inter).

(** The loops of [nms] with the overlap in the widths above, for a
    threshold that is a Python float, and for [order] standing for
    [scores.argsort()[::-1]]: numpy's default sort is not stable, so which
    of the arrangements by descending score it returns is not fixed by
    the source. *)
Section NmsWalk.
Variable dets : list det.
Variable thresh : F64.float.
Variable order : list nat.

Definition walk_inner (_i : nat) (suppressed : list Z) : list Z :=
  let i := nth _i order 0%nat in
  fold_left
    (fun sup _j =>
       let j := nth _j order 0%nat in
       if (nth j sup 0 =? 1)%Z then sup
       else if F64.geb (nms_ovr64 (nth i dets det0) (nth j dets det0)) thresh
            then upd j 1%Z sup
            else sup)
    (seq (S _i) (ndets dets - S _i)) suppressed.

Definition walk_outer (suppressed : list Z) : list Z :=
  fold_left
    (fun sup _i =>
       let i := nth _i order 0%nat in
       if (nth i sup 0 =? 1)%Z then sup else walk_inner _i sup)
    (seq 0 (ndets dets)) suppressed.

End NmsWalk.

Definition walk_suppressed (order : list nat) (dets : list det)
  (thresh : F64.float) : list Z :=
  walk_outer dets thresh order (repeat 0%Z (ndets dets)).

(** [nms(dets, thresh)] when [scores.argsort()[::-1]] is [order]. *)
Definition nms_walk (order : list nat) (dets : list det) (thresh : F64.float)
  : list det :=
  if (length dets =? 0)%nat then []
  else take_rows det0
         (np_where (fun s => (s =? 0)%Z) (walk_suppressed order dets thresh))
         dets.

(** ** Box voting with a Python threshold *)

(** [box_voting(nms_dets, dets, vote_thresh)] for a threshold that is a
    Python float, as [config['vote_thresh']] is: the overlaps are a
    [float32] array, and [top_to_all_overlaps[k] >= vote_thresh] compares
    them in [float32] with the threshold rounded to that width. *)
Definition box_voting_py (nms_dets dets : list det) (vote_thresh : F64.float)
  : outcome (list det) :=
  box_voting nms_dets dets (F64.to_f32 vote_thresh).
(** ** Vocabulary of the statements *)

(** [subseq l1 l2]: [l1] is [l2] with some rows left out, the others in
    their order. *)
Inductive subseq {A : Type} : list A -> list A -> Prop :=
| subseq_nil : subseq [] []
| subseq_skip : forall x l1 l2, subseq l1 l2 -> subseq l1 (x :: l2)
| subseq_keep : forall x l1 l2, subseq l1 l2 -> subseq (x :: l1) (x :: l2).

(** The elements of [l] whose flag satisfies [p]. *)
Fixpoint select {A B : Type} (p : B -> bool) (flags : list B) (l : list A)
  : list A :=
  match flags, l with
  | f :: fs, x :: xs => if p f then x :: select p fs xs else select p fs xs
  | _, _ => []
  end.

(** Scores in descending order: each one at least the next. *)
Fixpoint descending (l : list float) : bool :=
  match l with
  | a :: (b :: _) as t => (a >=? b) && descending t
  | _ => true
  end.

(** A detection with integer coordinates. *)
Definition int_det (s : float) (a b c d : Z) : det :=
  mkDet s (F32.of_Z a) (F32.of_Z b) (F32.of_Z c) (F32.of_Z d).



(** A stand-in for the per-sample loop of [mask_encode] in the examples:
    it fails, so a result [Ok []] can only come from the guards. *)
Definition no_samples
  (_ : Z) (_ : float) (_ _ : ndarray) (_ : list nat) (_ : list (list float))
  : outcome (list unit) := Raise ValueError.

(** Upstream batches: none at all, the [(1, 1)] marker, and an array with
    no rows. *)
Definition batch_none : encode_input :=
  mkEncodeInput None (np_zeros [0%nat; 2%nat; 2%nat]) [0%nat] [].
Definition batch_marker : encode_input :=
  mkEncodeInput (Some (mkArray [1%nat; 1%nat] [F32.opp F32.one]))
                (np_zeros [0%nat; 2%nat; 2%nat]) [0%nat] [].
Definition batch_empty : encode_input :=
  mkEncodeInput (Some (np_zeros [0%nat; 6%nat]))
                (np_zeros [0%nat; 2%nat; 2%nat]) [0%nat] [].

(** A result of multi-scale testing with one detection and two classes at
    resolution 1: the first transform brought a mask tensor of shape
    [(1, 2, 1, 1)], the flipped one only the [(1, 1)] marker. *)
Definition mixed_masks : list (string * ndarray) :=
  [("im_shape"%string, mkArray [1%nat; 3%nat] [F32.of_Z 480; F32.of_Z 640; F32.one]);
   ("mask"%string, mkArray [1%nat; 2%nat; 1%nat; 1%nat] [F32.lit 1 4; F32.lit 3 4]);
   ("mask_flip"%string, mkArray [1%nat; 1%nat] [F32.opp F32.one])].

(** The same with the marker for both transforms. *)
Definition marker_masks : list (string * ndarray) :=
  [("im_shape"%string, mkArray [1%nat; 3%nat] [F32.of_Z 480; F32.of_Z 640; F32.one]);
   ("mask"%string, mkArray [1%nat; 1%nat] [F32.opp F32.one]);
   ("mask_flip"%string, mkArray [1%nat; 1%nat] [F32.opp F32.one])].

(** The keys of [result] that hold a mask tensor. *)
Definition is_mask_entry (kv : string * ndarray) : bool :=
  contains "mask" (fst kv).

(** A mask tensor the merge takes as it is: four axes. *)
Definition valid_mask (a : ndarray) : bool := (length (shape a) =? 4)%nat.

(** The x-coordinates of a row of boxes: the columns [0::4] and [2::4]. *)
Definition xcoords (row : list float) : list float :=
  stride4 0 row ++ stride4 2 row.

(** Both strided slices of the row have the same number of columns, as in
    every array whose width is a multiple of 4. *)
Definition flippable (row : list float) : Prop :=
  length (stride4 0 row) = length (stride4 2 row).

(** [flip(flip(boxes))] *)
Definition flip_twice (boxes : list (list float)) (im_shape : list (list float))
  : outcome (list (list float)) :=
  flipped <- box_flip boxes im_shape ;;
  box_flip flipped im_shape.

(** A 480 x 640 image and one box [10.3, 20, 200.5, 80]. *)
Definition shape_480_640 : list (list float) :=
  [[F32.of_Z 480; F32.of_Z 640; F32.one]].
Definition box_10_3 : list (list float) :=
  [[F32.lit 103 10; F32.of_Z 20; F32.lit 2005 10; F32.of_Z 80]].
(** A box with integer coordinates. *)
Definition box_int : list (list float) :=
  [[F32.of_Z 10; F32.of_Z 20; F32.of_Z 200; F32.of_Z 80]].

(** The two boxes of the worked scenario: [0, 0, 10, 10] with score 0.9 and
    [1, 1, 11, 11] with score 0.8. *)
Definition two_boxes : list det :=
  [int_det (F32.lit 9 10) 0 0 10 10; int_det (F32.lit 8 10) 1 1 11 11].

(** How many scores of the pool are at least, above, or equal to [t]. *)
Definition count_ge (t : float) (pool : list float) : nat :=
  length (filter (fun s => s >=? t) pool).
Definition count_gt (t : float) (pool : list float) : nat :=
  length (filter (fun s => s >? t) pool).
Definition count_eq (t : float) (pool : list float) : nat :=
  length (filter (fun s => F32.eqb s t) pool).

(** [t] is the [K]-th highest score of the pool: it is one of the scores,
    fewer than [K] scores are above it and at least [K] are not below. *)
Definition kth_highest (K : nat) (pool : list float) (t : float) : Prop :=
  In t pool /\ (count_gt t pool < K)%nat /\ (K <= count_ge t pool)%nat.

(** The scores pooled over the classes. *)
Definition pooled_scores (cls_boxes : list (list ldet)) : list float :=
  concat (map (map lscore) cls_boxes).

(** Three classes with scores 0.9, 0.5 | 0.7 | 0.6, 0.3. *)
Definition ld (j : Z) (s : float) : ldet :=
  mkLdet (F32.of_Z j) (int_det s 0 0 10 10).
Definition three_classes : list (list ldet) :=
  [[ld 1 (F32.lit 9 10); ld 1 (F32.lit 5 10)];
   [ld 2 (F32.lit 7 10)];
   [ld 3 (F32.lit 6 10); ld 3 (F32.lit 3 10)]].

(** The rows Soft-NMS appends to [dets_final] during its first [fuel]
    passes, whether or not the loop is over by then. *)
Fixpoint soft_nms_picks (sigma thres : float) (fuel : nat) (dets : list det)
  : list det :=
  match dets, fuel with
  | [], _ => []
  | _, O => []
  | _ :: _, S fuel' =>
      let '(t, _, next) := soft_nms_pass sigma thres dets in
      t :: soft_nms_picks sigma thres fuel' next
  end.

(** The scores of an array are numbers. *)
Definition scores_ok (dets : list det) : Prop :=
  Forall (fun d => F32.is_nan (score d) = false) dets.

(** The scores of an array are binary32 values: each mantissa has at most
    24 bits and is normalised for its exponent. *)
Definition scores_valid (dets : list det) : Prop :=
  Forall (fun d => valid_binary F32.prec F32.emax (score d) = true) dets.

(** A row after one pass against the picked box [t]: its score multiplied
    by its weight. *)
Definition decay (sigma : float) (t d : det) : det :=
  set_score (score d * soft_weight sigma t d) d.

(** Soft-NMS parameters of the worked scenario, [sigma = 0.5], with
    thresholds 0.25 and 0.5. *)
Definition sigma_half : float := F32.lit 1 2.
Definition theta_quarter : float := F32.lit 1 4.
Definition theta_half : float := F32.lit 1 2.

(** The output of Soft-NMS on [two_boxes] with threshold 0.25: the second
    box stays, its score decayed from 0.8 to about 0.2967. *)
Definition two_boxes_soft : list det :=
  [int_det (F32.lit 9 10) 0 0 10 10;
   int_det (S754_finite false 9955834 (-25)) 1 1 11 11].

(** A negative [sigma], a negative threshold, two boxes with negative
    scores, and two boxes apart of which the first has a NaN score. *)
Definition sigma_minus_half : float := F32.opp sigma_half.
Definition theta_minus_tenth : float := F32.lit (-1) 10.
Definition negative_boxes : list det :=
  [int_det (F32.lit (-1) 20) 0 0 10 10; int_det (F32.lit (-9) 100) 1 1 11 11].
Definition nan_boxes : list det :=
  [int_det F32.nan 0 0 10 10; int_det (F32.lit 9 10) 20 20 30 30].

(** Whether the scores of a returned array are in descending order. *)
Definition returns_descending (o : outcome (list det)) : bool :=
  match o with Ok out => descending (map score out) | _ => true end.

(** One detection with score 0.25. *)
Definition low_box : list det := [int_det (F32.lit 1 4) 0 0 10 10].

(** A row flipped four columns at a time, for the width [w]. *)
Fixpoint flip4 (w : float) (row : list float) : list float :=
  match row with
  | a :: b :: c :: d :: rest =>
      mirror w c :: b :: mirror w a :: d :: flip4 w rest
  | [a; b; c] => [mirror w c; b; mirror w a]
  | _ => row
  end.

(** The order of the keys, and keys that are numbers. *)
Definition key_le {A : Type} (key : A -> float) (a b : A) : Prop :=
  F32.leb (key a) (key b) = true.
Definition key_ok {A : Type} (key : A -> float) (a : A) : Prop :=
  F32.is_nan (key a) = false.

(** The row a pass of Soft-NMS picks, and the array after the pass: the
    picked row forced to -1, then every score multiplied by its weight. *)
Definition picked (dets : list det) : det :=
  nth (argmax (map score dets)) dets det0.

Definition decayed (sigma : float) (dets : list det) : list det :=
  map (decay sigma (picked dets))
      (upd (argmax (map score dets))
           (set_score (F32.opp F32.one) (picked dets)) dets).

(** The same binary32 value, bit for bit. *)
Definition same_float (a b : float) : bool :=
  match a, b with
  | S754_zero s, S754_zero s' => Bool.eqb s s'
  | S754_infinity s, S754_infinity s' => Bool.eqb s s'
  | S754_nan, S754_nan => true
  | S754_finite s m e, S754_finite s' m' e' =>
      Bool.eqb s s' && Pos.eqb m m' && Z.eqb e e'
  | _, _ => false
  end.

(** The array that the merge appends for a mask entry: the tensor, or its
    mirror under a key with "flip" in it, when it has four axes, and the
    empty substitute otherwise. *)
Definition appended (M : nat) (kv : string * ndarray) : ndarray :=
  if valid_mask (snd kv) then
    if contains "flip" (fst kv) then flip_last_axis (snd kv) else snd kv
  else np_zeros [0%nat; M; M].

(** Some key holds a mask tensor of four axes. *)
Definition has_valid_mask (result : list (string * ndarray)) : bool :=
  existsb (fun kv => is_mask_entry kv && valid_mask (snd kv)) result.

(** The shape a list of shapes broadcasts to, one after the other. *)
Fixpoint broadcast_all (s : list nat) (ts : list (list nat))
  : option (list nat) :=
  match ts with
  | [] => Some s
  | t :: ts' =>
      match broadcast_shapes s t with
      | Some r => broadcast_all r ts'
      | None => None
      end
  end.

(** One box with a single-class tensor from the first transform, the
    marker from the flipped one. *)
Definition mixed_single_class : list (string * ndarray) :=
  [("im_shape"%string, mkArray [1%nat; 3%nat] [F32.of_Z 480; F32.of_Z 640; F32.one]);
   ("mask"%string, mkArray [1%nat; 1%nat; 1%nat; 1%nat] [F32.lit 1 4]);
   ("mask_flip"%string, mkArray [1%nat; 1%nat] [F32.opp F32.one])].

(** The second row of [out] is a row of [dets] that has been decayed
    against the first row of [out]: the same box, and the score multiplied
    by the weight of its overlap with that row. *)
Definition second_row_decayed (sigma : float) (dets out : list det) : Prop :=
  match out with
  | r1 :: r2 :: _ =>
      exists d,
        In d dets /\ det_box r2 = det_box d
        /\ score r2 = score d * soft_weight sigma r1 d
  | _ => True
  end.

(** The boxes a call returned, and a call made on what a call returned. *)
Definition boxes_returned (o : outcome (list det)) : outcome (list box) :=
  out <- o ;; Ok (map det_box out).

Definition soft_nms_again (sigma thres : float) (fuel : nat)
  (o : outcome (list det)) : outcome (list det) :=
  out <- o ;; soft_nms out sigma thres fuel.

(** ** Vocabulary of the further properties *)

(** A row width that [box_flip] accepts: 0 or 3 modulo 4. *)
Definition accepted_width (row : list float) : bool :=
  let r := (length row mod 4)%nat in (r =? 0)%nat || (r =? 3)%nat.

(** The first class that [get_nms_result] processes. *)
Definition start_idx (background_label : Z) : nat :=
  if (background_label =? 0)%Z then 1%nat else 0%nat.

(** The row of class [j] made of a detection. *)
Definition labelled (j : nat) (d : det) : ldet :=
  mkLdet (F32.of_Z (Z.of_nat j)) d.

(** A configuration for plain NMS at 0.5 keeping at most 100 rows, and
    the same asking for Soft-NMS without [sigma]. *)
Definition plain_config : config :=
  mkConfig (F32.lit 5 100) (F32.lit 1 2) 100 false None false None.
Definition soft_config_no_sigma : config :=
  mkConfig (F32.lit 5 100) (F32.lit 1 2) 100 true None false None.
Definition voting_config_no_thresh : config :=
  mkConfig (F32.lit 5 100) (F32.lit 1 2) 100 false None true None.

(** Corner-style detections: two overlapping rows of class 0, one row of
    class 1, one row marked with score -1 and one with a label that is no
    class. *)
Definition corner_rows : list ldet :=
  [mkLdet (F32.of_Z 0) (int_det (F32.lit 9 10) 0 0 10 10);
   mkLdet (F32.of_Z 1) (int_det (F32.lit 7 10) 50 50 60 60);
   mkLdet (F32.of_Z 0) (int_det (F32.lit 8 10) 1 1 11 11);
   mkLdet (F32.of_Z 0) (int_det (F32.of_Z (-1)) 0 0 0 0);
   mkLdet (F32.of_Z 5) (int_det (F32.lit 6 10) 80 80 90 90)].

(** The pixel at row [y] and column [x]. *)
Definition pixel (img : image) (y x : Z) : Z :=
  nth (Z.to_nat x) (nth (Z.to_nat y) (im_px img) []) 0%Z.

(** The rows of an image agree with its shape. *)
Definition well_formed (img : image) : Prop :=
  length (im_px img) = im_rows img
  /\ Forall (fun row => length row = im_cols img) (im_px img).

Definition in_box (xmin ymin xmax ymax y x : Z) : bool :=
  ((ymin <=? y) && (y <=? ymax) && (xmin <=? x) && (x <=? xmax))%Z.

(** A 2x3 mask, as [cv2.resize] gives for the box [(-1, 1, 1, 2)]. *)
Definition mask_2x3 : image :=
  mkImage 2 3 [[1; 0; 1]; [1; 1; 0]]%Z.

(** The number of elements of an array of shape [shp]. *)
Definition size_of (shp : list nat) : nat := fold_right Nat.mul 1%nat shp.

(** The elements of an array agree with its shape. *)
Definition array_ok (a : ndarray) : Prop :=
  length (data a) = size_of (shape a).

(** The mask tensors as the merge averages them: the ones under a key
    with "flip" in it mirrored. *)
Definition merged_inputs (result : list (string * ndarray)) : list ndarray :=
  map (fun kv => if contains "flip" (fst kv) then flip_last_axis (snd kv)
                 else snd kv)
      (filter is_mask_entry result).

(** Element [i] of the average of [arrays]: the elements at [i] summed
    from the first array to the last, over the number of arrays. *)
Definition mean_at (i : nat) (arrays : list ndarray) : float :=
  match arrays with
  | [] => F32.nan
  | a :: rest =>
      fold_left F32.add (map (fun b => nth i (data b) F32.zero) rest)
                (nth i (data a) F32.zero)
      / F32.of_Z (Z.of_nat (length arrays))
  end.

(** Two transforms of one image, each with a tensor of shape
    [(1, 1, 1, 2)]. *)
Definition two_scales : list (string * ndarray) :=
  [("im_shape"%string, mkArray [1%nat; 3%nat] [F32.of_Z 480; F32.of_Z 640; F32.one]);
   ("mask"%string, mkArray [1%nat; 1%nat; 1%nat; 2%nat] [F32.lit 1 4; F32.lit 3 4]);
   ("mask_flip"%string, mkArray [1%nat; 1%nat; 1%nat; 2%nat] [F32.lit 1 2; F32.lit 1 4])].

(** A result with the image shape and boxes, and no mask at all. *)
Definition no_mask_keys : list (string * ndarray) :=
  [("im_shape"%string, mkArray [1%nat; 3%nat] [F32.of_Z 480; F32.of_Z 640; F32.one]);
   ("bbox"%string, mkArray [1%nat; 6%nat]
      [F32.zero; F32.one; F32.zero; F32.zero; F32.one; F32.one])].




(** One image of 480 x 640 seen twice, the second time flipped: two
    classes (the first is the background), one box per transform. *)
Definition two_transforms : list (string * ndarray) :=
  [("im_shape"%string,
    mkArray [1; 3]%nat [F32.of_Z 480; F32.of_Z 640; F32.one]);
   ("bbox"%string,
    mkArray [1; 8]%nat (map F32.of_Z [0; 0; 0; 0; 10; 10; 50; 50]%Z));
   ("score"%string, mkArray [1; 2]%nat [F32.lit 1 10; F32.lit 9 10]);
   ("bbox_flip"%string,
    mkArray [1; 8]%nat (map F32.of_Z [0; 0; 0; 0; 339; 200; 439; 300]%Z));
   ("score_flip"%string, mkArray [1; 2]%nat [F32.lit 2 10; F32.lit 8 10])].

(** Boxes without their scores. *)
Definition boxes_only : list (string * ndarray) :=
  [("im_shape"%string,
    mkArray [1; 3]%nat [F32.of_Z 480; F32.of_Z 640; F32.one]);
   ("bbox"%string,
    mkArray [1; 8]%nat (map F32.of_Z [0; 0; 0; 0; 10; 10; 50; 50]%Z))].

(** ** Vocabulary of the properties of the greedy walk *)

(** What [scores.argsort()[::-1]] is sure to be: every row index, once. *)
Definition is_arrangement (n : nat) (order : list nat) : bool :=
  (length order =? n)%nat
  && forallb (fun i => existsb (Nat.eqb i) order) (seq 0 n).

(** The scores descend along [order]. *)
Definition by_descending_score (dets : list det) (order : list nat) : bool :=
  descending (map (fun k => score (nth k dets det0)) order).

(** Row [k] is not suppressed at the end of the walk. *)
Definition walk_survives (order : list nat) (dets : list det)
  (thresh : F64.float) (k : nat) : Prop :=
  nth k (walk_suppressed order dets thresh) 0%Z = 0%Z.

(** The test of the inner loop: the overlap of row [i] with row [j]
    reaches the threshold. *)
Definition reaches (dets : list det) (thresh : F64.float) (i j : nat) : bool :=
  F64.geb (nms_ovr64 (nth i dets det0) (nth j dets det0)) thresh.

(** The bodies of the two loops, as functions of the flags. *)
Definition inner_step (dets : list det) (thresh : F64.float)
  (order : list nat) (_i : nat) (sup : list Z) (_j : nat) : list Z :=
  let i := nth _i order 0%nat in
  let j := nth _j order 0%nat in
  if (nth j sup 0 =? 1)%Z then sup
  else if F64.geb (nms_ovr64 (nth i dets det0) (nth j dets det0)) thresh
       then upd j 1%Z sup
       else sup.

Definition outer_step (dets : list det) (thresh : F64.float)
  (order : list nat) (sup : list Z) (_i : nat) : list Z :=
  let i := nth _i order 0%nat in
  if (nth i sup 0 =? 1)%Z then sup else walk_inner dets thresh order _i sup.

(** Two boxes that overlap and one apart: scores 0.9, 0.8 and 0.7. *)
Definition three_boxes : list det :=
  [int_det (F32.lit 9 10) 0 0 10 10;
   int_det (F32.lit 8 10) 1 1 11 11;
   int_det (F32.lit 7 10) 100 100 110 110].

(** The Python float 0.5. *)
Definition half64 : F64.float := F64.lit 1 2.

(** Every flagged row was flagged by a row that comes before position [m]
    of the walk, is not flagged itself, and overlaps it by the threshold
    or more. *)
Definition flagged_by_earlier (order : list nat) (dets : list det)
  (thresh : F64.float) (m : nat) (sup : list Z) : Prop :=
  forall k,
    nth k sup 0%Z = 1%Z ->
    exists a b,
      (a < m)%nat /\ (a < b < length dets)%nat
      /\ nth b order 0%nat = k
      /\ nth (nth a order 0%nat) sup 0%Z <> 1%Z
      /\ reaches dets thresh (nth a order 0%nat) (nth b order 0%nat) = true.

(** The Python floats 1.5 and 1 + 1e-9. *)
Definition one_and_half : F64.float := F64.lit 3 2.
Definition barely_above_one : F64.float :=
  F64.add F64.one (F64.lit 1 1000000000).
(** ** Rounding to binary32 *)

Section RoundingVocabulary.
Local Open Scope Z_scope.

(** The number of binary digits of a mantissa. *)
Definition digits (m : positive) : Z := Zpos (digits2_pos m).

(** [m1 * 2^e1 <= m2 * 2^e2], on integers scaled by [2^-b]. *)
Definition vle (b m1 e1 m2 e2 : Z) : Prop :=
  m1 * 2 ^ (e1 - b) <= m2 * 2 ^ (e2 - b).

Definition canonical (m : positive) (e : Z) : Prop :=
  fexp F32.prec F32.emax (digits m + e) = e.

Definition inexact (r : shr_record) : bool := shr_r r || shr_s r.

(** After [j] shifts of [m]: the quotient, and a remainder that is not 0
    when one of the two bits is set. *)
Definition shr_inv (m j : Z) (r : shr_record) : Prop :=
  shr_m r = m / 2 ^ j /\ (inexact r = true -> m mod 2 ^ j <> 0).

(** The mantissa is aligned: it needs no shift to the left. *)
Definition aligned (mx : positive) (ex : Z) : Prop :=
  ex <= fexp F32.prec F32.emax (digits mx + ex).

Definition finite_or_inf (m : positive) (e : Z) : spec_float :=
  if e <=? 104 then S754_finite false m e else S754_infinity false.

(** What a weight is: NaN, or a binary32 number between 0 and 1. *)
Definition is_weight (w : spec_float) : Prop :=
  w = S754_nan
  \/ (valid_binary F32.prec F32.emax w = true
      /\ SFleb w F32.one = true
      /\ SFleb (S754_zero false) w = true).

End RoundingVocabulary.

(** * Properties *)

(** ** The order of binary32 values *)

Module F32Facts.

Lemma compare_antisym (a b : float) :
  SFcompare b a = option_map CompOpp (SFcompare a b).
Proof.
  destruct a as [sa|sa| |sa ma ea], b as [sb|sb| |sb mb eb]; simpl;
    try destruct sa; try destruct sb; simpl; try reflexivity.
  - rewrite (Z.compare_antisym ea eb).
    destruct (ea ?= eb)%Z; simpl; try reflexivity.
    change (Pos.compare_cont Eq mb ma) with (Pos.compare mb ma).
    change (Pos.compare_cont Eq ma mb) with (Pos.compare ma mb).
    rewrite (Pos.compare_antisym ma mb).
    destruct (ma ?= mb)%positive; reflexivity.
  - rewrite (Z.compare_antisym ea eb).
    destruct (ea ?= eb)%Z; simpl; try reflexivity.
    change (Pos.compare_cont Eq mb ma) with (Pos.compare mb ma).
    change (Pos.compare_cont Eq ma mb) with (Pos.compare ma mb).
    rewrite (Pos.compare_antisym ma mb).
    destruct (ma ?= mb)%positive; reflexivity.
Qed.

Lemma compare_refl (a : float) :
  F32.is_nan a = false -> SFcompare a a = Some Eq.
Proof.
  destruct a as [sa|sa| |sa ma ea]; simpl; intros H;
    try destruct sa; try reflexivity; try discriminate;
    rewrite Z.compare_refl;
    change (Pos.compare_cont Eq ma ma) with (Pos.compare ma ma);
    rewrite Pos.compare_refl; reflexivity.
Qed.

Lemma compare_some (a b : float) :
  F32.is_nan a = false -> F32.is_nan b = false ->
  exists c, SFcompare a b = Some c.
Proof.
  destruct a as [sa|sa| |sa ma ea], b as [sb|sb| |sb mb eb]; simpl;
    intros Ha Hb; try discriminate; eauto.
Qed.

Lemma leb_nonnan (a b : float) :
  F32.leb a b = true -> F32.is_nan a = false /\ F32.is_nan b = false.
Proof.
  unfold F32.leb, SFleb.
  destruct a as [sa|sa| |sa ma ea], b as [sb|sb| |sb mb eb]; simpl;
    intros H; try discriminate; auto.
Qed.

Lemma leb_refl (a : float) : F32.is_nan a = false -> F32.leb a a = true.
Proof.
  intros H. unfold F32.leb, SFleb. rewrite (compare_refl a H). reflexivity.
Qed.

Lemma leb_total (a b : float) :
  F32.is_nan a = false -> F32.is_nan b = false ->
  F32.leb a b = true \/ F32.leb b a = true.
Proof.
  intros Ha Hb. unfold F32.leb, SFleb.
  rewrite (compare_antisym a b).
  destruct (compare_some a b Ha Hb) as [c ->]. destruct c; simpl; auto.
Qed.

Lemma ltb_leb (a b : float) : F32.ltb a b = true -> F32.leb a b = true.
Proof.
  unfold F32.ltb, F32.leb, SFltb, SFleb.
  destruct (SFcompare a b) as [[]|]; congruence.
Qed.

Lemma ltb_not_leb (a b : float) : F32.ltb a b = true -> F32.leb b a = false.
Proof.
  unfold F32.ltb, F32.leb, SFltb, SFleb. rewrite (compare_antisym a b).
  destruct (SFcompare a b) as [[]|]; simpl; congruence.
Qed.

Lemma leb_false_ltb (a b : float) :
  F32.is_nan a = false -> F32.is_nan b = false ->
  F32.leb a b = false -> F32.ltb b a = true.
Proof.
  intros Ha Hb. unfold F32.ltb, F32.leb, SFltb, SFleb.
  rewrite (compare_antisym a b).
  destruct (compare_some a b Ha Hb) as [c ->]. destruct c; simpl; congruence.
Qed.

Lemma eqb_leb (a b : float) :
  F32.eqb a b = F32.leb a b && F32.leb b a.
Proof.
  unfold F32.eqb, F32.leb, SFeqb, SFleb. rewrite (compare_antisym a b).
  destruct (SFcompare a b) as [[]|]; reflexivity.
Qed.

Lemma ltb_spec (a b : float) :
  F32.ltb a b = F32.leb a b && negb (F32.leb b a).
Proof.
  unfold F32.ltb, F32.leb, SFltb, SFleb. rewrite (compare_antisym a b).
  destruct (SFcompare a b) as [[]|]; reflexivity.
Qed.

Ltac finite_order :=
  repeat match goal with
         | |- context [Pos.compare_cont Eq ?m ?n] =>
             change (Pos.compare_cont Eq m n) with (Pos.compare m n)
         end;
  repeat match goal with
         | |- context [(?x ?= ?y)%Z] =>
             destruct (Z.compare_spec x y); simpl; try lia; try congruence
         end;
  repeat match goal with
         | |- context [(?x ?= ?y)%positive] =>
             destruct (Pos.compare_spec x y); simpl; try lia; try congruence
         end.

Lemma leb_trans (a b c : float) :
  F32.leb a b = true -> F32.leb b c = true -> F32.leb a c = true.
Proof.
  unfold F32.leb, SFleb.
  destruct a as [sa|sa| |sa ma ea], b as [sb|sb| |sb mb eb],
        c as [sc|sc| |sc mc ec]; simpl;
    try destruct sa; try destruct sb; try destruct sc; simpl;
    try congruence; finite_order.
Qed.

Lemma nan_geb (t : float) : F32.geb F32.nan t = false.
Proof. destruct t as [|[]| |]; reflexivity. Qed.

End F32Facts.

(** ** Index arrays *)

Section IndexArrays.
Context {A B : Type}.

Lemma upd_length (i : nat) (v : A) (l : list A) : length (upd i v l) = length l.
Proof.
  revert i; induction l as [|h t IH]; intros [|i]; simpl; auto.
Qed.

Lemma take_where_select (p : B -> bool) (d : A) (flags : list B) :
  forall (pre l : list A),
    length flags = length l ->
    map (fun k => nth k (pre ++ l) d) (where_from p (length pre) flags)
    = select p flags l.
Proof.
  induction flags as [|f fs IH]; intros pre [|x xs] Hlen; simpl in *;
    try reflexivity; try discriminate.
  injection Hlen as Hlen.
  assert (Hrec :
    map (fun k => nth k (pre ++ x :: xs) d) (where_from p (S (length pre)) fs)
    = select p fs xs).
  { specialize (IH (pre ++ [x]) xs Hlen).
    rewrite length_app in IH. simpl in IH. rewrite Nat.add_1_r in IH.
    rewrite <- app_assoc in IH. exact IH. }
  destruct (p f); simpl.
  - rewrite Hrec. f_equal.
    rewrite app_nth2 by lia. rewrite Nat.sub_diag. reflexivity.
  - exact Hrec.
Qed.

Lemma take_rows_select (p : B -> bool) (d : A) (flags : list B) (l : list A) :
  length flags = length l ->
  take_rows d (np_where p flags) l = select p flags l.
Proof.
  intros H. exact (take_where_select p d flags [] l H).
Qed.

Lemma subseq_nil_l (l : list A) : subseq [] l.
Proof. induction l; constructor; assumption. Qed.

Lemma select_subseq (p : B -> bool) (flags : list B) :
  forall l : list A, subseq (select p flags l) l.
Proof.
  induction flags as [|f fs IH]; intros [|x xs]; simpl;
    try apply subseq_nil_l.
  destruct (p f); constructor; apply IH.
Qed.

End IndexArrays.

Lemma select_self {A : Type} (p : A -> bool) (l : list A) :
  select p l l = filter p l.
Proof.
  induction l as [|x xs IH]; simpl; auto. rewrite IH. reflexivity.
Qed.

Lemma take_rows_filter {A : Type} (p : A -> bool) (d : A) (l : list A) :
  take_rows d (np_where p l) l = filter p l.
Proof.
  rewrite take_rows_select by reflexivity. apply select_self.
Qed.

(** ** Greedy NMS *)

Lemma nms_inner_length dets thresh order _i sup :
  length (nms_inner dets thresh order _i sup) = length sup.
Proof.
  unfold nms_inner.
  generalize (seq (S _i) (ndets dets - S _i)) as js.
  intros js; revert sup; induction js as [|j js IH]; intros sup; simpl; auto.
  rewrite IH.
  destruct (nth (nth j order 0%nat) sup 0%Z =? 1)%Z; auto.
  destruct (_ >=? thresh); auto using upd_length.
Qed.

Lemma nms_outer_length dets thresh order sup :
  length (nms_outer dets thresh order sup) = length sup.
Proof.
  unfold nms_outer.
  generalize (seq 0 (ndets dets)) as ks.
  intros ks; revert sup; induction ks as [|i ks IH]; intros sup; simpl; auto.
  rewrite IH.
  destruct (nth (nth i order 0%nat) sup 0%Z =? 1)%Z; auto using nms_inner_length.
Qed.

Lemma nms_suppressed_length dets thresh :
  length (nms_suppressed dets thresh) = length dets.
Proof.
  unfold nms_suppressed. rewrite nms_outer_length, repeat_length. reflexivity.
Qed.

Lemma nms_select dets thresh :
  nms dets thresh
  = select (fun s => (s =? 0)%Z) (nms_suppressed dets thresh) dets.
Proof.
  unfold nms, nms_keep.
  destruct dets as [|d ds]; [reflexivity|].
  change (length (d :: ds) =? 0)%nat with false. cbv iota.
  apply take_rows_select, nms_suppressed_length.
Qed.

(** C2 (as the code has it): for every detection array and every
    threshold, greedy NMS returns the surviving rows in the order they have
    in the input array (the rows whose [suppressed] flag is still 0, by
    ascending row index); it does not reorder them by score. *)
Theorem nms_keeps_input_order (dets : list det) (thresh : float) :
  nms dets thresh
  = select (fun s => (s =? 0)%Z) (nms_suppressed dets thresh) dets
  /\ subseq (nms dets thresh) dets.
Proof.
  split; [apply nms_select|].
  rewrite nms_select. apply select_subseq.
Qed.

(** C2, counterexample: two boxes far apart, the lower score first in the
    array.  Both survive and come back in input order, scores 0.5 then
    0.9, which is not descending. *)
Lemma nms_output_not_descending :
  let dets := [int_det (F32.lit 5 10) 0 0 10 10;
               int_det (F32.lit 9 10) 100 100 110 110] in
  nms dets (F32.lit 1 2) = dets
  /\ descending (map score (nms dets (F32.lit 1 2))) = false.
Proof. vm_compute. split; reflexivity. Qed.

(** ** Division in the overlap computations *)


Lemma nan_never_reaches (o thresh : float) :
  F32.is_nan o = true -> (o >=? thresh) = false.
Proof.
  destruct o; simpl; try discriminate. intros _. apply F32Facts.nan_geb.
Qed.




(** ** The guards of the mask encoder *)

Section MaskEncodeFacts.
Variable segm : Type.
Variable encode_samples :
  Z -> float -> ndarray -> ndarray -> list nat -> list (list float) ->
  outcome (list segm).

Lemma shape_eqb_refl (s : list nat) : shape_eqb s s = true.
Proof.
  induction s as [|n s IH]; simpl; auto. rewrite Nat.eqb_refl. exact IH.
Qed.

(** C9: [mask_encode] returns the empty list, and raises nothing, when the
    detection batch is the [(1, 1)] marker or an array with no rows (for a
    mask resolution that is not 0, which [scale] divides by). *)
Theorem mask_encode_empty_batch
  (results : encode_input) (resolution : Z) (thresh_binarize : float)
  (b : ndarray) :
  resolution <> 0%Z ->
  in_bboxes results = Some b ->
  shape b = [1%nat; 1%nat] \/ (exists rest, shape b = 0%nat :: rest) ->
  mask_encode encode_samples results resolution thresh_binarize = Ok [].
Proof.
  intros Hres Hb Hshape. unfold mask_encode.
  destruct (Z.eqb_spec resolution 0) as [|_]; [contradiction|].
  rewrite Hb. simpl.
  destruct Hshape as [Hm | [rest Hz]].
  - rewrite Hm. reflexivity.
  - rewrite Hz. simpl. unfold np_len. rewrite Hz. simpl.
    destruct rest as [|[|[|n]] [|m rest']]; reflexivity.
Qed.

(** C10: when [results['bbox'][0]] is [None] the call raises: the left
    operand [bboxes.shape == (1, 1)] is evaluated first and fails, so the
    test [bboxes is None] is reached only for a batch that is not [None]
    and can never yield the empty result for a [None] batch. *)
Theorem mask_encode_none_raises (results : encode_input) (resolution : Z)
  (thresh_binarize : float) :
  in_bboxes results = None ->
  mask_encode encode_samples results resolution thresh_binarize
  = Raise (if (resolution =? 0)%Z then ZeroDivisionError else AttributeError)
  /\ (forall shp, get_shape (in_bboxes results) = Ok shp ->
                  is_None (in_bboxes results) = false).
Proof.
  intros Hnone. split.
  - unfold mask_encode. rewrite Hnone.
    destruct (resolution =? 0)%Z; reflexivity.
  - rewrite Hnone. simpl. discriminate.
Qed.

End MaskEncodeFacts.

Lemma mask_encode_empty_batch_witness :
  mask_encode no_samples batch_marker 28 (F32.lit 1 2) = Ok []
  /\ mask_encode no_samples batch_empty 28 (F32.lit 1 2) = Ok [].
Proof.
  split.
  - apply (@mask_encode_empty_batch unit no_samples batch_marker 28
             (F32.lit 1 2) (mkArray [1%nat; 1%nat] [F32.opp F32.one])).
    + lia.
    + reflexivity.
    + left. reflexivity.
  - apply (@mask_encode_empty_batch unit no_samples batch_empty 28
             (F32.lit 1 2) (np_zeros [0%nat; 6%nat])).
    + lia.
    + reflexivity.
    + right. exists [6%nat]. reflexivity.
Defined.

Lemma mask_encode_none_raises_witness :
  mask_encode no_samples batch_none 28 (F32.lit 1 2) = Raise AttributeError.
Proof.
  apply (@mask_encode_none_raises unit no_samples batch_none 28 (F32.lit 1 2)).
  reflexivity.
Defined.

(** ** Multi-scale mask merge *)

Lemma collect_masks_all_invalid (M : nat) (result : list (string * ndarray)) :
  Forall (fun kv => is_mask_entry kv = true -> valid_mask (snd kv) = false) result ->
  collect_masks M result
  = repeat (np_zeros [0%nat; M; M]) (length (filter is_mask_entry result)).
Proof.
  induction 1 as [|[k masks] rest Hkv _ IH]; simpl; [reflexivity|].
  unfold is_mask_entry, valid_mask in *. simpl in *.
  destruct (contains "mask" k); simpl; [|exact IH].
  rewrite (Hkv eq_refl). simpl. rewrite IH. reflexivity.
Qed.

Lemma add_all_nil (rest : list (list float)) : add_all [] rest = [].
Proof. induction rest as [|a rest IH]; simpl; auto. Qed.

Lemma np_mean_empty_arrays (shp : list nat) (n : nat) :
  np_mean (repeat (mkArray shp []) (S n)) = Ok (Some (mkArray shp [])).
Proof.
  simpl.
  assert (Hall : forallb (fun b => shape_eqb (shape b) shp)
                   (repeat (mkArray shp []) n) = true).
  { induction n as [|n IH]; simpl; auto. rewrite shape_eqb_refl. exact IH. }
  rewrite Hall, add_all_nil. reflexivity.
Qed.

(** ** Broadcasting *)

Lemma broadcast_rev_refl (s : list nat) : broadcast_rev s s = Some s.
Proof.
  induction s as [|a s IH]; [reflexivity|].
  simpl. rewrite IH, Nat.eqb_refl. reflexivity.
Qed.

Lemma broadcast_rev_comm (s : list nat) :
  forall t, broadcast_rev s t = broadcast_rev t s.
Proof.
  induction s as [|a s IH]; intros [|b t]; try reflexivity.
  simpl. rewrite (IH t). destruct (broadcast_rev t s); [|reflexivity].
  destruct (Nat.eqb_spec a b) as [-> | Hab].
  - rewrite Nat.eqb_refl. reflexivity.
  - destruct (Nat.eqb_spec b a) as [Hba | _]; [congruence|].
    destruct (Nat.eqb_spec a 1) as [-> | Ha];
      destruct (Nat.eqb_spec b 1) as [-> | Hb]; congruence.
Qed.

(** What two shapes broadcast to absorbs both. *)
Lemma broadcast_rev_absorbs (s : list nat) :
  forall t r,
    broadcast_rev s t = Some r ->
    broadcast_rev r s = Some r /\ broadcast_rev r t = Some r.
Proof.
  induction s as [|a s IH]; intros t r H.
  - simpl in H. injection H as <-. split.
    + destruct t; reflexivity.
    + apply broadcast_rev_refl.
  - destruct t as [|b t].
    + simpl in H. injection H as <-. split.
      * apply broadcast_rev_refl.
      * reflexivity.
    + simpl in H. destruct (broadcast_rev s t) as [r'|] eqn:Hr; [|discriminate].
      destruct (IH t r' Hr) as [Hs Ht].
      destruct (Nat.eqb_spec a b) as [-> | Hab].
      * injection H as <-. simpl. rewrite Hs, Ht, Nat.eqb_refl. split; reflexivity.
      * destruct (Nat.eqb_spec a 1) as [-> | Ha].
        -- injection H as <-. simpl. rewrite Hs, Ht, Nat.eqb_refl.
           destruct (Nat.eqb_spec b 1); [congruence|]. split; reflexivity.
        -- destruct (Nat.eqb_spec b 1) as [-> | Hb]; [|discriminate].
           injection H as <-. simpl. rewrite Hs, Ht, Nat.eqb_refl.
           destruct (Nat.eqb_spec a 1); [congruence|]. split; reflexivity.
Qed.

Lemma broadcast_shapes_refl (s : list nat) : broadcast_shapes s s = Some s.
Proof.
  unfold broadcast_shapes. rewrite broadcast_rev_refl, rev_involutive.
  reflexivity.
Qed.

Lemma broadcast_shapes_comm (s t : list nat) :
  broadcast_shapes s t = broadcast_shapes t s.
Proof. unfold broadcast_shapes. rewrite broadcast_rev_comm. reflexivity. Qed.

Lemma broadcast_shapes_absorbs (s t r : list nat) :
  broadcast_shapes s t = Some r ->
  broadcast_shapes r s = Some r /\ broadcast_shapes r t = Some r.
Proof.
  unfold broadcast_shapes. intros H.
  destruct (broadcast_rev (rev s) (rev t)) as [r'|] eqn:Hr; [|discriminate].
  injection H as <-. rewrite rev_involutive.
  destruct (broadcast_rev_absorbs _ _ Hr) as [-> ->]. split; reflexivity.
Qed.

(** An array with an axis of length 0 has no index. *)
Lemma indices_empty (shp : list nat) : In 0%nat shp -> indices shp = [].
Proof.
  induction shp as [|n shp IH]; [contradiction|].
  intros [-> | Hin]; [reflexivity|].
  simpl. rewrite (IH Hin). induction (seq 0 n); simpl; auto.
Qed.

Lemma broadcast_rev_zero (s : list nat) :
  forall t r,
    In 0%nat t -> broadcast_rev s t = Some r -> In 0%nat r.
Proof.
  induction s as [|a s IH]; intros t r Hin H.
  - simpl in H. injection H as <-. exact Hin.
  - destruct t as [|b t]; [contradiction|].
    simpl in H. destruct (broadcast_rev s t) as [r'|] eqn:Hr; [|discriminate].
    destruct Hin as [-> | Hin].
    + destruct (Nat.eqb_spec a 0) as [-> | Ha].
      * injection H as <-. left. reflexivity.
      * destruct (Nat.eqb_spec a 1) as [_ | _]; [|discriminate].
        injection H as <-. left. reflexivity.
    + pose proof (IH t r' Hin Hr) as Hz.
      destruct (a =? b)%nat; [injection H as <-; right; exact Hz|].
      destruct (a =? 1)%nat; [injection H as <-; right; exact Hz|].
      destruct (b =? 1)%nat; [injection H as <-; right; exact Hz|].
      discriminate.
Qed.

Lemma broadcast_shapes_zero (s t r : list nat) :
  In 0%nat t -> broadcast_shapes s t = Some r -> In 0%nat r.
Proof.
  unfold broadcast_shapes. intros Hin H.
  destruct (broadcast_rev (rev s) (rev t)) as [r'|] eqn:Hr; [|discriminate].
  injection H as <-. apply in_rev. rewrite rev_involutive.
  apply (broadcast_rev_zero _ _ (proj1 (in_rev _ _) Hin) Hr).
Qed.

(** The sum of arrays has the shape they broadcast to, and no element
    when that shape has an axis of length 0. *)
Lemma sum_arrays_shape (rest : list ndarray) :
  forall acc,
    match broadcast_all (shape acc) (map shape rest) with
    | None => sum_arrays acc rest = Raise ValueError
    | Some shp =>
        exists r, sum_arrays acc rest = Ok r /\ shape r = shp
                  /\ (rest <> [] -> In 0%nat shp -> data r = [])
    end.
Proof.
  induction rest as [|b rest IH]; intros acc.
  - simpl. exists acc. split; [reflexivity|]. split; [reflexivity|].
    intros H. congruence.
  - cbn [map broadcast_all sum_arrays]. unfold np_add.
    destruct (broadcast_shapes (shape acc) (shape b)) as [r1|] eqn:Hb;
      [|reflexivity].
    cbn [bind].
    set (s := mkArray r1 _).
    specialize (IH s). change (shape s) with r1 in IH.
    destruct (broadcast_all r1 (map shape rest)) as [shp|] eqn:Hall;
      [|exact IH].
    destruct IH as [r [Hsum [Hshape Hdata]]].
    exists r. split; [exact Hsum|]. split; [exact Hshape|].
    intros _ Hz. destruct rest as [|b' rest'].
    + simpl in Hsum, Hall. injection Hsum as <-. injection Hall as <-.
      unfold s. cbn [data]. rewrite indices_empty by exact Hz. reflexivity.
    + apply Hdata; [discriminate | exact Hz].
Qed.

(** Shapes of two kinds, [S] and [Z], broadcast one after the other. *)
Section TwoShapes.
Variables S Z : list nat.
Variable o : option (list nat).
Hypothesis differ : S <> Z.
Hypothesis both : broadcast_shapes S Z = o.

Lemma broadcast_all_two (ts : list (list nat)) :
  Forall (fun t => t = S \/ t = Z) ts ->
  (In Z ts -> broadcast_all S ts = o)
  /\ (In S ts -> broadcast_all Z ts = o)
  /\ (forall B, o = Some B -> broadcast_all B ts = Some B).
Proof.
  induction 1 as [|t ts Ht _ [IH1 [IH2 IH3]]].
  - split; [contradiction|]. split; [contradiction|]. reflexivity.
  - split; [|split].
    + intros Hin. cbn [broadcast_all]. destruct Ht as [-> | ->].
      * rewrite broadcast_shapes_refl. apply IH1.
        destruct Hin as [Heq | Hin]; [congruence | exact Hin].
      * rewrite both. destruct o as [B|] eqn:Ho; [|reflexivity].
        apply IH3. reflexivity.
    + intros Hin. cbn [broadcast_all]. destruct Ht as [-> | ->].
      * rewrite broadcast_shapes_comm, both.
        destruct o as [B|] eqn:Ho; [|reflexivity].
        apply IH3. reflexivity.
      * rewrite broadcast_shapes_refl. apply IH2.
        destruct Hin as [Heq | Hin]; [congruence | exact Hin].
    + intros B HB. cbn [broadcast_all]. subst o.
      destruct (broadcast_shapes_absorbs _ _ HB) as [HS HZ].
      destruct Ht as [-> | ->]; [rewrite HS | rewrite HZ]; apply IH3;
        exact HB.
Qed.

End TwoShapes.

Lemma shape_eqb_eq (s : list nat) :
  forall t, shape_eqb s t = true -> s = t.
Proof.
  induction s as [|a s IH]; intros [|b t] H; simpl in H;
    try reflexivity; try discriminate.
  apply andb_true_iff in H. destruct H as [Hab Hst].
  apply Nat.eqb_eq in Hab. subst b. rewrite (IH t Hst). reflexivity.
Qed.

Lemma broadcast_tensor_substitute (n c h w M : nat) (shp : list nat) :
  broadcast_shapes [n; c; h; w] [0%nat; M; M] = Some shp ->
  exists c' h' w', shp = [n; c'; h'; w'].
Proof.
  unfold broadcast_shapes. cbn [rev app broadcast_rev].
  destruct (w =? M)%nat, (w =? 1)%nat, (M =? 1)%nat,
           (h =? M)%nat, (h =? 1)%nat,
           (c =? 0)%nat, (c =? 1)%nat, (0 =? 1)%nat;
    cbn [rev app]; intros H; try discriminate;
    injection H as <-; eauto.
Qed.

(** The mean of tensors of one shape [(n, c, h, w)], [n >= 1], and of
    empty substitutes [(0, M, M)], with at least one of each. *)
Lemma np_mean_mixed (arrays : list ndarray) (n c h w M : nat) :
  (1 <= n)%nat ->
  Forall (fun a => shape a = [n; c; h; w] \/ shape a = [0%nat; M; M]) arrays ->
  Exists (fun a => shape a = [n; c; h; w]) arrays ->
  Exists (fun a => shape a = [0%nat; M; M]) arrays ->
  np_mean arrays
  = match broadcast_shapes [n; c; h; w] [0%nat; M; M] with
    | Some shp => Ok (Some (mkArray shp []))
    | None => Raise ValueError
    end.
Proof.
  intros Hn Hkinds HS HZ.
  apply Exists_exists in HS. destruct HS as [aS [HinS HshS]].
  apply Exists_exists in HZ. destruct HZ as [aZ [HinZ HshZ]].
  destruct arrays as [|a rest]; [contradiction|].
  unfold np_mean.
  destruct (forallb (fun b => shape_eqb (shape b) (shape a)) rest) eqn:Hsame.
  { exfalso. rewrite forallb_forall in Hsame.
    assert (Hall : forall b, In b (a :: rest) -> shape b = shape a).
    { intros b [<- | Hb]; [reflexivity|]. apply shape_eqb_eq, Hsame, Hb. }
    pose proof (Hall aS HinS) as H1. pose proof (Hall aZ HinZ) as H2.
    rewrite HshS in H1. rewrite HshZ in H2. congruence. }
  destruct (same_first_axis (a :: rest)) eqn:Hfirst.
  { exfalso. unfold same_first_axis in Hfirst.
    destruct (shape a) as [|m sa] eqn:Hsa; [discriminate|].
    rewrite forallb_forall in Hfirst.
    assert (Hall : forall b, In b (a :: rest) -> exists t, shape b = m :: t).
    { intros b [<- | Hb]; [eauto|]. specialize (Hfirst b Hb).
      destruct (shape b) as [|m' t]; [discriminate|].
      apply Nat.eqb_eq in Hfirst. subst m'. eauto. }
    destruct (Hall aS HinS) as [t1 H1]. destruct (Hall aZ HinZ) as [t2 H2].
    rewrite HshS in H1. rewrite HshZ in H2.
    injection H1 as -> _. injection H2 as H0 _. lia. }
  inversion Hkinds as [|? ? Ha Hrest]; subst.
  assert (Hts : Forall (fun t => t = [n; c; h; w] \/ t = [0%nat; M; M])
                       (map shape rest)).
  { apply Forall_forall. intros t Ht. apply in_map_iff in Ht.
    destruct Ht as [b [<- Hb]]. rewrite Forall_forall in Hrest.
    apply Hrest, Hb. }
  assert (Hdiff : [n; c; h; w] <> [0%nat; M; M]) by discriminate.
  destruct (@broadcast_all_two _ _ _ Hdiff eq_refl _ Hts) as [H1 [H2 _]].
  assert (Hall : broadcast_all (shape a) (map shape rest)
                 = broadcast_shapes [n; c; h; w] [0%nat; M; M]).
  { destruct Ha as [Ha | Ha]; rewrite Ha.
    - apply H1. destruct HinZ as [<- | HinZ]; [congruence|].
      rewrite <- HshZ. apply in_map, HinZ.
    - apply H2. destruct HinS as [<- | HinS]; [congruence|].
      rewrite <- HshS. apply in_map, HinS. }
  pose proof (sum_arrays_shape rest a) as Hsum. rewrite Hall in Hsum.
  destruct (broadcast_shapes [n; c; h; w] [0%nat; M; M]) as [shp|] eqn:Hb.
  - destruct Hsum as [r [-> [Hshape Hdata]]]. cbn [bind].
    rewrite Hshape, Hdata; [reflexivity | | ].
    + intros ->. destruct HinS as [<- | []]. destruct HinZ as [<- | []].
      congruence.
    + apply (@broadcast_shapes_zero [n; c; h; w] [0%nat; M; M] shp);
        [left; reflexivity | exact Hb].
  - rewrite Hsum. reflexivity.
Qed.

Lemma collect_masks_appended (M : nat) (result : list (string * ndarray)) :
  collect_masks M result = map (appended M) (filter is_mask_entry result).
Proof.
  induction result as [|[k masks] rest IH]; simpl; [reflexivity|].
  unfold is_mask_entry at 1. cbn [fst].
  destruct (contains "mask" k); [|exact IH].
  cbn [map]. unfold appended at 1, valid_mask. cbn [fst snd].
  destruct (length (shape masks) =? 4)%nat; cbn [negb].
  - destruct (contains "flip" k); rewrite IH; reflexivity.
  - rewrite IH. reflexivity.
Qed.

(** C8 (as the code has it): a mask tensor that does not have four axes is
    replaced by the empty array [np.zeros((0, M, M))], which holds no map
    at all, whatever the number of boxes.  Beside tensors of four axes
    [(n, c, h, w)] with [n >= 1], the average is then no average of masks:
    the shapes are broadcast, which raises [ValueError] unless [c <= 1]
    and [h], [w] broadcast with [M], and otherwise gives an array with no
    element, reported with the length [n].  When every transform's tensor
    is replaced, the average is the empty array and the reported length is
    0. *)
Theorem mstest_mask_invalid_substitute
  (result : list (string * ndarray)) (M n c h w : nat) (shp : ndarray) :
  find (fun kv => String.eqb (fst kv) "im_shape") result
  = Some ("im_shape"%string, shp) ->
  (1 <= n)%nat ->
  Forall (fun kv => is_mask_entry kv = true -> valid_mask (snd kv) = true ->
                    shape (snd kv) = [n; c; h; w]) result ->
  Exists (fun kv => is_mask_entry kv = true /\ valid_mask (snd kv) = false)
         result ->
  collect_masks M result = map (appended M) (filter is_mask_entry result)
  /\ mstest_mask_post_process result M
     = if has_valid_mask result
       then match broadcast_shapes [n; c; h; w] [0%nat; M; M] with
            | Some merged => Ok (mkArray merged [], n)
            | None => Raise ValueError
            end
       else Ok (np_zeros [0%nat; M; M], 0%nat).
Proof.
  intros Hshape Hn Hvalid Hinvalid.
  split; [apply collect_masks_appended|].
  unfold mstest_mask_post_process. rewrite Hshape.
  apply Exists_exists in Hinvalid. destruct Hinvalid as [kz [Hkz [Hmz Hvz]]].
  destruct (has_valid_mask result) eqn:Hhas.
  - unfold has_valid_mask in Hhas. apply existsb_exists in Hhas.
    destruct Hhas as [ks [Hks Hs]]. apply andb_true_iff in Hs.
    destruct Hs as [Hms Hvs].
    rewrite collect_masks_appended.
    rewrite (@np_mean_mixed _ n c h w M Hn).
    + destruct (broadcast_shapes [n; c; h; w] [0%nat; M; M]) as [merged|] eqn:Hb;
        [|reflexivity].
      destruct (broadcast_tensor_substitute _ _ _ _ _ Hb) as [c' [h' [w' ->]]].
      reflexivity.
    + apply Forall_forall. intros a Ha. apply in_map_iff in Ha.
      destruct Ha as [kv [<- Hkv]]. apply filter_In in Hkv.
      destruct Hkv as [Hin Hm]. unfold appended.
      destruct (valid_mask (snd kv)) eqn:Hv; [left | right; reflexivity].
      rewrite Forall_forall in Hvalid.
      destruct (contains "flip" (fst kv)); apply (Hvalid kv Hin Hm Hv).
    + apply Exists_exists. exists (appended M ks). split.
      * apply in_map, filter_In. split; assumption.
      * unfold appended. rewrite Hvs. rewrite Forall_forall in Hvalid.
        destruct (contains "flip" (fst ks)); apply (Hvalid ks Hks Hms Hvs).
    + apply Exists_exists. exists (appended M kz). split.
      * apply in_map, filter_In. split; assumption.
      * unfold appended. rewrite Hvz. reflexivity.
  - assert (Hall : Forall (fun kv => is_mask_entry kv = true ->
                                     valid_mask (snd kv) = false) result).
    { apply Forall_forall. intros kv Hin Hm.
      destruct (valid_mask (snd kv)) eqn:Hv; [|reflexivity].
      unfold has_valid_mask in Hhas.
      assert (Hex : existsb (fun kv => is_mask_entry kv && valid_mask (snd kv))
                            result = true).
      { apply existsb_exists. exists kv. split; [exact Hin|].
        rewrite Hm, Hv. reflexivity. }
      congruence. }
    rewrite (collect_masks_all_invalid M Hall).
    assert (Hsome : In kz (filter is_mask_entry result))
      by (apply filter_In; split; assumption).
    destruct (filter is_mask_entry result) as [|kv l]; [contradiction|].
    change (np_zeros [0%nat; M; M]) with (mkArray [0%nat; M; M] []).
    simpl length. rewrite np_mean_empty_arrays. reflexivity.
Qed.

Lemma mstest_mask_invalid_substitute_witness :
  collect_masks 1 mixed_single_class
  = map (appended 1) (filter is_mask_entry mixed_single_class)
  /\ mstest_mask_post_process mixed_single_class 1
     = if has_valid_mask mixed_single_class
       then match broadcast_shapes [1; 1; 1; 1]%nat [0; 1; 1]%nat with
            | Some merged => Ok (mkArray merged [], 1%nat)
            | None => Raise ValueError
            end
       else Ok (np_zeros [0; 1; 1]%nat, 0%nat).
Proof.
  apply (@mstest_mask_invalid_substitute mixed_single_class 1 1 1 1 1
           (mkArray [1%nat; 3%nat] [F32.of_Z 480; F32.of_Z 640; F32.one])).
  - reflexivity.
  - lia.
  - repeat constructor; vm_compute; intros; congruence.
  - right. right. left. split; reflexivity.
Defined.

(** C8, counterexample: one detection, a valid tensor from the first
    transform and the marker from the flipped one.  The marker is replaced
    by an array of no rows rather than by one zero map for the box.  With
    two classes the shapes do not broadcast and the average raises; with
    one class it is an array of shape [(1, 0, 1, 1)], which holds no mask
    and is reported as one; with the marker for both transforms it is the
    empty array, reported as none. *)
Lemma mstest_mask_mixed_raises :
  map shape (collect_masks 1 mixed_masks)
  = [[1%nat; 2%nat; 1%nat; 1%nat]; [0%nat; 1%nat; 1%nat]]
  /\ mstest_mask_post_process mixed_masks 1 = Raise ValueError
  /\ mstest_mask_post_process mixed_single_class 1
     = Ok (mkArray [1%nat; 0%nat; 1%nat; 1%nat] [], 1%nat)
  /\ mstest_mask_post_process marker_masks 2
     = Ok (np_zeros [0%nat; 2%nat; 2%nat], 0%nat).
Proof. vm_compute. repeat split; reflexivity. Qed.

(** ** The flip transform *)

Section FlipFacts.
Variable w : float.

Lemma list_ind4 (P : list float -> Prop) :
  P [] -> (forall a, P [a]) -> (forall a b, P [a; b]) ->
  (forall a b c, P [a; b; c]) ->
  (forall a b c d rest, P rest -> P (a :: b :: c :: d :: rest)) ->
  forall l, P l.
Proof.
  intros H0 H1 H2 H3 H4.
  fix IH 1.
  intros [|a [|b [|c [|d rest]]]];
    [apply H0 | apply H1 | apply H2 | apply H3 | apply H4, IH].
Qed.

Lemma flippable_step a b c d rest :
  flippable (a :: b :: c :: d :: rest) <-> flippable rest.
Proof. unfold flippable. simpl. split; intros H; lia. Qed.

Lemma flip_row_flip4 (row : list float) :
  flippable row -> flip_row w row = Ok (flip4 w row).
Proof.
  unfold flip_row.
  induction row as [|a|a b|a b c|a b c d rest IH] using list_ind4;
    intros Hf; try reflexivity; try (unfold flippable in Hf; simpl in Hf; lia).
  apply flippable_step in Hf. specialize (IH Hf).
  unfold flippable in Hf.
  simpl. simpl in IH. rewrite Hf in *. rewrite Nat.eqb_refl in *.
  injection IH as IH. simpl. rewrite IH. reflexivity.
Qed.

Lemma flip4_flippable (row : list float) :
  flippable row -> flippable (flip4 w row).
Proof.
  induction row as [|a|a b|a b c|a b c d rest IH] using list_ind4;
    intros Hf; try exact Hf; try reflexivity.
  apply flippable_step in Hf. simpl. apply flippable_step. auto.
Qed.

Lemma flip4_twice (row : list float) :
  flippable row ->
  Forall (fun x => mirror w (mirror w x) = x) (xcoords row) ->
  flip4 w (flip4 w row) = row.
Proof.
  unfold xcoords.
  induction row as [|a|a b|a b c|a b c d rest IH] using list_ind4;
    intros Hf Hx; try reflexivity;
    try (unfold flippable in Hf; simpl in Hf; lia).
  - simpl in *. inversion Hx as [|? ? Ha Hx']; subst.
    inversion Hx' as [|? ? Hc _]; subst. rewrite Ha, Hc. reflexivity.
  - apply flippable_step in Hf. simpl in *.
    inversion Hx as [|? ? Ha Hx']; subst.
    apply Forall_app in Hx'. destruct Hx' as [H0 H2].
    inversion H2 as [|? ? Hc H2']; subst.
    rewrite Ha, Hc, IH; auto. apply Forall_app. split; assumption.
Qed.

Lemma flip_rows_flip4 (boxes : list (list float)) :
  Forall flippable boxes -> flip_rows w boxes = Ok (map (flip4 w) boxes).
Proof.
  induction 1 as [|row rest Hrow _ IH]; simpl; [reflexivity|].
  rewrite (flip_row_flip4 Hrow). simpl. rewrite IH. reflexivity.
Qed.

End FlipFacts.

(** On the pixel grid of a 640 pixel wide image the two mirrorings are
    exact: every integer coordinate from 0 to 639 comes back as it was. *)
Lemma mirror_twice_pixel_grid :
  forallb (fun k => same_float
                      (mirror (F32.of_Z 640)
                              (mirror (F32.of_Z 640) (F32.of_Z (Z.of_nat k))))
                      (F32.of_Z (Z.of_nat k)))
          (seq 0 640) = true.
Proof. vm_compute. reflexivity. Qed.

(** C7 (as the code has it): for a box array whose rows [box_flip]
    accepts, flipping twice returns the original array exactly whenever
    each x-coordinate [x] survives the two subtractions,
    [w - (w - x - 1) - 1 = x] in binary32; the other columns are never
    touched.  The two subtractions round, so the equation is not true of
    every coordinate. *)
Theorem box_flip_twice_exact
  (boxes : list (list float)) (h w : float) (more : list float)
  (others : list (list float)) :
  Forall flippable boxes ->
  Forall (fun row =>
            Forall (fun x => mirror w (mirror w x) = x) (xcoords row)) boxes ->
  flip_twice boxes ((h :: w :: more) :: others) = Ok boxes.
Proof.
  intros Hf Hx. unfold flip_twice, box_flip.
  rewrite (flip_rows_flip4 w Hf). simpl.
  rewrite flip_rows_flip4.
  - f_equal. rewrite map_map.
    rewrite <- (map_id boxes) at 2. apply map_ext_in.
    intros row Hin. rewrite Forall_forall in Hf, Hx.
    apply flip4_twice; auto.
  - apply Forall_forall. intros row Hin. apply in_map_iff in Hin.
    destruct Hin as [row' [<- Hin']]. rewrite Forall_forall in Hf.
    apply flip4_flippable; auto.
Qed.

Lemma box_flip_twice_exact_witness :
  flip_twice box_int shape_480_640 = Ok box_int.
Proof.
  apply (@box_flip_twice_exact box_int (F32.of_Z 480) (F32.of_Z 640)
           [F32.one] []).
  - repeat constructor.
  - repeat constructor; vm_compute; reflexivity.
Defined.

(** C7, counterexample: in a 640 pixel wide image the box with
    [x1 = 10.3] comes back from two flips with [x1 = 10.29998779296875]
    ([640 - 10.3] is rounded to the spacing of binary32 near 630). *)
Lemma box_flip_twice_not_exact :
  flip_twice box_10_3 shape_480_640
  = Ok [[S754_finite false 10800320 (-20); F32.of_Z 20; F32.lit 2005 10;
         F32.of_Z 80]]
  /\ F32.lit 103 10 = S754_finite false 10800333 (-20)
  /\ F32.eqb (S754_finite false 10800320 (-20)) (F32.lit 103 10) = false.
Proof. vm_compute. repeat split; reflexivity. Qed.

(** ** Box voting *)

Lemma where_from_none {A : Type} (p : A -> bool) (l : list A) :
  forall start, Forall (fun x => p x = false) l -> where_from p start l = [].
Proof.
  induction l as [|x xs IH]; intros start H; simpl; [reflexivity|].
  inversion H as [|? ? Hx Hxs]; subst. rewrite Hx. apply IH, Hxs.
Qed.

Lemma below_threshold (o bound thresh : float) :
  (o <=? bound) = true -> (bound <? thresh) = true -> (o >=? thresh) = false.
Proof.
  intros Ho Hb. unfold F32.geb.
  destruct (F32.leb thresh o) eqn:Hto; [|reflexivity].
  pose proof (F32Facts.leb_trans _ _ _ Hto Ho) as Hcontra.
  rewrite (F32Facts.ltb_not_leb _ _ Hb) in Hcontra. discriminate.
Qed.

Lemma vote_row_no_votes dets vote_thresh top ovr_k :
  Forall (fun o => (o >=? vote_thresh) = false) ovr_k ->
  vote_row dets vote_thresh top ovr_k = Raise ZeroDivisionError.
Proof.
  intros H. unfold vote_row, np_where.
  rewrite (where_from_none _ 0 H). reflexivity.
Qed.

(** C6 (as the code has it): the threshold, a Python float, is compared
    with the [float32] overlaps at its [float32] value.  When that value
    is above 1 no candidate is voted for, the surviving box itself
    included, since no IoU exceeds 1; the weights then sum to zero and
    [np.average] raises [ZeroDivisionError] at the first survivor, so
    [box_voting] is not the identity there: it returns only when there is
    no survivor at all.  A threshold above 1 that rounds to 1 in
    [float32] is the threshold 1. *)
Theorem box_voting_above_one
  (nms_dets dets : list det) (vote_thresh : F64.float) :
  ((F32.one <? F64.to_f32 vote_thresh) = true ->
   Forall (Forall (fun o => (o <=? F32.one) = true))
          (bbox_overlaps (map det_box nms_dets) (map det_box dets)) ->
   box_voting_py nms_dets dets vote_thresh
   = match nms_dets with
     | [] => Ok []
     | _ :: _ => Raise ZeroDivisionError
     end)
  /\ (F64.to_f32 vote_thresh = F32.one ->
      box_voting_py nms_dets dets vote_thresh
      = box_voting nms_dets dets F32.one).
Proof.
  split.
  - intros Hthresh Hle. unfold box_voting_py, box_voting.
    destruct nms_dets as [|top rest]; [reflexivity|].
    simpl in *. inversion Hle as [|row rows Hrow _]; subst.
    rewrite vote_row_no_votes; [reflexivity|].
    eapply Forall_impl; [|exact Hrow].
    intros o Ho. simpl in Ho. eapply below_threshold; eauto.
  - intros Hone. unfold box_voting_py. rewrite Hone. reflexivity.
Qed.

Lemma box_voting_above_one_witness :
  box_voting_py (nms two_boxes (F32.lit 1 2)) two_boxes one_and_half
  = Raise ZeroDivisionError
  /\ box_voting_py (nms two_boxes (F32.lit 1 2)) two_boxes barely_above_one
     = box_voting (nms two_boxes (F32.lit 1 2)) two_boxes F32.one.
Proof.
  split.
  - apply (proj1 (box_voting_above_one
                    [int_det (F32.lit 9 10) 0 0 10 10] two_boxes
                    one_and_half)).
    + vm_compute. reflexivity.
    + repeat constructor; vm_compute; reflexivity.
  - apply (proj2 (box_voting_above_one
                    (nms two_boxes (F32.lit 1 2)) two_boxes
                    barely_above_one)).
    vm_compute. reflexivity.
Defined.

(** C6, counterexample: the survivor of the two-box scenario voted on
    with threshold 1.5.  Its own IoU is exactly 1, below the threshold, so
    nothing is voted for and the call raises instead of returning the
    survivor.  With the threshold 1 + 1e-9, which is 1 in [float32], the
    survivor votes for itself and comes back as it was. *)
Lemma box_voting_above_one_raises :
  nms two_boxes (F32.lit 1 2) = [int_det (F32.lit 9 10) 0 0 10 10]
  /\ bbox_overlaps [det_box (int_det (F32.lit 9 10) 0 0 10 10)]
                   [det_box (int_det (F32.lit 9 10) 0 0 10 10)]
     = [[F32.one]]
  /\ (F32.one >=? F64.to_f32 one_and_half) = false
  /\ box_voting_py (nms two_boxes (F32.lit 1 2)) two_boxes one_and_half
     = Raise ZeroDivisionError
  /\ F64.to_f32 barely_above_one = F32.one
  /\ box_voting_py (nms two_boxes (F32.lit 1 2)) two_boxes barely_above_one
     = Ok [int_det (F32.lit 9 10) 0 0 10 10].
Proof. vm_compute. repeat split; reflexivity. Qed.

(** ** Sorting *)

Section SortFacts.
Context {A : Type}.
Variable key : A -> float.

Abbreviation key_le := (key_le key).
Abbreviation key_ok := (key_ok key).

Lemma insert_sorted_perm (x : A) (l : list A) :
  Permutation (insert_sorted key x l) (x :: l).
Proof.
  induction l as [|h t IH]; simpl; [reflexivity|].
  destruct (npy_lt (key h) (key x)); [|reflexivity].
  rewrite IH. apply perm_swap.
Qed.

Lemma sort_by_perm (l : list A) : Permutation (sort_by key l) l.
Proof.
  induction l as [|x l IH]; simpl; [reflexivity|].
  rewrite insert_sorted_perm. constructor. exact IH.
Qed.

Lemma npy_lt_false (a b : A) :
  key_ok a -> key_ok b -> npy_lt (key a) (key b) = false -> key_le b a.
Proof.
  unfold key_ok, key_le, npy_lt. intros Ha Hb H.
  apply orb_false_iff in H. destruct H as [H _].
  destruct (F32Facts.leb_total (key a) (key b) Ha Hb) as [Hab | Hba]; auto.
  rewrite F32Facts.ltb_spec, Hab in H. simpl in H.
  apply negb_false_iff in H. exact H.
Qed.

Lemma npy_lt_true (a b : A) :
  key_ok a -> key_ok b -> npy_lt (key a) (key b) = true -> key_le a b.
Proof.
  unfold key_ok, key_le, npy_lt. intros Ha Hb H.
  rewrite Hb in H. simpl in H. rewrite orb_false_r in H.
  apply F32Facts.ltb_leb, H.
Qed.

Lemma insert_sorted_sorted (x : A) (l : list A) :
  key_ok x -> Forall key_ok l ->
  StronglySorted key_le l -> StronglySorted key_le (insert_sorted key x l).
Proof.
  intros Hx Hl Hs. induction Hs as [|h t Hs IH Hh]; simpl.
  - repeat constructor.
  - inversion Hl as [|? ? Hkh Hkt]; subst.
    destruct (npy_lt (key h) (key x)) eqn:Hlt.
    + constructor; [apply IH, Hkt|].
      apply (Permutation_Forall (Permutation_sym (insert_sorted_perm x t))).
      constructor; [apply npy_lt_true; assumption | exact Hh].
    + pose proof (npy_lt_false Hkh Hx Hlt) as Hxh.
      constructor; [constructor; assumption|].
      constructor; [exact Hxh|].
      eapply Forall_impl; [|exact Hh].
      intros a Ha. unfold key_le in *. eapply F32Facts.leb_trans; eauto.
Qed.

Lemma sort_by_sorted (l : list A) :
  Forall key_ok l -> StronglySorted key_le (sort_by key l).
Proof.
  induction 1 as [|x l Hx Hl IH]; simpl; [constructor|].
  apply insert_sorted_sorted; auto.
  apply (Permutation_Forall (Permutation_sym (sort_by_perm l))). exact Hl.
Qed.

Lemma sorted_split (l1 : list A) (x : A) (l2 : list A) :
  StronglySorted key_le (l1 ++ x :: l2) ->
  Forall (fun a => key_le a x) l1 /\ Forall (key_le x) l2.
Proof.
  induction l1 as [|h t IH]; simpl; intros Hs; inversion Hs as [|? ? Hs' Hh]; subst.
  - split; [constructor | exact Hh].
  - destruct (IH Hs') as [H1 H2]. split; [|exact H2].
    constructor; [|exact H1].
    apply Forall_app in Hh. destruct Hh as [_ Hh].
    inversion Hh; assumption.
Qed.

End SortFacts.

(** ** The global cap *)

Lemma filter_length_perm {A : Type} (p : A -> bool) (l l' : list A) :
  Permutation l l' -> length (filter p l) = length (filter p l').
Proof.
  induction 1 as [|x l l' _ IH|x y l|l l' l'' _ IH1 _ IH2]; simpl.
  - reflexivity.
  - destruct (p x); simpl; congruence.
  - destruct (p x), (p y); reflexivity.
  - congruence.
Qed.

Lemma filter_all {A : Type} (p : A -> bool) (l : list A) :
  Forall (fun a => p a = true) l -> filter p l = l.
Proof.
  induction 1 as [|x l Hx _ IH]; simpl; [reflexivity|].
  rewrite Hx, IH. reflexivity.
Qed.

Lemma filter_none {A : Type} (p : A -> bool) (l : list A) :
  Forall (fun a => p a = false) l -> filter p l = [].
Proof.
  induction 1 as [|x l Hx _ IH]; simpl; [reflexivity|].
  rewrite Hx, IH. reflexivity.
Qed.

Lemma filter_map_length {A B : Type} (f : A -> B) (p : B -> bool) (l : list A) :
  length (filter (fun a => p (f a)) l) = length (filter p (map f l)).
Proof.
  induction l as [|x l IH]; simpl; [reflexivity|].
  destruct (p (f x)); simpl; congruence.
Qed.

Lemma kept_length (t : float) (cls_boxes : list (list ldet)) :
  length (concat (map (filter (fun d => lscore d >=? t)) cls_boxes))
  = count_ge t (pooled_scores cls_boxes).
Proof.
  unfold count_ge, pooled_scores.
  induction cls_boxes as [|c cs IH]; simpl; [reflexivity|].
  rewrite length_app, filter_app, length_app, IH.
  f_equal. apply (filter_map_length lscore (fun s => s >=? t)).
Qed.

Lemma geb_split (s t : float) :
  F32.is_nan s = false -> F32.is_nan t = false ->
  (s >=? t) = (s >? t) || F32.eqb s t.
Proof.
  intros Hs Ht. unfold F32.geb, F32.gtb.
  rewrite F32Facts.ltb_spec, F32Facts.eqb_leb.
  destruct (F32Facts.leb_total s t Hs Ht) as [H | H]; rewrite H;
    destruct (F32.leb t s), (F32.leb s t); try reflexivity; discriminate.
Qed.

Lemma count_ge_le (t : float) (l : list float) :
  Forall (fun s => F32.is_nan s = false) l -> F32.is_nan t = false ->
  (count_ge t l <= count_gt t l + count_eq t l)%nat.
Proof.
  unfold count_ge, count_gt, count_eq. intros Hl Ht.
  induction Hl as [|s l Hs _ IH]; simpl; [lia|].
  rewrite (geb_split s t Hs Ht).
  destruct (s >? t), (F32.eqb s t); simpl; lia.
Qed.

(** The counts around the element at position [length l1] of an ascending
    list. *)
Lemma sorted_counts (l1 l2 : list float) (t : float) :
  F32.is_nan t = false ->
  StronglySorted (key_le (fun x => x)) (l1 ++ t :: l2) ->
  (S (length l2) <= count_ge t (l1 ++ t :: l2))%nat
  /\ (count_gt t (l1 ++ t :: l2) <= length l2)%nat
  /\ count_gt t l1 = 0%nat.
Proof.
  intros Ht Hs. destruct (sorted_split _ _ _ Hs) as [H1 H2].
  unfold count_ge, count_gt, key_le in *.
  assert (Hgt1 : filter (fun s => s >? t) l1 = []).
  { apply filter_none. eapply Forall_impl; [|exact H1].
    intros a Ha. simpl in Ha. unfold F32.gtb.
    destruct (F32.ltb t a) eqn:Hlt; [|reflexivity].
    rewrite (F32Facts.ltb_not_leb _ _ Hlt) in Ha. discriminate. }
  assert (Hge2 : filter (fun s => s >=? t) l2 = l2).
  { apply filter_all. exact H2. }
  rewrite !filter_app, !length_app. simpl.
  rewrite Hgt1, Hge2.
  unfold F32.geb at 2. rewrite (F32Facts.leb_refl t Ht).
  unfold F32.gtb at 1. rewrite F32Facts.ltb_spec, (F32Facts.leb_refl t Ht).
  simpl. repeat split; try lia.
  pose proof (filter_length_le (fun s => s >? t) l2). lia.
Qed.

Lemma py_index_from_end {A : Type} (l : list A) (K : Z) :
  (1 <= K <= Z.of_nat (length l))%Z ->
  py_index l (- K) = match nth_error l (length l - Z.to_nat K) with
                     | Some v => Ok v
                     | None => Raise IndexError
                     end.
Proof.
  intros HK. unfold py_index.
  destruct (Z.ltb_spec (- K) 0); [|lia].
  destruct (Z.leb_spec 0 (- K + Z.of_nat (length l))); [|lia].
  destruct (Z.ltb_spec (- K + Z.of_nat (length l)) (Z.of_nat (length l))); [|lia].
  simpl. replace (Z.to_nat (- K + Z.of_nat (length l)))
    with (length l - Z.to_nat K)%nat by lia.
  reflexivity.
Qed.

(** C1: when the pooled number of surviving detections exceeds
    [detections_per_im = K] (a rank, [K >= 1]; scores are numbers, not
    NaN), the cap computes the [K]-th highest pooled score [t] and keeps,
    class by class and in order, exactly the detections whose score is at
    least [t].  Hence at least [K] detections are kept, and exactly [K]
    when no other detection shares the score [t]. *)
Theorem global_cap_keeps_kth_highest (cls_boxes : list (list ldet)) (K : Z) :
  Forall (fun s => F32.is_nan s = false) (pooled_scores cls_boxes) ->
  (1 <= K < Z.of_nat (length (pooled_scores cls_boxes)))%Z ->
  exists (t : float) (out : list ldet),
    kth_highest (Z.to_nat K) (pooled_scores cls_boxes) t
    /\ limit_per_image K cls_boxes = Ok out
    /\ out = concat (map (filter (fun d => lscore d >=? t)) cls_boxes)
    /\ (Z.to_nat K <= length out)%nat
    /\ (count_eq t (pooled_scores cls_boxes) = 1%nat ->
        length out = Z.to_nat K).
Proof.
  intros Hnan HK.
  set (pool := pooled_scores cls_boxes) in *.
  assert (Hperm : Permutation (np_sort pool) pool)
    by apply sort_by_perm.
  pose proof (Permutation_length Hperm) as Hlen.
  assert (Hsorted : StronglySorted (key_le (fun x => x)) (np_sort pool))
    by (apply sort_by_sorted; exact Hnan).
  destruct (nth_error (np_sort pool) (length (np_sort pool) - Z.to_nat K))
    as [t|] eqn:Hnth.
  2: { exfalso. apply nth_error_None in Hnth. lia. }
  destruct (nth_error_split _ _ Hnth) as [l1 [l2 [Hsplit Hl1]]].
  assert (Hl2 : S (length l2) = Z.to_nat K).
  { pose proof (f_equal (@length float) Hsplit) as Hsum.
    rewrite length_app in Hsum. simpl in Hsum. lia. }
  assert (Hin : In t pool).
  { apply (Permutation_in t Hperm). rewrite Hsplit.
    apply in_or_app. right. left. reflexivity. }
  assert (Ht : F32.is_nan t = false).
  { rewrite Forall_forall in Hnan. apply Hnan, Hin. }
  rewrite Hsplit in Hsorted.
  destruct (@sorted_counts l1 l2 t Ht Hsorted) as [Hge [Hgt Hgt1]].
  assert (Hcge : count_ge t pool = count_ge t (l1 ++ t :: l2)).
  { unfold count_ge. rewrite <- Hsplit. symmetry.
    apply filter_length_perm, Hperm. }
  assert (Hcgt : count_gt t pool = count_gt t (l1 ++ t :: l2)).
  { unfold count_gt. rewrite <- Hsplit. symmetry.
    apply filter_length_perm, Hperm. }
  exists t, (concat (map (filter (fun d => lscore d >=? t)) cls_boxes)).
  split; [|split; [|split; [|split]]].
  - split; [exact Hin|]. split; lia.
  - unfold limit_per_image.
    destruct cls_boxes as [|c cs]; [simpl in HK; lia|].
    fold (pooled_scores (c :: cs)). fold pool.
    destruct (Z.gtb_spec (Z.of_nat (length pool)) K); [|lia].
    rewrite py_index_from_end by lia. rewrite Hnth. cbn [bind].
    do 2 f_equal. apply map_ext. intros c'. apply take_rows_filter.
  - reflexivity.
  - rewrite kept_length. fold pool. lia.
  - intros Heq. rewrite kept_length. fold pool.
    pose proof (@count_ge_le t pool Hnan Ht) as Hle.
    assert (count_gt t pool <= length l2)%nat by lia.
    lia.
Qed.

Lemma global_cap_keeps_kth_highest_witness :
  exists (t : float) (out : list ldet),
    kth_highest 2 (pooled_scores three_classes) t
    /\ limit_per_image 2 three_classes = Ok out
    /\ out = concat (map (filter (fun d => lscore d >=? t)) three_classes)
    /\ (2 <= length out)%nat
    /\ (count_eq t (pooled_scores three_classes) = 1%nat ->
        length out = 2%nat).
Proof.
  apply (@global_cap_keeps_kth_highest three_classes 2).
  - repeat constructor.
  - split; [lia | vm_compute; reflexivity].
Defined.

(** The cap at work: with [K = 2] the cutoff is 0.7 and two detections
    remain; with [K = 0] the index [-0] reads the lowest score and every
    detection is kept. *)
Lemma global_cap_examples :
  limit_per_image 2 three_classes
  = Ok [ld 1 (F32.lit 9 10); ld 2 (F32.lit 7 10)]
  /\ limit_per_image 0 three_classes = Ok (concat three_classes).
Proof. vm_compute. split; reflexivity. Qed.

(** ** Signs *)

Lemma binary_round_aux_sign (sx : bool) (mx ex : Z) (lx : location) :
  let r := binary_round_aux F32.prec F32.emax sx mx ex lx in
  F32.is_nan r = true \/ F32.sign r = sx.
Proof.
  cbv zeta. unfold binary_round_aux.
  destruct (shr_fexp F32.prec F32.emax mx ex lx) as [mrs' e'].
  destruct (shr_fexp F32.prec F32.emax _ e' loc_Exact) as [mrs'' e''].
  destruct (shr_m mrs'') as [|m|m]; simpl; auto.
  destruct (e'' <=? _)%Z; simpl; auto.
Qed.

Lemma np_exp_sign (x : float) : F32.sign (np_exp x) = false.
Proof.
  unfold np_exp, Exp.np_exp.
  destruct x as [s|[|]| |s m e]; try reflexivity.
  destruct (128 <=? Z.shiftl (Z.pos m) e)%Z; [destruct s; reflexivity|].
  destruct (Exp.exp_fx s m e) as [|v|v]; try reflexivity.
  unfold binary_round.
  destruct (shl_align v (- Exp.P) _) as [mz ez].
  destruct (binary_round_aux_sign false (Z.pos mz) ez loc_Exact) as [H | H];
    [|exact H].
  destruct (binary_round_aux _ _ _ _ _ _); simpl in *; try discriminate;
    reflexivity.
Qed.

Lemma minus_one_times (w : float) :
  F32.sign w = false ->
  F32.is_nan (F32.opp F32.one * w) = true \/ F32.sign (F32.opp F32.one * w) = true.
Proof.
  change (F32.opp F32.one) with (S754_finite true 8388608 (-23)).
  destruct w as [s|s| |s m e]; simpl; intros Hs; subst; auto.
  apply (binary_round_aux_sign true).
Qed.

Lemma negative_below_positive (r thres : float) :
  F32.is_nan r = true \/ F32.sign r = true ->
  (F32.zero <? thres) = true ->
  (r >=? thres) = false.
Proof.
  intros [Hr | Hr] Ht.
  - apply nan_never_reaches, Hr.
  - destruct r as [s|s| |s m e]; simpl in Hr; subst;
      destruct thres as [[|]|[|]| |[|] mt et]; try discriminate; reflexivity.
Qed.

(** ** The maximum *)

Lemma argmax_from_range (l : list float) :
  forall mp best i,
    argmax_from mp best i l = best
    \/ (i <= argmax_from mp best i l < i + length l)%nat.
Proof.
  induction l as [|x t IH]; intros mp best i; simpl; auto.
  destruct (F32.is_nan mp); auto.
  destruct (negb (F32.leb x mp)).
  - destruct (IH x i (S i)) as [-> | H]; right; lia.
  - destruct (IH mp best (S i)) as [-> | H]; [left; reflexivity | right; lia].
Qed.

Lemma argmax_in_range (l : list float) :
  l <> [] -> (argmax l < length l)%nat.
Proof.
  destruct l as [|x t]; [congruence|]. intros _. simpl.
  destruct (argmax_from_range t x 0 1) as [-> | H]; lia.
Qed.

Lemma argmax_from_max (d : float) (l : list float) :
  forall mp best i pre,
    length pre = i -> (best < i)%nat -> nth best pre d = mp ->
    F32.is_nan mp = false ->
    Forall (fun x => F32.is_nan x = false) l ->
    Forall (fun x => F32.leb x mp = true) pre ->
    Forall (fun x => F32.leb x (nth (argmax_from mp best i l) (pre ++ l) d) = true)
           (pre ++ l).
Proof.
  induction l as [|x t IH]; intros mp best i pre Hlen Hbest Hnth Hmp Hl Hpre.
  - simpl. rewrite app_nil_r, Hnth. exact Hpre.
  - apply Forall_cons_iff in Hl. destruct Hl as [Hx Ht]. simpl. rewrite Hmp.
    replace (pre ++ x :: t) with ((pre ++ [x]) ++ t)
      by (rewrite <- app_assoc; reflexivity).
    destruct (F32.leb x mp) eqn:Hle; simpl.
    + apply (IH mp best (S i) (pre ++ [x])).
      * rewrite length_app. simpl. lia.
      * lia.
      * rewrite app_nth1 by lia. exact Hnth.
      * exact Hmp.
      * exact Ht.
      * apply Forall_app. split; [exact Hpre | constructor; auto].
    + assert (Hmx : F32.leb mp x = true).
      { destruct (F32Facts.leb_total mp x Hmp Hx); congruence. }
      apply (IH x i (S i) (pre ++ [x])).
      * rewrite length_app. simpl. lia.
      * lia.
      * rewrite app_nth2 by lia.
        replace (i - length pre)%nat with 0%nat by lia. reflexivity.
      * exact Hx.
      * exact Ht.
      * apply Forall_app. split.
        -- eapply Forall_impl; [|exact Hpre]. intros a Ha. simpl in Ha.
           eapply F32Facts.leb_trans; eauto.
        -- constructor; [apply F32Facts.leb_refl, Hx | constructor].
Qed.

Lemma argmax_is_max (d : float) (l : list float) :
  Forall (fun x => F32.is_nan x = false) l ->
  Forall (fun x => F32.leb x (nth (argmax l) l d) = true) l.
Proof.
  destruct l as [|x t]; [constructor|].
  intros Hl. inversion Hl as [|? ? Hx Ht]; subst.
  apply (argmax_from_max d (l := t) (pre := [x])); auto.
  constructor; [apply F32Facts.leb_refl, Hx | constructor].
Qed.

Lemma argmax_from_stays (l : list float) :
  forall mp best i,
    F32.is_nan mp = false ->
    Forall (fun x => F32.leb x mp = true) l ->
    argmax_from mp best i l = best.
Proof.
  induction l as [|x t IH]; intros mp best i Hmp Hl; simpl; [reflexivity|].
  inversion Hl as [|? ? Hx Ht]; subst.
  rewrite Hmp, Hx. simpl. apply IH; assumption.
Qed.

Lemma descending_head (x : float) (t : list float) :
  descending (x :: t) = true ->
  Forall (fun y => F32.leb y x = true) t.
Proof.
  revert x; induction t as [|y t IH]; intros x H; [constructor|].
  simpl in H. apply andb_true_iff in H. destruct H as [Hxy Ht].
  constructor; [exact Hxy|].
  eapply Forall_impl; [|apply (IH y Ht)].
  intros a Ha. simpl in Ha. unfold F32.geb in Hxy.
  eapply F32Facts.leb_trans; eauto.
Qed.

Lemma argmax_descending (l : list float) :
  Forall (fun x => F32.is_nan x = false) l ->
  descending l = true -> argmax l = 0%nat.
Proof.
  destruct l as [|x t]; [reflexivity|].
  intros Hl Hd. inversion Hl; subst.
  apply argmax_from_stays; auto using descending_head.
Qed.

(** ** Rounding to binary32 *)

Section RoundingFacts.
Local Open Scope Z_scope.

(** * Rounding to binary32 *)

Lemma fexp_eq (e : Z) : fexp F32.prec F32.emax e = Z.max (e - 24) (-149).
Proof. reflexivity. Qed.

Lemma digits_pos (m : positive) : 1 <= digits m.
Proof. unfold digits. lia. Qed.

Lemma digits_bounds (m : positive) :
  2 ^ (digits m - 1) <= Zpos m < 2 ^ digits m.
Proof.
  unfold digits. induction m as [m IH | m IH |]; cbn [digits2_pos].
  - rewrite Pos2Z.inj_succ.
    replace (Z.succ (Zpos (digits2_pos m)) - 1) with (Z.succ (Zpos (digits2_pos m) - 1)) by lia.
    rewrite !Z.pow_succ_r by lia. lia.
  - rewrite Pos2Z.inj_succ.
    replace (Z.succ (Zpos (digits2_pos m)) - 1) with (Z.succ (Zpos (digits2_pos m) - 1)) by lia.
    rewrite !Z.pow_succ_r by lia. lia.
  - simpl. lia.
Qed.

Lemma digits_unique (m : positive) (n : Z) :
  2 ^ (n - 1) <= Zpos m < 2 ^ n -> digits m = n.
Proof.
  intros [Hlo Hhi]. pose proof (digits_bounds m) as [Dlo Dhi].
  pose proof (digits_pos m) as Hd.
  assert (Hn : 0 < n).
  { destruct (Z.lt_ge_cases 0 n); [assumption|].
    assert (2 ^ n <= 2 ^ 0) by (apply Z.pow_le_mono_r; lia).
    simpl in *. lia. }
  destruct (Z.lt_trichotomy (digits m) n) as [Hlt | [Heq | Hgt]]; [|exact Heq|].
  - assert (2 ^ digits m <= 2 ^ (n - 1)) by (apply Z.pow_le_mono_r; lia). lia.
  - assert (2 ^ n <= 2 ^ (digits m - 1)) by (apply Z.pow_le_mono_r; lia). lia.
Qed.

Lemma canonical_digits (m : positive) (e : Z) :
  canonical m e -> digits m <= 24 /\ -149 <= e /\ (-149 < e -> digits m = 24).
Proof. unfold canonical. rewrite fexp_eq. lia. Qed.

(** Canonical numbers compare as their exponents, then their mantissas. *)
Lemma canonical_order (b : Z) (m1 : positive) (e1 : Z) (m2 : positive) (e2 : Z) :
  canonical m1 e1 -> canonical m2 e2 -> b <= e1 -> b <= e2 ->
  vle b (Zpos m1) e1 (Zpos m2) e2 ->
  e1 < e2 \/ (e1 = e2 /\ (m1 <= m2)%positive).
Proof.
  intros C1 C2 B1 B2 H. unfold vle in H.
  destruct (canonical_digits C1) as [D1 [E1 N1]].
  destruct (canonical_digits C2) as [D2 [E2 N2]].
  assert (Hp : 0 < 2 ^ (e2 - b)) by (apply Z.pow_pos_nonneg; lia).
  destruct (Z.lt_trichotomy e1 e2) as [Hlt | [Heq | Hgt]]; [left; exact Hlt| |].
  - right. split; [exact Heq|]. subst e2.
    apply Z.mul_le_mono_pos_r in H; [lia | exact Hp].
  - exfalso.
    replace (e1 - b) with ((e1 - e2) + (e2 - b)) in H by lia.
    rewrite Z.pow_add_r, Z.mul_assoc in H by lia.
    apply Z.mul_le_mono_pos_r in H; [|exact Hp].
    pose proof (digits_bounds m1) as [L1 _]. rewrite N1 in L1 by lia.
    pose proof (digits_bounds m2) as [_ U2].
    assert (U2' : Zpos m2 < 2 ^ 24).
    { eapply Z.lt_le_trans; [exact U2|]. apply Z.pow_le_mono_r; lia. }
    assert (P : 2 ^ 1 <= 2 ^ (e1 - e2)) by (apply Z.pow_le_mono_r; lia).
    change (2 ^ 1) with 2 in P. change (2 ^ (24 - 1)) with 8388608 in L1.
    change (2 ^ 24) with 16777216 in U2'.
    revert H P. generalize (2 ^ (e1 - e2)). intros X H P.
    assert (8388608 * 2 <= Zpos m1 * X) by (apply Z.mul_le_mono_nonneg; lia).
    lia.
Qed.

Lemma canonical_leb (m1 : positive) (e1 : Z) (m2 : positive) (e2 : Z) :
  e1 < e2 \/ (e1 = e2 /\ (m1 <= m2)%positive) ->
  SFleb (S754_finite false m1 e1) (S754_finite false m2 e2) = true.
Proof.
  intros H. unfold SFleb, SFcompare.
  destruct H as [Hlt | [-> Hm]].
  - rewrite (proj2 (Z.compare_lt_iff e1 e2) Hlt). reflexivity.
  - rewrite Z.compare_refl. rewrite Pos.compare_cont_spec. simpl.
    unfold Pos.le in Hm. destruct (m1 ?= m2)%positive; try reflexivity.
    congruence.
Qed.

(** ** Shifting a mantissa right *)

Lemma shr_1_fields (q : Z) (r s : bool) :
  0 <= q ->
  shr_m (shr_1 (Build_shr_record q r s)) = q / 2
  /\ shr_r (shr_1 (Build_shr_record q r s)) = Z.odd q
  /\ shr_s (shr_1 (Build_shr_record q r s)) = r || s.
Proof.
  intros Hq. rewrite <- Z.div2_div.
  destruct q as [|[q|q|]|q]; try lia; simpl; auto.
Qed.

Lemma multiple_mod (m j t : Z) : 0 <= j -> m = 2 ^ j * t -> m mod 2 ^ j = 0.
Proof.
  intros Hj ->. rewrite Z.mul_comm. apply Z.mod_mul.
  apply Z.pow_nonzero; lia.
Qed.

Lemma shr_1_inv (m j : Z) (r : shr_record) :
  0 <= m -> 0 <= j -> shr_inv m j r -> shr_inv m (j + 1) (shr_1 r).
Proof.
  intros Hm Hj [Hq Hin]. destruct r as [q r s]. cbn [shr_m] in Hq.
  assert (Hp : 0 < 2 ^ j) by (apply Z.pow_pos_nonneg; lia).
  assert (Hq0 : 0 <= q) by (subst q; apply Z.div_pos; lia).
  destruct (shr_1_fields r s Hq0) as [Fm [Fr Fs]].
  assert (Hpow : 2 ^ (j + 1) = 2 ^ j * 2)
    by (rewrite Z.pow_add_r by lia; reflexivity).
  split.
  - rewrite Fm, Hq, Hpow. apply Z.div_div; lia.
  - unfold inexact. rewrite Fr, Fs. intros Hbits Hmod.
    apply Z.mod_divide in Hmod; [|lia]. destruct Hmod as [t Ht].
    rewrite Hpow in Ht.
    apply orb_true_iff in Hbits. destruct Hbits as [Hodd | Hold].
    + assert (Hq2 : q = 2 * t).
      { rewrite Hq, Ht.
        replace (t * (2 ^ j * 2)) with (2 * t * 2 ^ j) by ring.
        apply Z.div_mul. lia. }
      rewrite Hq2, Z.odd_mul in Hodd. discriminate.
    + apply (Hin Hold). apply (@multiple_mod m j (2 * t)); [lia|].
      rewrite Ht. ring.
Qed.

Lemma shr_iter_inv (m : Z) (p : positive) :
  0 <= m ->
  forall j r,
    0 <= j -> shr_inv m j r -> shr_inv m (j + Zpos p) (iter_pos shr_1 p r).
Proof.
  intros Hm. induction p as [p IH | p IH |]; intros j r Hj H; cbn [iter_pos].
  - replace (j + Zpos p~1) with (j + 1 + Zpos p + Zpos p) by lia.
    apply IH; [lia|]. apply IH; [lia|]. apply shr_1_inv; assumption.
  - replace (j + Zpos p~0) with (j + Zpos p + Zpos p) by lia.
    apply IH; [lia|]. apply IH; assumption.
  - apply shr_1_inv; assumption.
Qed.

(** Shifting an exact mantissa right by [k > 0] and rounding to nearest:
    the quotient or its successor, and the successor only when the
    division leaves a remainder. *)
Lemma shr_round (m : Z) (p : positive) :
  0 <= m ->
  let r := iter_pos shr_1 p (shr_record_of_loc m loc_Exact) in
  let q := m / 2 ^ Zpos p in
  let m1 := round_nearest_even (shr_m r) (loc_of_shr_record r) in
  (m1 = q \/ (m1 = q + 1 /\ q * 2 ^ Zpos p < m)).
Proof.
  intros Hm. cbv zeta.
  destruct (@shr_iter_inv m p Hm 0 (shr_record_of_loc m loc_Exact)) as [Hq Hin].
  - lia.
  - split; [simpl; rewrite Z.div_1_r; reflexivity | discriminate].
  - rewrite Z.add_0_l in Hq, Hin.
    set (r := iter_pos shr_1 p _) in *.
    assert (Hp : 0 < 2 ^ Zpos p) by (apply Z.pow_pos_nonneg; lia).
    assert (Hup : inexact r = true -> (m / 2 ^ Zpos p) * 2 ^ Zpos p < m).
    { intros Hi. specialize (Hin Hi).
      pose proof (Z.mod_pos_bound m (2 ^ Zpos p) Hp).
      pose proof (Z.div_mod m (2 ^ Zpos p)). lia. }
    rewrite <- Hq in *.
    destruct r as [q [|] [|]]; cbn [shr_m loc_of_shr_record round_nearest_even] in *.
    + right. split; [reflexivity | apply Hup; reflexivity].
    + destruct (Z.even q); [left; reflexivity|].
      right. split; [reflexivity | apply Hup; reflexivity].
    + left. reflexivity.
    + left. reflexivity.
Qed.

(** ** The second alignment, after the rounding *)

Lemma second_stage (m1 e1 : Z) :
  -149 <= e1 -> 0 <= m1 <= 2 ^ 24 -> (-149 < e1 -> 2 ^ 23 <= m1) ->
  let '(mrs, e2) := shr_fexp F32.prec F32.emax m1 e1 loc_Exact in
  (m1 = 0 /\ shr_m mrs = 0)
  \/ (exists mf, shr_m mrs = Zpos mf /\ canonical mf e2 /\ e1 <= e2
                 /\ Zpos mf * 2 ^ (e2 - e1) = m1).
Proof.
  intros He Hm Hnormal. unfold shr_fexp.
  destruct m1 as [|pm|pm]; [| |lia].
  - cbn [Zdigits2]. rewrite Z.add_0_l, fexp_eq.
    replace (Z.max (e1 - 24) (-149) - e1) with (Z.max (-24) (-149 - e1)) by lia.
    unfold shr.
    destruct (Z.max (-24) (-149 - e1)) eqn:Hk; try lia; left; simpl; auto.
  - cbn [Zdigits2]. fold (digits pm).
    destruct (Z.eq_dec (Zpos pm) (2 ^ 24)) as [Heq | Hne].
    + assert (Hpm : pm = 16777216%positive) by (change (2 ^ 24) with 16777216 in Heq; lia).
      subst pm. change (digits 16777216) with 25. rewrite fexp_eq.
      replace (Z.max (25 + e1 - 24) (-149) - e1) with 1 by lia.
      simpl. right. exists 8388608%positive. split; [reflexivity|].
      split; [|split; [lia|]].
      * unfold canonical. change (digits 8388608) with 24. rewrite fexp_eq. lia.
      * replace (e1 + 1 - e1) with 1 by lia. reflexivity.
    + assert (Hlt : Zpos pm < 2 ^ 24) by lia.
      assert (Hd : digits pm <= 24).
      { pose proof (digits_bounds pm) as [Lo _].
        destruct (Z.le_gt_cases (digits pm) 24) as [|Hgt]; [assumption|].
        assert (2 ^ 24 <= 2 ^ (digits pm - 1)) by (apply Z.pow_le_mono_r; lia).
        lia. }
      assert (Hfexp : fexp F32.prec F32.emax (digits pm + e1) = e1).
      { rewrite fexp_eq. destruct (Z.eq_dec e1 (-149)) as [-> | Hn].
        - lia.
        - rewrite (@digits_unique pm 24); [lia|].
          split; [apply Hnormal; lia | exact Hlt]. }
      rewrite Hfexp, Z.sub_diag. simpl. right. exists pm.
      split; [reflexivity|]. split; [exact Hfexp|]. split; [lia|].
      rewrite Z.sub_diag. simpl. lia.
Qed.

(** ** What rounding returns *)

Lemma quotient_bounds (mx : positive) (k : Z) :
  0 <= k -> digits mx - 24 <= k ->
  0 <= Zpos mx / 2 ^ k < 2 ^ 24
  /\ (k = digits mx - 24 -> 2 ^ 23 <= Zpos mx / 2 ^ k).
Proof.
  intros Hk Hd. pose proof (digits_bounds mx) as [Lo Hi].
  assert (Hp : 0 < 2 ^ k) by (apply Z.pow_pos_nonneg; lia).
  split; [split|].
  - apply Z.div_pos; lia.
  - apply Z.div_lt_upper_bound; [exact Hp|].
    rewrite <- Z.pow_add_r by lia.
    eapply Z.lt_le_trans; [exact Hi|]. apply Z.pow_le_mono_r; lia.
  - intros ->. apply Z.div_le_lower_bound; [exact Hp|].
    rewrite <- Z.pow_add_r by lia.
    replace (digits mx - 24 + 23) with (digits mx - 1) by lia. exact Lo.
Qed.

Lemma round_shape (mx : positive) (ex : Z) :
  aligned mx ex ->
  let e1 := fexp F32.prec F32.emax (digits mx + ex) in
  let q := Zpos mx / 2 ^ (e1 - ex) in
  exists m1,
    (m1 = q \/ (m1 = q + 1 /\ q * 2 ^ (e1 - ex) < Zpos mx))
    /\ ((m1 = 0
         /\ binary_round_aux F32.prec F32.emax false (Zpos mx) ex loc_Exact
            = S754_zero false)
        \/ exists mf ef,
             canonical mf ef /\ e1 <= ef /\ Zpos mf * 2 ^ (ef - e1) = m1
             /\ binary_round_aux F32.prec F32.emax false (Zpos mx) ex loc_Exact
                = finite_or_inf mf ef).
Proof.
  intros Hal. cbv zeta. unfold aligned in Hal.
  set (e1 := fexp F32.prec F32.emax (digits mx + ex)) in *.
  assert (He1 : -149 <= e1 /\ digits mx + ex - 24 <= e1
                /\ (-149 < e1 -> e1 = digits mx + ex - 24))
    by (unfold e1; rewrite fexp_eq; lia).
  destruct He1 as [Hmin [Hge Hnorm]].
  destruct (@quotient_bounds mx (e1 - ex)) as [[Q0 Q1] Q2]; [lia | lia |].
  set (q := Zpos mx / 2 ^ (e1 - ex)) in *.
  assert (Hfirst : exists m1,
            (m1 = q \/ (m1 = q + 1 /\ q * 2 ^ (e1 - ex) < Zpos mx))
            /\ (let '(mrs, e') := shr_fexp F32.prec F32.emax (Zpos mx) ex loc_Exact in
                round_nearest_even (shr_m mrs) (loc_of_shr_record mrs) = m1
                /\ e' = e1)).
  { unfold shr_fexp. cbn [Zdigits2]. fold (digits mx). fold e1. unfold shr.
    destruct (e1 - ex) as [|p|p] eqn:Hk; [| |lia].
    - exists q. split; [left; reflexivity|]. cbn.
      unfold q. rewrite Z.div_1_r. split; [reflexivity | lia].
    - pose proof (@shr_round (Zpos mx) p) as Hr. cbv zeta in Hr.
      specialize (Hr ltac:(lia)). fold q in Hr.
      eexists. split; [exact Hr|]. split; [reflexivity | lia]. }
  destruct Hfirst as [m1 [Hm1 Hshr]].
  exists m1. split; [exact Hm1|].
  unfold binary_round_aux.
  destruct (shr_fexp F32.prec F32.emax (Zpos mx) ex loc_Exact) as [mrs e'].
  destruct Hshr as [Hround ->]. rewrite Hround.
  assert (Hb : 0 <= m1 <= 2 ^ 24) by (destruct Hm1 as [-> | [-> _]]; lia).
  assert (Hn : -149 < e1 -> 2 ^ 23 <= m1).
  { intros Hgt. specialize (Q2 ltac:(lia)).
    destruct Hm1 as [-> | [-> _]]; lia. }
  pose proof (@second_stage m1 e1 Hmin Hb Hn) as H2.
  destruct (shr_fexp F32.prec F32.emax m1 e1 loc_Exact) as [mrs2 e2].
  destruct H2 as [[Hz Hm] | [mf [Hm [Hc [Hle Hval]]]]].
  - left. rewrite Hm. split; [exact Hz | reflexivity].
  - right. exists mf, e2. rewrite Hm.
    split; [exact Hc|]. split; [exact Hle|]. split; [exact Hval|]. reflexivity.
Qed.

Lemma round_valid (mx : positive) (ex : Z) :
  aligned mx ex ->
  valid_binary F32.prec F32.emax
    (binary_round_aux F32.prec F32.emax false (Zpos mx) ex loc_Exact) = true.
Proof.
  intros Hal. destruct (round_shape Hal) as [m1 [_ [[_ ->] | H]]];
    [reflexivity|].
  destruct H as [mf [ef [Hc [_ [_ ->]]]]]. unfold finite_or_inf.
  destruct (Z.leb_spec ef 104) as [Hle | _]; [|reflexivity].
  cbn [valid_binary]. unfold bounded, canonical_mantissa.
  unfold canonical, digits in Hc. rewrite Hc, Z.eqb_refl.
  apply Z.leb_le. exact Hle.
Qed.

(** Rounding to nearest does not pass a binary32 number that the exact
    value does not pass. *)
Lemma round_le (b : Z) (mx : positive) (ex : Z) (mg : positive) (eg : Z) :
  aligned mx ex -> canonical mg eg -> eg <= 104 ->
  b <= ex -> b <= eg ->
  vle b (Zpos mx) ex (Zpos mg) eg ->
  SFleb (binary_round_aux F32.prec F32.emax false (Zpos mx) ex loc_Exact)
        (S754_finite false mg eg) = true.
Proof.
  intros Hal Cg Hmax Bx Bg H.
  destruct (round_shape Hal) as [m1 [Hm1 [[_ ->] | Hr]]]; [reflexivity|].
  destruct Hr as [mf [ef [Cf [Hle [Hval ->]]]]].
  unfold aligned in Hal.
  set (e1 := fexp F32.prec F32.emax (digits mx + ex)) in *.
  set (q := Zpos mx / 2 ^ (e1 - ex)) in *.
  assert (He1 : -149 <= e1 /\ digits mx + ex - 24 <= e1
                /\ (-149 < e1 -> e1 = digits mx + ex - 24))
    by (unfold e1; rewrite fexp_eq; lia).
  destruct He1 as [Hmin [Hge Hnorm]].
  destruct (@quotient_bounds mx (e1 - ex)) as [[Q0 Q1] Q2]; [lia | lia |].
  fold q in Q0, Q1, Q2.
  assert (Pk : 0 < 2 ^ (e1 - ex)) by (apply Z.pow_pos_nonneg; lia).
  assert (Px : 0 < 2 ^ (ex - b)) by (apply Z.pow_pos_nonneg; lia).
  assert (Hq : q * 2 ^ (e1 - ex) <= Zpos mx).
  { unfold q. rewrite Z.mul_comm. apply Z.mul_div_le. exact Pk. }
  assert (Hsplit : 2 ^ (e1 - b) = 2 ^ (e1 - ex) * 2 ^ (ex - b)).
  { rewrite <- Z.pow_add_r by lia. f_equal. lia. }
  unfold vle in H.
  assert (Hm1g : m1 * 2 ^ (e1 - b) <= Zpos mg * 2 ^ (eg - b)).
  { destruct Hm1 as [-> | [-> Hlt]].
    - rewrite Hsplit, Z.mul_assoc.
      eapply Z.le_trans; [|exact H].
      apply Z.mul_le_mono_nonneg_r; lia.
    - destruct (Z.le_gt_cases e1 eg) as [Hge1 | Hlt1].
      + assert (Hg : 2 ^ (eg - b) = 2 ^ (eg - e1) * 2 ^ (e1 - b)).
        { rewrite <- Z.pow_add_r by lia. f_equal. lia. }
        rewrite Hg, Z.mul_assoc in *.
        assert (P1 : 0 < 2 ^ (e1 - b)) by (apply Z.pow_pos_nonneg; lia).
        apply Z.mul_le_mono_nonneg_r; [lia|].
        set (G := Zpos mg * 2 ^ (eg - e1)) in *.
        rewrite Hsplit, Z.mul_assoc in H.
        apply Z.mul_le_mono_pos_r in H; [|exact Px].
        assert (q * 2 ^ (e1 - ex) < G * 2 ^ (e1 - ex)) by lia.
        assert (q < G) by (apply Z.mul_lt_mono_pos_r in H0; assumption).
        lia.
      + exfalso.
        destruct (canonical_digits Cg) as [Dg [Eg _]].
        specialize (Q2 ltac:(lia)).
        pose proof (digits_bounds mg) as [_ Ug].
        assert (Ug' : Zpos mg < 2 ^ 24).
        { eapply Z.lt_le_trans; [exact Ug|]. apply Z.pow_le_mono_r; lia. }
        assert (Pg : 0 < 2 ^ (eg - b)) by (apply Z.pow_pos_nonneg; lia).
        assert (Hstep : 2 ^ (e1 - b) = 2 ^ (e1 - eg) * 2 ^ (eg - b)).
        { rewrite <- Z.pow_add_r by lia. f_equal. lia. }
        assert (P2 : 2 ^ 1 <= 2 ^ (e1 - eg)) by (apply Z.pow_le_mono_r; lia).
        change (2 ^ 1) with 2 in P2.
        assert (Hx : q * 2 ^ (e1 - b) < Zpos mx * 2 ^ (ex - b)).
        { rewrite Hsplit, Z.mul_assoc. apply Z.mul_lt_mono_pos_r; assumption. }
        rewrite Hstep, Z.mul_assoc in Hx.
        assert (Hxg : q * 2 ^ (e1 - eg) * 2 ^ (eg - b) < Zpos mg * 2 ^ (eg - b))
          by lia.
        apply Z.mul_lt_mono_pos_r in Hxg; [|exact Pg].
        change (2 ^ 23) with 8388608 in Q2.
        change (2 ^ 24) with 16777216 in Ug'.
        revert Hxg P2. generalize (2 ^ (e1 - eg)). intros X Hxg P2.
        assert (8388608 * 2 <= q * X) by (apply Z.mul_le_mono_nonneg; lia).
        lia. }
  assert (Hfg : vle b (Zpos mf) ef (Zpos mg) eg).
  { unfold vle.
    replace (ef - b) with ((ef - e1) + (e1 - b)) by lia.
    rewrite Z.pow_add_r, Z.mul_assoc, Hval by lia. exact Hm1g. }
  assert (Bf : b <= ef) by lia.
  destruct (@canonical_order b mf ef mg eg Cf Cg Bf Bg Hfg) as [Hlt | [Heq Hm]].
  - unfold finite_or_inf. rewrite (proj2 (Z.leb_le ef 104)) by lia.
    apply canonical_leb. left. exact Hlt.
  - unfold finite_or_inf. rewrite (proj2 (Z.leb_le ef 104)) by lia.
    apply canonical_leb. right. split; assumption.
Qed.

(** ** Multiplying by a weight between 0 and 1 *)

Lemma valid_canonical (s : bool) (m : positive) (e : Z) :
  valid_binary F32.prec F32.emax (S754_finite s m e) = true ->
  canonical m e /\ e <= 104.
Proof.
  cbn [valid_binary]. unfold bounded, canonical_mantissa. intros H.
  apply andb_true_iff in H. destruct H as [Hc He].
  apply Z.eqb_eq in Hc. apply Z.leb_le in He. split; assumption.
Qed.

(** A canonical number that is at most 1. *)
Lemma at_most_one (m : positive) (e : Z) :
  canonical m e ->
  SFleb (S754_finite false m e) F32.one = true ->
  e < 0 /\ Zpos m <= 2 ^ (- e).
Proof.
  intros C H. destruct (canonical_digits C) as [D [E N]].
  pose proof (digits_bounds m) as [_ U].
  assert (U' : Zpos m < 2 ^ 24).
  { eapply Z.lt_le_trans; [exact U|]. apply Z.pow_le_mono_r; lia. }
  change F32.one with (S754_finite false 8388608 (-23)) in H.
  unfold SFleb, SFcompare in H.
  destruct (Z.compare_spec e (-23)) as [-> | Hlt | Hgt]; [| |discriminate].
  - split; [lia|]. rewrite Pos.compare_cont_spec in H. simpl in H.
    change (2 ^ (- -23)) with 8388608.
    destruct (Pos.compare_spec m 8388608); try discriminate; lia.
  - split; [lia|].
    assert (2 ^ 24 <= 2 ^ (- e)) by (apply Z.pow_le_mono_r; lia). lia.
Qed.

Lemma product_digits (a b : positive) :
  digits a + digits b - 1 <= digits (a * b).
Proof.
  pose proof (digits_bounds a) as [La _]. pose proof (digits_bounds b) as [Lb _].
  pose proof (digits_bounds (a * b)) as [_ U].
  pose proof (digits_pos a). pose proof (digits_pos b).
  rewrite Pos2Z.inj_mul in U.
  assert (Hp : 2 ^ (digits a - 1) * 2 ^ (digits b - 1) <= Zpos a * Zpos b).
  { apply Z.mul_le_mono_nonneg; try assumption; apply Z.pow_nonneg; lia. }
  rewrite <- Z.pow_add_r in Hp by lia.
  destruct (Z.le_gt_cases (digits a + digits b - 1) (digits (a * b)));
    [assumption|].
  assert (2 ^ digits (a * b) <= 2 ^ (digits a - 1 + (digits b - 1)))
    by (apply Z.pow_le_mono_r; lia).
  lia.
Qed.

(** A positive binary32 number times a binary32 weight in (0, 1]: the
    rounded product is a binary32 number that is at most the number. *)
Lemma mul_weight (ms : positive) (es : Z) (mw : positive) (ew : Z) :
  valid_binary F32.prec F32.emax (S754_finite false ms es) = true ->
  valid_binary F32.prec F32.emax (S754_finite false mw ew) = true ->
  SFleb (S754_finite false mw ew) F32.one = true ->
  let r := SFmul F32.prec F32.emax (S754_finite false ms es) (S754_finite false mw ew) in
  valid_binary F32.prec F32.emax r = true
  /\ SFleb r (S754_finite false ms es) = true.
Proof.
  intros Vs Vw Hw. cbv zeta. cbn [SFmul xorb].
  destruct (valid_canonical _ _ _ Vs) as [Cs Es].
  destruct (valid_canonical _ _ _ Vw) as [Cw _].
  destruct (at_most_one Cw Hw) as [Hneg Hmw].
  assert (Hal : aligned (ms * mw) (es + ew)).
  { unfold aligned. rewrite fexp_eq.
    pose proof (product_digits ms mw).
    destruct (canonical_digits Cs) as [Ds [Ms Ns]].
    pose proof (digits_pos mw).
    destruct (Z.eq_dec es (-149)); [lia|].
    rewrite Ns in * by lia. lia. }
  split; [apply round_valid, Hal|].
  apply (@round_le (es + ew)); try assumption; try lia.
  unfold vle. rewrite Z.sub_diag, Z.pow_0_r, Z.mul_1_r, Pos2Z.inj_mul.
  replace (es - (es + ew)) with (- ew) by lia.
  apply Z.mul_le_mono_nonneg_l; lia.
Qed.

(** ** The exponential of a number that is not positive *)

Section ExpBound.
Variable B : Z.
Hypothesis B_pos : 0 < B.
Variable y : Z.
Hypothesis y_range : - B <= y <= 0.

(** One term of the series from the one before: the sign alternates and
    the size does not grow. *)
Lemma next_term (t i : Z) :
  1 <= i ->
  (0 <= t -> - t <= t * y / B / i <= 0)
  /\ (t <= 0 -> 0 <= t * y / B / i <= - t).
Proof.
  intros Hi. split; intros Ht.
  - assert (H1 : - t <= t * y / B <= 0).
    { split.
      - apply Z.div_le_lower_bound; [exact B_pos|]. nia.
      - apply Z.div_le_upper_bound; [exact B_pos|]. nia. }
    split.
    + apply Z.div_le_lower_bound; [lia|]. nia.
    + apply Z.div_le_upper_bound; [lia|]. nia.
  - assert (H1 : 0 <= t * y / B <= - t).
    { split.
      - apply Z.div_le_lower_bound; [exact B_pos|]. nia.
      - apply Z.div_le_upper_bound; [exact B_pos|]. nia. }
    split.
    + apply Z.div_le_lower_bound; [lia|]. nia.
    + apply Z.div_le_upper_bound; [lia|]. nia.
Qed.

End ExpBound.

Lemma fx_mul_div (a b : Z) : Exp.fx_mul a b = a * b / 2 ^ Exp.P.
Proof. unfold Exp.fx_mul. apply Z.shiftr_div_pow2. unfold Exp.P. lia. Qed.

Lemma series_step (n : nat) (i term acc y : Z) :
  Exp.series (S n) i term acc y
  = Exp.series n (i + 1) (Exp.fx_mul term y / i)
      (acc + Exp.fx_mul term y / i) y.
Proof. reflexivity. Qed.

(** The partial sums stay between [1 + y] and 1 (scaled by [2^P]). *)
Lemma series_range (y : Z) (n : nat) :
  - 2 ^ Exp.P <= y <= 0 ->
  forall i term acc,
    1 <= i ->
    2 ^ Exp.P + y <= acc <= 2 ^ Exp.P ->
    2 ^ Exp.P + y <= acc - term <= 2 ^ Exp.P ->
    2 ^ Exp.P + y <= Exp.series n i term acc y <= 2 ^ Exp.P.
Proof.
  intros Hy. assert (HB : 0 < 2 ^ Exp.P) by (apply Z.pow_pos_nonneg; unfold Exp.P; lia).
  induction n as [|n IH]; intros i term acc Hi Ha Hd;
    [exact Ha|].
  rewrite series_step, fx_mul_div.
  destruct (next_term HB Hy term Hi) as [Hpos Hneg].
  set (t' := term * y / 2 ^ Exp.P / i) in *.
  apply IH; [lia | |].
  - destruct (Z.le_ge_cases 0 term) as [Ht | Ht]; [specialize (Hpos Ht) | specialize (Hneg Ht)]; lia.
  - replace (acc + t' - t') with acc by lia. exact Ha.
Qed.

Lemma squarings_range (j : nat) :
  forall v, 0 <= v <= 2 ^ Exp.P -> 0 <= Exp.squarings j v <= 2 ^ Exp.P.
Proof.
  assert (HB : 0 < 2 ^ Exp.P) by (apply Z.pow_pos_nonneg; unfold Exp.P; lia).
  induction j as [|j IH]; intros v Hv; cbn [Exp.squarings]; [exact Hv|].
  apply IH. rewrite fx_mul_div. split.
  - apply Z.div_le_lower_bound; [exact HB|]. nia.
  - apply Z.div_le_upper_bound; [exact HB|]. nia.
Qed.

(** The scaled argument of a negative number below 128 in size. *)
Lemma scaled_argument (m : positive) (e : Z) :
  (128 <=? Z.shiftl (Z.pos m) e) = false ->
  - 2 ^ Exp.P <= Z.shiftl (Z.neg m) (e + Exp.P - 8) <= 0.
Proof.
  intros H. apply Z.leb_gt in H. unfold Exp.P.
  assert (Hm : (e < 0 /\ Z.pos m < 2 ^ 7 * 2 ^ (- e)) \/ (0 <= e /\ Z.pos m * 2 ^ e < 2 ^ 7)).
  { destruct (Z.le_gt_cases 0 e) as [He | He].
    - right. rewrite Z.shiftl_mul_pow2 in H by lia. split; [exact He|exact H].
    - left. split; [lia|]. rewrite Z.shiftl_div_pow2 in H by lia.
      assert (Hp : 0 < 2 ^ (- e)) by (apply Z.pow_pos_nonneg; lia).
      destruct (Z.lt_ge_cases (Z.pos m) (2 ^ (- e) * 128)) as [Hlt | Hge];
        [change 128 with (2 ^ 7) in Hlt; lia|].
      apply Z.div_le_lower_bound in Hge; [lia | exact Hp]. }
  destruct (Z.le_gt_cases 0 (e + 256 - 8)) as [Hs | Hs].
  - rewrite Z.shiftl_mul_pow2 by lia.
    assert (Hp : 0 < 2 ^ (e + 256 - 8)) by (apply Z.pow_pos_nonneg; lia).
    split; [|nia].
    destruct Hm as [[He Hm] | [He Hm]].
    + assert (Hq : 0 < 2 ^ (- e)) by (apply Z.pow_pos_nonneg; lia).
      assert (Hx : 2 ^ 7 * 2 ^ (- e) * 2 ^ (e + 256 - 8) = 2 ^ 255).
      { rewrite <- (Z.pow_add_r 2 7 (- e)) by lia.
        rewrite <- (Z.pow_add_r 2 (7 + - e) (e + 256 - 8)) by lia.
        f_equal. lia. }
      assert (Hd : 2 ^ 256 = 2 * 2 ^ 255) by reflexivity.
      assert (Hz : 0 < 2 ^ 255) by (apply Z.pow_pos_nonneg; lia).
      rewrite Hd. generalize dependent (2 ^ 255). intros. nia.
    + replace (e + 256 - 8) with (e + 248) in * by lia.
      rewrite Z.pow_add_r by lia.
      assert (Hq : 0 < 2 ^ e) by (apply Z.pow_pos_nonneg; lia).
      change (2 ^ 256) with (2 ^ 8 * 2 ^ 248).
      assert (0 < 2 ^ 248) by (apply Z.pow_pos_nonneg; lia).
      nia.
  - rewrite Z.shiftl_div_pow2 by lia.
    assert (Hp : 0 < 2 ^ (- (e + 256 - 8))) by (apply Z.pow_pos_nonneg; lia).
    destruct Hm as [[He Hm] | [He Hm]]; [|lia].
    split.
    + apply Z.div_le_lower_bound; [exact Hp|].
      assert (Hx : 2 ^ (- (e + 256 - 8)) * 2 ^ 256 = 2 ^ 8 * 2 ^ (- e)).
      { rewrite <- (Z.pow_add_r 2 (- (e + 256 - 8)) 256) by lia.
        rewrite <- (Z.pow_add_r 2 8 (- e)) by lia.
        f_equal. lia. }
      assert (Hq : 0 < 2 ^ (- e)) by (apply Z.pow_pos_nonneg; lia).
      nia.
    + apply Z.div_le_upper_bound; [exact Hp|]. lia.
Qed.

Lemma exp_fx_range (m : positive) (e : Z) :
  (128 <=? Z.shiftl (Z.pos m) e) = false ->
  0 <= Exp.exp_fx true m e <= 2 ^ Exp.P.
Proof.
  intros H. pose proof (scaled_argument m e H) as Hy.
  unfold Exp.exp_fx. cbv zeta.
  set (y := Z.shiftl (Z.neg m) (e + Exp.P - 8)) in *.
  assert (HB : 0 < 2 ^ Exp.P) by (apply Z.pow_pos_nonneg; unfold Exp.P; lia).
  assert (Hone : Z.shiftl 1 Exp.P = 2 ^ Exp.P).
  { rewrite Z.shiftl_mul_pow2 by (unfold Exp.P; lia). lia. }
  rewrite Hone. apply squarings_range.
  rewrite (series_step 47). rewrite fx_mul_div.
  assert (Hq : 2 ^ Exp.P * y / 2 ^ Exp.P / 1 = y).
  { rewrite Z.div_1_r, Z.mul_comm. apply Z.div_mul. lia. }
  rewrite Hq.
  assert (Hs : 2 ^ Exp.P + y <= Exp.series 47 (1 + 1) y (2 ^ Exp.P + y) y <= 2 ^ Exp.P).
  { apply series_range; [exact Hy | lia | lia |].
    replace (2 ^ Exp.P + y - y) with (2 ^ Exp.P) by lia. lia. }
  lia.
Qed.

Lemma round_fixed_point (v : positive) :
  binary_round F32.prec F32.emax false v (- Exp.P)
  = binary_round_aux F32.prec F32.emax false (Zpos v) (- Exp.P) loc_Exact
  /\ aligned v (- Exp.P).
Proof.
  change (- Exp.P) with (-256).
  unfold binary_round, shl_align, aligned. rewrite !fexp_eq.
  fold (digits v).
  split; [|lia].
  destruct (Z.max (digits v + -256 - 24) (-149) - -256) eqn:Hd;
    try reflexivity.
  lia.
Qed.

Lemma round_nonneg (mx : positive) (ex : Z) :
  binary_round_aux F32.prec F32.emax false (Zpos mx) ex loc_Exact = S754_nan
  \/ SFleb (S754_zero false)
       (binary_round_aux F32.prec F32.emax false (Zpos mx) ex loc_Exact) = true.
Proof.
  unfold binary_round_aux.
  destruct (shr_fexp F32.prec F32.emax (Zpos mx) ex loc_Exact) as [mrs' e'].
  destruct (shr_fexp F32.prec F32.emax _ e' loc_Exact) as [mrs'' e''].
  destruct (shr_m mrs'') as [|m|m]; simpl; auto.
  destruct (e'' <=? _)%Z; simpl; auto.
Qed.

Lemma np_exp_weight (x : spec_float) :
  x = S754_nan \/ (exists s, x = S754_zero s) \/ x = S754_infinity true
  \/ (exists m e, x = S754_finite true m e) ->
  is_weight (Exp.np_exp x).
Proof.
  intros [-> | [[s ->] | [-> | [m [e ->]]]]]; cbn [Exp.np_exp].
  - left. reflexivity.
  - right. repeat split; reflexivity.
  - right. repeat split; reflexivity.
  - destruct (128 <=? Z.shiftl (Z.pos m) e) eqn:Hbig;
      [right; repeat split; reflexivity|].
    pose proof (exp_fx_range m e Hbig) as Hr.
    destruct (Exp.exp_fx true m e) as [|v|v];
      try (right; repeat split; reflexivity).
    destruct (round_fixed_point v) as [-> Hal].
    destruct (round_nonneg v (- Exp.P)) as [Hnan | Hpos]; [left; exact Hnan|].
    right. split; [apply round_valid, Hal|]. split; [|exact Hpos].
    change F32.one with (S754_finite false 8388608 (-23)).
    apply (@round_le (- Exp.P)); try assumption; try reflexivity;
      try (unfold Exp.P; lia).
    unfold vle. rewrite Z.sub_diag, Z.pow_0_r, Z.mul_1_r.
    change (8388608 * 2 ^ (-23 - - Exp.P)) with (2 ^ Exp.P). lia.
Qed.

(** A score times a weight, when the product reaches a positive
    threshold: the score is positive and the product is a binary32 number
    that is at most the score. *)
Lemma times_weight (s w thres : spec_float) :
  valid_binary F32.prec F32.emax s = true ->
  is_weight w ->
  SFltb (S754_zero false) thres = true ->
  SFleb thres (SFmul F32.prec F32.emax s w) = true ->
  SFleb (SFmul F32.prec F32.emax s w) s = true
  /\ valid_binary F32.prec F32.emax (SFmul F32.prec F32.emax s w) = true
  /\ SFltb (S754_zero false) s = true.
Proof.
  intros Vs Hw Ht Hk.
  assert (Hdrop : forall r, F32.is_nan r = true \/ F32.sign r = true ->
                            SFleb thres r = true -> False).
  { intros r Hr Hr'. pose proof (negative_below_positive r thres Hr Ht) as Hn.
    unfold F32.geb, F32.leb in Hn. congruence. }
  assert (Hzero : forall b, SFleb thres (S754_zero b) = true -> False).
  { intros b Hb. destruct thres as [[|]|[|]| |[|] mt et]; discriminate. }
  destruct Hw as [-> | [Vw [Hone Hnn]]].
  - exfalso. apply (Hdrop S754_nan); [left; reflexivity|].
    destruct s; exact Hk.
  - destruct w as [sw|[|]| |[|] mw ew]; try discriminate.
    + exfalso. destruct s as [ss|ss| |ss ms es]; cbn [SFmul] in Hk;
        try (apply (Hzero _ Hk));
        apply (Hdrop S754_nan); auto.
    + destruct s as [ss|[|]| |[|] ms es]; cbn [SFmul xorb] in *;
        try (exfalso; apply (Hzero _ Hk)).
      * exfalso. apply (Hdrop (S754_infinity true)); auto.
      * repeat split; reflexivity.
      * exfalso. apply (Hdrop S754_nan); auto.
      * exfalso. eapply Hdrop; [|exact Hk].
        apply (binary_round_aux_sign true).
      * destruct (mul_weight _ _ _ _ Vs Vw Hone) as [Hv Hle].
        cbn [SFmul xorb] in Hv, Hle. repeat split; assumption.
Qed.

(** The argument of the exponential in the decay weight: minus a square,
    over a positive [sigma]. *)
Lemma weight_argument (q sigma : spec_float) :
  SFltb (S754_zero false) sigma = true ->
  let x := SFdiv F32.prec F32.emax (SFopp (SFmul F32.prec F32.emax q q)) sigma in
  x = S754_nan \/ (exists s, x = S754_zero s) \/ x = S754_infinity true
  \/ (exists m e, x = S754_finite true m e).
Proof.
  intros Hs. cbv zeta.
  assert (Hsq : F32.is_nan (SFmul F32.prec F32.emax q q) = true
                \/ F32.sign (SFmul F32.prec F32.emax q q) = false).
  { destruct q as [s|s| |s m e]; cbn [SFmul]; auto.
    - right. destruct s; reflexivity.
    - right. destruct s; reflexivity.
    - replace (xorb s s) with false by (destruct s; reflexivity).
      apply (binary_round_aux_sign false). }
  assert (Hopp : F32.is_nan (SFopp (SFmul F32.prec F32.emax q q)) = true
                 \/ F32.sign (SFopp (SFmul F32.prec F32.emax q q)) = true).
  { destruct Hsq as [H | H]; destruct (SFmul F32.prec F32.emax q q); simpl in *;
      auto; subst; auto. }
  set (a := SFopp (SFmul F32.prec F32.emax q q)) in *. clearbody a.
  assert (Hdiv : F32.is_nan (SFdiv F32.prec F32.emax a sigma) = true
                 \/ F32.sign (SFdiv F32.prec F32.emax a sigma) = true).
  { destruct sigma as [[|]|[|]| |[|] ms es]; try discriminate;
      destruct Hopp as [H | H]; destruct a as [sa|sa| |sa ma ea];
      simpl in H; try discriminate; subst; cbn [SFdiv xorb]; auto.
    destruct (SFdiv_core_binary _ _ _ _ _ _) as [[mz ez] lz].
    apply (binary_round_aux_sign true). }
  destruct Hdiv as [H | H]; destruct (SFdiv F32.prec F32.emax a sigma) as [s|s| |s m e];
    simpl in H; try discriminate; subst; eauto 6.
Qed.

End RoundingFacts.

(** ** Soft-NMS *)

Lemma upd_in_inv {A : Type} (i : nat) (v x : A) (l : list A) :
  In x (upd i v l) -> x = v \/ In x l.
Proof.
  revert i; induction l as [|h t IH]; intros [|i] H; simpl in *; auto.
  - destruct H as [<- | H]; auto.
  - destruct H as [<- | H]; auto. destruct (IH i H); auto.
Qed.

Section SoftNmsFacts.
Variables sigma thres : float.

Abbreviation pass := (soft_nms_pass sigma thres).
Abbreviation picks := (soft_nms_picks sigma thres).

Abbreviation decayed := (decayed sigma).

Lemma select_map {A B : Type} (f : A -> B) (p : B -> bool) (l : list A) :
  select p (map f l) l = filter (fun a => p (f a)) l.
Proof.
  induction l as [|x l IH]; simpl; [reflexivity|]. rewrite IH. reflexivity.
Qed.

Lemma combine_map_self {A B C : Type} (f : A -> B) (g : A * B -> C) (l : list A) :
  map g (combine l (map f l)) = map (fun a => g (a, f a)) l.
Proof.
  induction l as [|x l IH]; simpl; [reflexivity|]. rewrite IH. reflexivity.
Qed.

Lemma pass_eq (dets : list det) :
  pass dets
  = (picked dets, decayed dets,
     filter (fun d => score d >=? thres) (decayed dets)).
Proof.
  unfold soft_nms_pass. fold (picked dets).
  set (forced := upd _ _ dets).
  rewrite (combine_map_self
             (fun d => score d * soft_weight sigma (picked dets) d)
             (fun ds => set_score (snd ds) (fst ds)) forced).
  simpl. fold (decay sigma (picked dets)).
  change (map (fun a => decay sigma (picked dets) a) forced)
    with (decayed dets).
  f_equal.
  assert (Hs : map (fun d => score d * soft_weight sigma (picked dets) d) forced
               = map score (decayed dets)).
  { unfold decayed. fold forced. rewrite map_map. reflexivity. }
  rewrite Hs, take_rows_select by (rewrite length_map; reflexivity).
  apply select_map.
Qed.

Lemma decayed_length (dets : list det) : length (decayed dets) = length dets.
Proof. unfold decayed. rewrite length_map, upd_length. reflexivity. Qed.

Lemma upd_in {A : Type} (i : nat) (v : A) (l : list A) :
  (i < length l)%nat -> In v (upd i v l).
Proof.
  revert i; induction l as [|h t IH]; intros [|i] H; simpl in *; try lia; auto.
  right. apply IH. lia.
Qed.

Lemma filter_length_lt {A : Type} (p : A -> bool) (x : A) (l : list A) :
  In x l -> p x = false -> (length (filter p l) < length l)%nat.
Proof.
  induction l as [|h t IH]; simpl; [tauto|].
  intros [-> | Hin] Hx.
  - rewrite Hx. pose proof (filter_length_le p t). lia.
  - specialize (IH Hin Hx). destruct (p h); simpl; lia.
Qed.

(** With a positive threshold the picked row never survives its own
    pass: its score is forced to -1 and multiplied by a weight that is not
    negative. *)
Lemma pass_shrinks (dets : list det) :
  (F32.zero <? thres) = true -> dets <> [] ->
  (length (filter (fun d => score d >=? thres) (decayed dets)) < length dets)%nat.
Proof.
  intros Hpos Hne. rewrite <- (decayed_length dets).
  set (forced := set_score (F32.opp F32.one) (picked dets)).
  apply (@filter_length_lt _ _ (decay sigma (picked dets) forced)).
  - unfold decayed. apply in_map. apply upd_in.
    rewrite <- (length_map score). apply argmax_in_range.
    destruct dets; [congruence | discriminate].
  - simpl. apply negative_below_positive; [|exact Hpos].
    apply minus_one_times. unfold soft_weight. apply np_exp_sign.
Qed.

Lemma loop_picks (fuel : nat) :
  forall dets acc out,
    soft_nms_loop sigma thres fuel dets acc = Ok out ->
    out = acc ++ picks fuel dets.
Proof.
  induction fuel as [|fuel IH]; intros [|d ds] acc out H;
    cbn [soft_nms_loop soft_nms_picks] in *;
    try (injection H as <-; rewrite app_nil_r; reflexivity);
    try discriminate.
  rewrite pass_eq in *.
  apply IH in H. rewrite H, <- app_assoc. reflexivity.
Qed.

Lemma loop_terminates (fuel : nat) :
  (F32.zero <? thres) = true ->
  forall dets acc,
    (length dets <= fuel)%nat ->
    soft_nms_loop sigma thres fuel dets acc = Ok (acc ++ picks fuel dets).
Proof.
  intros Hpos. induction fuel as [|fuel IH]; intros [|d ds] acc Hlen;
    cbn [soft_nms_loop soft_nms_picks];
    try (rewrite app_nil_r; reflexivity); try (simpl in Hlen; lia).
  pose proof (@pass_shrinks (d :: ds) Hpos ltac:(discriminate)) as Hlt.
  rewrite pass_eq. rewrite IH.
  - rewrite <- app_assoc. reflexivity.
  - simpl in Hlt, Hlen. lia.
Qed.

Lemma picks_length (fuel : nat) :
  (F32.zero <? thres) = true ->
  forall dets, (length (picks fuel dets) <= length dets)%nat.
Proof.
  intros Hpos. induction fuel as [|fuel IH]; intros [|d ds];
    cbn [soft_nms_picks]; try (simpl; lia).
  pose proof (@pass_shrinks (d :: ds) Hpos ltac:(discriminate)) as Hlt.
  rewrite pass_eq.
  specialize (IH (filter (fun d0 => score d0 >=? thres) (decayed (d :: ds)))).
  simpl length in *. lia.
Qed.

Lemma picked_in (dets : list det) : dets <> [] -> In (picked dets) dets.
Proof.
  intros Hne. apply nth_In. rewrite <- (length_map score).
  apply argmax_in_range. destruct dets; [congruence | discriminate].
Qed.

Lemma picked_is_max (dets : list det) :
  scores_ok dets ->
  Forall (fun d => F32.leb (score d) (score (picked dets)) = true) dets.
Proof.
  intros Hok. unfold picked.
  assert (Hs : Forall (fun x => F32.is_nan x = false) (map score dets)).
  { apply Forall_map. exact Hok. }
  pose proof (argmax_is_max (score det0) Hs) as Hmax.
  rewrite map_nth in Hmax. apply Forall_map in Hmax. exact Hmax.
Qed.

Lemma kept_reach (dets : list det) :
  Forall (fun d => (score d >=? thres) = true)
         (filter (fun d => score d >=? thres) dets).
Proof.
  apply Forall_forall. intros d Hd. apply filter_In in Hd. tauto.
Qed.

Lemma reach_ok (dets : list det) :
  Forall (fun d => (score d >=? thres) = true) dets -> scores_ok dets.
Proof.
  apply Forall_impl. intros d Hd. unfold F32.geb in Hd.
  apply F32Facts.leb_nonnan in Hd. tauto.
Qed.

Lemma picks_reach (fuel : nat) :
  forall dets,
    Forall (fun d => (score d >=? thres) = true) dets ->
    Forall (fun d => (score d >=? thres) = true) (picks fuel dets).
Proof.
  induction fuel as [|fuel IH]; intros [|d ds] Hall;
    cbn [soft_nms_picks]; try solve [constructor].
  rewrite pass_eq. constructor.
  - rewrite Forall_forall in Hall. apply Hall, picked_in. discriminate.
  - apply IH, kept_reach.
Qed.

Lemma soft_weight_is_weight (t d : det) :
  (F32.zero <? sigma) = true -> is_weight (soft_weight sigma t d).
Proof.
  intros Hs. unfold soft_weight. cbv zeta.
  apply np_exp_weight. apply weight_argument. exact Hs.
Qed.

(** A row that survives a pass, for a positive [sigma] and a positive
    threshold: its new score is a binary32 number that is at most the
    score of the picked row. *)
Lemma kept_row (dets : list det) (d' : det) :
  (F32.zero <? sigma) = true -> (F32.zero <? thres) = true ->
  scores_ok dets -> scores_valid dets ->
  In d' (filter (fun d => score d >=? thres) (decayed dets)) ->
  F32.leb (score d') (score (picked dets)) = true
  /\ valid_binary F32.prec F32.emax (score d') = true.
Proof.
  intros Hs Ht Hok Hval Hin.
  apply filter_In in Hin. destruct Hin as [Hin Hkept].
  unfold decayed in Hin. apply in_map_iff in Hin.
  destruct Hin as [d0 [<- Hd0]].
  cbn [decay set_score score] in *.
  pose proof (soft_weight_is_weight (picked dets) d0 Hs) as Hw.
  destruct (upd_in_inv _ _ _ _ Hd0) as [-> | Hd].
  - destruct (@times_weight (F32.opp F32.one) _ thres eq_refl Hw Ht Hkept)
      as [_ [_ Hneg]].
    discriminate Hneg.
  - unfold scores_valid in Hval. rewrite Forall_forall in Hval.
    destruct (@times_weight (score d0) _ thres (Hval d0 Hd) Hw Ht Hkept)
      as [Hle [Hv _]].
    split; [|exact Hv].
    eapply F32Facts.leb_trans; [exact Hle|].
    pose proof (picked_is_max Hok) as Hmax. rewrite Forall_forall in Hmax.
    apply Hmax, Hd.
Qed.

Lemma picks_descending (fuel : nat) :
  (F32.zero <? sigma) = true -> (F32.zero <? thres) = true ->
  forall dets bound,
    scores_ok dets -> scores_valid dets ->
    Forall (fun d => F32.leb (score d) bound = true) dets ->
    Forall (fun d => F32.leb (score d) bound = true) (picks fuel dets)
    /\ descending (map score (picks fuel dets)) = true.
Proof.
  intros Hs Ht.
  induction fuel as [|fuel IH]; intros [|d ds] bound Hok Hval Hb;
    cbn [soft_nms_picks] in *;
    try solve [split; [constructor | reflexivity]].
  rewrite pass_eq in *.
  set (next := filter (fun d0 => score d0 >=? thres) (decayed (d :: ds))) in *.
  assert (Hrows : forall d', In d' next ->
            F32.leb (score d') (score (picked (d :: ds))) = true
            /\ valid_binary F32.prec F32.emax (score d') = true).
  { intros d' Hin. apply kept_row; assumption. }
  assert (Hnext : Forall (fun d' => F32.leb (score d') (score (picked (d :: ds))) = true) next).
  { apply Forall_forall. intros d' Hin. apply Hrows, Hin. }
  assert (Hnval : scores_valid next).
  { apply Forall_forall. intros d' Hin. apply Hrows, Hin. }
  destruct (IH next (score (picked (d :: ds)))
              (reach_ok (kept_reach _)) Hnval Hnext) as [Hle Hdesc].
  assert (Hpb : F32.leb (score (picked (d :: ds))) bound = true).
  { rewrite Forall_forall in Hb. apply Hb, picked_in. discriminate. }
  split.
  - constructor; [exact Hpb|].
    eapply Forall_impl; [|exact Hle]. intros a Ha. simpl in Ha.
    eapply F32Facts.leb_trans; eauto.
  - cbn [map]. destruct (picks fuel next) as [|p ps] eqn:Hp; [reflexivity|].
    cbn [map descending] in *. rewrite Hdesc.
    inversion Hle as [|? ? Hp1 _]; subst. unfold F32.geb. rewrite Hp1.
    reflexivity.
Qed.

Lemma picks_run_descending (fuel : nat) (dets : list det) :
  (F32.zero <? sigma) = true -> (F32.zero <? thres) = true ->
  scores_ok dets -> scores_valid dets ->
  descending (map score (picks fuel dets)) = true.
Proof.
  intros Hs Ht Hok Hval.
  destruct dets as [|d ds]; [destruct fuel; reflexivity|].
  apply (@picks_descending fuel Hs Ht (d :: ds) (score (picked (d :: ds)))
           Hok Hval (picked_is_max Hok)).
Qed.

Lemma picks_tail_reach (fuel : nat) (dets : list det) :
  Forall (fun d => (score d >=? thres) = true) (tl (picks fuel dets)).
Proof.
  destruct fuel as [|fuel], dets as [|d ds]; cbn [soft_nms_picks tl];
    try solve [constructor].
  rewrite pass_eq. cbn [tl]. apply picks_reach, kept_reach.
Qed.

Lemma picks_ok (fuel : nat) (dets : list det) :
  scores_ok dets -> scores_ok (picks fuel dets).
Proof.
  intros Hok. pose proof (picks_tail_reach fuel dets) as Htl.
  destruct fuel as [|fuel], dets as [|d ds]; cbn [soft_nms_picks tl] in *;
    try solve [constructor].
  rewrite pass_eq in *. cbn [tl] in Htl. constructor.
  - unfold scores_ok in Hok. rewrite Forall_forall in Hok.
    apply Hok, picked_in. discriminate.
  - apply reach_ok, Htl.
Qed.

(** On an array whose scores descend, the first pass picks row 0. *)
Lemma picks_head (fuel : nat) (dets : list det) :
  scores_ok dets -> descending (map score dets) = true ->
  hd_error (picks (S fuel) dets) = hd_error dets.
Proof.
  intros Hok Hdesc. destruct dets as [|d ds]; [reflexivity|].
  cbn [soft_nms_picks]. rewrite pass_eq. cbn [hd_error]. f_equal.
  unfold picked. rewrite argmax_descending; auto.
  apply Forall_map. exact Hok.
Qed.

End SoftNmsFacts.

(** C4 (as the code has it): with a positive threshold Soft-NMS returns
    after at most one pass per input row.  Whenever it returns, every
    output row after the first has a score of at least [thres]; the first
    row is the maximum of the input, appended before any score is tested
    against the threshold.  For a positive [sigma], a positive [thres] and
    input scores that are binary32 numbers (no NaN), the output scores are
    non-increasing in pick order. *)
Theorem soft_nms_output_scores (sigma thres : float) (dets : list det) :
  ((F32.zero <? thres) = true ->
   exists out, soft_nms dets sigma thres (length dets) = Ok out)
  /\ (forall fuel out,
         soft_nms dets sigma thres fuel = Ok out ->
         hd_error out = (if (length dets =? 0)%nat then None
                         else Some (nth (argmax (map score dets)) dets det0))
         /\ Forall (fun d => (score d >=? thres) = true) (tl out)
         /\ ((F32.zero <? sigma) = true -> (F32.zero <? thres) = true ->
             scores_ok dets -> scores_valid dets ->
             descending (map score out) = true)).
Proof.
  split.
  - intros Hpos. eexists. unfold soft_nms.
    apply (@loop_terminates sigma thres (length dets) Hpos dets []). lia.
  - intros fuel out Hout. unfold soft_nms in Hout.
    pose proof (@loop_picks sigma thres fuel dets [] out Hout) as Hp.
    simpl in Hp. subst out.
    split; [|split].
    + destruct dets as [|d ds]; [destruct fuel; reflexivity|].
      destruct fuel as [|fuel]; [discriminate Hout|].
      cbn [soft_nms_picks]. rewrite pass_eq. reflexivity.
    + apply picks_tail_reach.
    + intros Hs Ht Hok Hval. apply picks_run_descending; assumption.
Qed.

Lemma soft_nms_output_scores_witness :
  exists out,
    soft_nms two_boxes sigma_half theta_quarter 2 = Ok out
    /\ Forall (fun d => (score d >=? theta_quarter) = true) (tl out)
    /\ descending (map score out) = true.
Proof.
  destruct (soft_nms_output_scores sigma_half theta_quarter two_boxes)
    as [Hreturns Hprops].
  destruct (Hreturns eq_refl) as [out Hout].
  exists out. split; [exact Hout|].
  destruct (Hprops 2%nat out Hout) as [_ [Htail Hdesc]].
  split; [exact Htail|].
  apply Hdesc; [reflexivity | reflexivity | repeat constructor
               | repeat constructor].
Defined.

(** C4, counterexample: one detection with score 0.25 and threshold 0.5.
    It is picked and returned with its score, which is below the
    threshold.  The order of the scores needs the conditions above: with
    [sigma = -0.5] the second of two overlapping boxes comes back with a
    higher score than the first; so it does with the threshold -0.1 on two
    negative scores; and a NaN score is picked first. *)
Lemma soft_nms_first_row_below_threshold :
  soft_nms low_box sigma_half theta_half 1 = Ok low_box
  /\ map score low_box = [F32.lit 1 4]
  /\ (F32.lit 1 4 >=? theta_half) = false
  /\ boxes_returned (soft_nms two_boxes sigma_minus_half theta_quarter 2)
     = Ok (map det_box two_boxes)
  /\ returns_descending (soft_nms two_boxes sigma_minus_half theta_quarter 2)
     = false
  /\ boxes_returned (soft_nms negative_boxes sigma_half theta_minus_tenth 2)
     = Ok (map det_box negative_boxes)
  /\ returns_descending (soft_nms negative_boxes sigma_half theta_minus_tenth 2)
     = false
  /\ boxes_returned (soft_nms nan_boxes sigma_half theta_quarter 2)
     = Ok (map det_box nan_boxes)
  /\ returns_descending (soft_nms nan_boxes sigma_half theta_quarter 2)
     = false.
Proof. vm_compute. repeat split; reflexivity. Qed.

(** The second row a run returns is an input row decayed against the
    first. *)
Lemma picks_second_row (sigma thres : float) (fuel : nat) (dets : list det) :
  (F32.zero <? thres) = true ->
  second_row_decayed sigma dets (soft_nms_picks sigma thres fuel dets).
Proof.
  intros Hpos. destruct dets as [|d0 ds]; [destruct fuel; exact I|].
  destruct fuel as [|fuel]; [exact I|].
  cbn [soft_nms_picks]. rewrite pass_eq.
  set (dets := d0 :: ds).
  set (next := filter (fun d => score d >=? thres) (decayed sigma dets)).
  destruct next as [|n0 ns] eqn:Hnext; [destruct fuel; exact I|].
  destruct fuel as [|fuel]; [exact I|].
  cbn [soft_nms_picks]. rewrite pass_eq. cbn [second_row_decayed].
  assert (Hin : In (picked (n0 :: ns)) next).
  { rewrite Hnext. apply picked_in. discriminate. }
  unfold next in Hin. apply filter_In in Hin. destruct Hin as [Hdec Hreach].
  unfold decayed in Hdec. apply in_map_iff in Hdec.
  destruct Hdec as [d [Hd Hfrom]]. apply upd_in_inv in Hfrom.
  destruct Hfrom as [-> | Hfrom].
  - exfalso. rewrite <- Hd in Hreach. simpl in Hreach.
    rewrite negative_below_positive in Hreach; [discriminate | | exact Hpos].
    apply minus_one_times. unfold soft_weight. apply np_exp_sign.
  - exists d. split; [exact Hfrom|]. rewrite <- Hd. split; reflexivity.
Qed.

(** C5 (as the code has it): Soft-NMS is not idempotent.  Of every run
    that returns two rows or more, the second row is an input row with
    its score multiplied by the weight of its overlap with the first; the
    boxes are not changed by a run, so on the output of an earlier run
    the same weights are applied once more.  Run again on its own output
    with a positive threshold, Soft-NMS returns, starts with the
    maximum-score row of what it was given, has no more rows than it was
    given and keeps after the first row only scores of at least
    [thres]; for a positive [sigma] and input scores that are binary32
    numbers, that first row is the first row of the earlier run. *)
Theorem soft_nms_rerun
  (sigma thres : float) (dets out : list det) (fuel : nat) :
  (F32.zero <? thres) = true ->
  soft_nms dets sigma thres fuel = Ok out ->
  second_row_decayed sigma dets out
  /\ exists out2,
       soft_nms out sigma thres (length out) = Ok out2
       /\ (length out2 <= length out)%nat
       /\ hd_error out2 = (if (length out =? 0)%nat then None
                           else Some (picked out))
       /\ Forall (fun d => (score d >=? thres) = true) (tl out2)
       /\ second_row_decayed sigma out out2
       /\ ((F32.zero <? sigma) = true -> scores_ok dets ->
           scores_valid dets -> hd_error out2 = hd_error out).
Proof.
  intros Hpos Hout. unfold soft_nms in *.
  pose proof (@loop_picks sigma thres _ dets [] out Hout) as Hp.
  simpl in Hp. split.
  - subst out. apply picks_second_row, Hpos.
  - exists (soft_nms_picks sigma thres (length out) out).
    split; [|split; [|split; [|split; [|split]]]].
    + apply (@loop_terminates sigma thres (length out) Hpos out []). lia.
    + apply picks_length, Hpos.
    + destruct out as [|r rs]; [reflexivity|].
      cbn [length soft_nms_picks]. rewrite pass_eq. reflexivity.
    + apply picks_tail_reach.
    + apply picks_second_row, Hpos.
    + intros Hs Hok Hval.
      assert (Hok' : scores_ok out) by (subst out; apply picks_ok, Hok).
      assert (Hdesc : descending (map score out) = true)
        by (subst out; apply picks_run_descending; assumption).
      destruct out as [|r rs] eqn:Hshape; [reflexivity|].
      cbn [length]. apply picks_head; assumption.
Qed.

Lemma soft_nms_rerun_witness :
  exists out,
    soft_nms two_boxes sigma_half theta_quarter 2 = Ok out
    /\ second_row_decayed sigma_half two_boxes out
    /\ exists out2,
         soft_nms out sigma_half theta_quarter (length out) = Ok out2
         /\ (length out2 <= length out)%nat
         /\ hd_error out2 = (if (length out =? 0)%nat then None
                             else Some (picked out))
         /\ Forall (fun d => (score d >=? theta_quarter) = true) (tl out2)
         /\ second_row_decayed sigma_half out out2
         /\ hd_error out2 = hd_error out.
Proof.
  eexists.
  assert (H : soft_nms two_boxes sigma_half theta_quarter 2 = Ok _)
    by (vm_compute; reflexivity).
  split; [exact H|].
  destruct (@soft_nms_rerun sigma_half theta_quarter two_boxes _ 2 eq_refl H)
    as [H1 [out2 [H2 [H3 [H4 [H5 [H6 H7]]]]]]].
  split; [exact H1|]. exists out2.
  split; [exact H2|]. split; [exact H3|]. split; [exact H4|].
  split; [exact H5|]. split; [exact H6|].
  apply H7; [reflexivity | repeat constructor | repeat constructor].
Defined.

(** C5, counterexample: the two boxes of the worked scenario with
    [sigma = 0.5] and threshold 0.25.  The first run keeps both rows, the
    second with its score decayed from 0.8 to about 0.297; run on that
    output, the second row is decayed once more, to about 0.11, and
    dropped: the second run returns the first row alone. *)
Lemma soft_nms_not_idempotent :
  boxes_returned (soft_nms two_boxes sigma_half theta_quarter 2)
  = Ok (map det_box two_boxes)
  /\ soft_nms_again sigma_half theta_quarter 2
       (soft_nms two_boxes sigma_half theta_quarter 2)
     = Ok [int_det (F32.lit 9 10) 0 0 10 10].
Proof. vm_compute. split; reflexivity. Qed.

(** * Further properties *)

(** ** The flip transform, row by row *)

Lemma accepted_width_flippable (row : list float) :
  accepted_width row = true <-> flippable row.
Proof.
  unfold accepted_width.
  induction row as [|a|a b|a b c|a b c d rest IH] using list_ind4;
    try (unfold flippable; simpl; split; intros; try reflexivity;
         discriminate || lia).
  rewrite flippable_step, <- IH.
  replace (length (a :: b :: c :: d :: rest))
    with (length rest + 1 * 4)%nat by (simpl; lia).
  rewrite Nat.Div0.mod_add. reflexivity.
Qed.

Lemma flip_rows_rejects (w : float) (boxes : list (list float)) :
  forallb accepted_width boxes = false ->
  flip_rows w boxes = Raise ValueError.
Proof.
  induction boxes as [|row rest IH]; simpl; [discriminate|].
  intros H. apply andb_false_iff in H.
  destruct (accepted_width row) eqn:Hrow.
  - destruct H as [H | H]; [discriminate|].
    apply accepted_width_flippable in Hrow.
    rewrite (flip_row_flip4 w Hrow). simpl. rewrite (IH H). reflexivity.
  - assert (Hnf : (length (stride4 0 row) =? length (stride4 2 row))%nat = false).
    { apply Nat.eqb_neq. intros Heq.
      apply accepted_width_flippable in Heq. congruence. }
    unfold flip_row. rewrite Hnf. reflexivity.
Qed.

(** X4: what [box_flip] does to an array of boxes that has at least one
    row.  When every row has a width of 0 or 3 modulo 4 it returns the
    array with, in each group of four columns [x1, y1, x2, y2], [x1]
    replaced by [w - x2 - 1] and [x2] by [w - x1 - 1], the other columns
    and the shape as they were; otherwise the strided assignments do not
    fit and it raises [ValueError].  (An array with no row is a list with
    no width here, so nothing is said of it.) *)
Theorem box_flip_by_groups
  (boxes : list (list float)) (h w : float) (more : list float)
  (others : list (list float)) :
  boxes <> [] ->
  box_flip boxes ((h :: w :: more) :: others)
  = if forallb accepted_width boxes then Ok (map (flip4 w) boxes)
    else Raise ValueError.
Proof.
  intros _. unfold box_flip.
  destruct (forallb accepted_width boxes) eqn:Hall.
  - apply flip_rows_flip4. apply Forall_forall. intros row Hin.
    rewrite forallb_forall in Hall. apply accepted_width_flippable, Hall, Hin.
  - apply flip_rows_rejects, Hall.
Qed.

Lemma box_flip_by_groups_witness :
  box_flip [map F32.of_Z [10; 20; 30; 40]%Z; map F32.of_Z [0; 5; 99; 7]%Z]
           [[F32.of_Z 480; F32.of_Z 640; F32.one]]
  = if forallb accepted_width
         [map F32.of_Z [10; 20; 30; 40]%Z; map F32.of_Z [0; 5; 99; 7]%Z]
    then Ok (map (flip4 (F32.of_Z 640))
               [map F32.of_Z [10; 20; 30; 40]%Z; map F32.of_Z [0; 5; 99; 7]%Z])
    else Raise ValueError.
Proof.
  apply (@box_flip_by_groups
           [map F32.of_Z [10; 20; 30; 40]%Z; map F32.of_Z [0; 5; 99; 7]%Z]
           (F32.of_Z 480) (F32.of_Z 640) [F32.one] []).
  discriminate.
Defined.

(** ** Box voting leaves the scores alone *)

Lemma vote_row_outcome dets vote_thresh top ovr_k :
  vote_row dets vote_thresh top ovr_k = Raise ZeroDivisionError
  \/ exists d, vote_row dets vote_thresh top ovr_k = Ok d
               /\ score d = score top.
Proof.
  unfold vote_row, np_average.
  destruct (F32.eqb _ F32.zero); [left; reflexivity|].
  right. eexists. split; reflexivity.
Qed.

Lemma vote_rows_outcome dets vote_thresh :
  forall tops ovr,
    length ovr = length tops ->
    vote_rows dets vote_thresh tops ovr = Raise ZeroDivisionError
    \/ exists out, vote_rows dets vote_thresh tops ovr = Ok out
                   /\ map score out = map score tops.
Proof.
  induction tops as [|top tops IH]; intros [|ovr_k ovr] Hlen;
    simpl in Hlen; try discriminate.
  - right. exists []. split; reflexivity.
  - simpl.
    destruct (vote_row_outcome dets vote_thresh top ovr_k)
      as [-> | [d [-> Hd]]]; [left; reflexivity|].
    destruct (IH ovr ltac:(lia)) as [-> | [out [-> Hout]]];
      [left; reflexivity|].
    right. exists (d :: out). split; [reflexivity|].
    simpl. rewrite Hd, Hout. reflexivity.
Qed.

(** X5: box voting only votes on geometry.  Either some survivor has
    votes whose weights sum to zero and the call raises
    [ZeroDivisionError], or it returns one row per survivor, in the same
    order and with the same scores. *)
Theorem box_voting_keeps_scores (nms_dets dets : list det) (vote_thresh : float) :
  box_voting nms_dets dets vote_thresh = Raise ZeroDivisionError
  \/ exists out,
       box_voting nms_dets dets vote_thresh = Ok out
       /\ map score out = map score nms_dets
       /\ length out = length nms_dets.
Proof.
  unfold box_voting.
  destruct (vote_rows_outcome dets vote_thresh nms_dets
              (bbox_overlaps (map det_box nms_dets) (map det_box dets)))
    as [H | [out [H Hs]]].
  - unfold bbox_overlaps. rewrite !length_map. reflexivity.
  - left. exact H.
  - right. exists out. split; [exact H|]. split; [exact Hs|].
    rewrite <- (length_map score out), Hs. apply length_map.
Qed.

(** ** Soft-NMS touches only the scores *)

Lemma upd_set_score_boxes (i : nat) (s : float) (dets : list det) :
  map det_box (upd i (set_score s (nth i dets det0)) dets) = map det_box dets.
Proof.
  revert i; induction dets as [|d ds IH]; intros [|i]; simpl; auto.
  - f_equal. apply IH.
Qed.

Lemma decayed_boxes (sigma : float) (dets : list det) :
  map det_box (decayed sigma dets) = map det_box dets.
Proof.
  unfold decayed, picked. rewrite map_map.
  erewrite map_ext; [apply upd_set_score_boxes|].
  intros r. reflexivity.
Qed.

Lemma picks_boxes (sigma thres : float) (fuel : nat) :
  forall dets boxes,
    incl (map det_box dets) boxes ->
    Forall (fun d => In (det_box d) boxes) (soft_nms_picks sigma thres fuel dets).
Proof.
  induction fuel as [|fuel IH]; intros [|d ds] boxes Hincl;
    cbn [soft_nms_picks]; try solve [constructor].
  rewrite pass_eq. constructor.
  - apply Hincl, in_map, picked_in. discriminate.
  - apply IH. intros b Hb. apply Hincl.
    rewrite <- (decayed_boxes sigma (d :: ds)).
    apply in_map_iff in Hb. destruct Hb as [r [<- Hr]].
    apply in_map. apply filter_In in Hr. tauto.
Qed.

(** X6: Soft-NMS never moves a box and never adds a row.  Whenever it
    returns, every output row carries the coordinates of an input row, and
    with a positive threshold the output has at most as many rows as the
    input. *)
Theorem soft_nms_keeps_boxes
  (dets : list det) (sigma thres : float) (fuel : nat) (out : list det) :
  soft_nms dets sigma thres fuel = Ok out ->
  Forall (fun d => In (det_box d) (map det_box dets)) out
  /\ ((F32.zero <? thres) = true -> (length out <= length dets)%nat).
Proof.
  intros Hout. unfold soft_nms in Hout.
  apply loop_picks in Hout. simpl in Hout. subst out. split.
  - apply picks_boxes. apply incl_refl.
  - intros Hpos. apply picks_length, Hpos.
Qed.

Lemma soft_nms_keeps_boxes_witness :
  Forall (fun d => In (det_box d) (map det_box two_boxes)) two_boxes_soft
  /\ ((F32.zero <? theta_quarter) = true ->
      (length two_boxes_soft <= length two_boxes)%nat).
Proof.
  apply (@soft_nms_keeps_boxes two_boxes sigma_half theta_quarter 2).
  vm_compute. reflexivity.
Defined.

(** X7: Soft-NMS overwrites the array it is given.  After a call on a
    non-empty array the caller's rows are still the same boxes, but the
    scores are the decayed ones of the first pass, and the row that held
    the top score holds a score that is negative or NaN. *)
Theorem soft_nms_overwrites_input (sigma thres : float) (dets : list det) :
  dets <> [] ->
  let after := soft_nms_input_after sigma thres dets in
  let top := argmax (map score dets) in
  map det_box after = map det_box dets
  /\ after = decayed sigma dets
  /\ (F32.is_nan (score (nth top after det0)) = true
      \/ F32.sign (score (nth top after det0)) = true).
Proof.
  intros Hne after top. subst after top.
  unfold soft_nms_input_after. destruct dets as [|d ds]; [congruence|].
  rewrite pass_eq. cbn [fst snd]. split; [apply decayed_boxes|].
  split; [reflexivity|].
  unfold decayed.
  set (top := argmax (map score (d :: ds))).
  assert (Htop : (top < length (d :: ds))%nat).
  { rewrite <- (length_map score). apply argmax_in_range. discriminate. }
  rewrite (nth_indep _ det0 (decay sigma (picked (d :: ds)) det0))
    by (rewrite length_map, upd_length; exact Htop).
  rewrite map_nth.
  assert (Hrow : nth top (upd top (set_score (F32.opp F32.one) (picked (d :: ds)))
                              (d :: ds)) det0
                 = set_score (F32.opp F32.one) (picked (d :: ds))).
  { clear. generalize (set_score (F32.opp F32.one) (picked (d :: ds))) as v.
    intros v. assert (H : (top < length (d :: ds))%nat).
    { rewrite <- (length_map score). apply argmax_in_range. discriminate. }
    revert H. generalize (d :: ds) as l. generalize top as i.
    induction i as [|i IH]; intros [|x l] H; simpl in *; try lia; auto.
    apply IH. lia. }
  rewrite Hrow. simpl.
  apply minus_one_times. unfold soft_weight. apply np_exp_sign.
Qed.

Lemma soft_nms_overwrites_input_witness :
  map det_box (soft_nms_input_after sigma_half theta_quarter two_boxes)
  = map det_box two_boxes
  /\ soft_nms_input_after sigma_half theta_quarter two_boxes
     = decayed sigma_half two_boxes
  /\ (F32.is_nan
        (score (nth (argmax (map score two_boxes))
                    (soft_nms_input_after sigma_half theta_quarter two_boxes)
                    det0)) = true
      \/ F32.sign
           (score (nth (argmax (map score two_boxes))
                       (soft_nms_input_after sigma_half theta_quarter two_boxes)
                       det0)) = true).
Proof.
  apply (@soft_nms_overwrites_input sigma_half theta_quarter two_boxes).
  discriminate.
Defined.

(** ** The selector *)

Lemma subseq_refl {A : Type} (l : list A) : subseq l l.
Proof. induction l; constructor; assumption. Qed.

Lemma subseq_filter {A : Type} (p : A -> bool) (l : list A) :
  subseq (filter p l) l.
Proof.
  induction l as [|x l IH]; simpl; [constructor|].
  destruct (p x); constructor; exact IH.
Qed.

Lemma subseq_map {A B : Type} (f : A -> B) (l1 l2 : list A) :
  subseq l1 l2 -> subseq (map f l1) (map f l2).
Proof. induction 1; simpl; constructor; assumption. Qed.

Lemma subseq_trans {A : Type} (l1 l2 l3 : list A) :
  subseq l1 l2 -> subseq l2 l3 -> subseq l1 l3.
Proof.
  intros H12 H23. revert l1 H12.
  induction H23 as [|x l2 l3 _ IH|x l2 l3 _ IH]; intros l1 H12.
  - exact H12.
  - constructor. apply IH, H12.
  - inversion H12; subst; constructor; apply IH; assumption.
Qed.

Lemma subseq_in {A : Type} (l1 l2 : list A) (x : A) :
  subseq l1 l2 -> In x l1 -> In x l2.
Proof.
  induction 1; simpl; intros Hin; auto.
  destruct Hin; auto.
Qed.

Lemma nms_subseq (dets : list det) (thresh : float) :
  subseq (nms dets thresh) dets.
Proof. rewrite nms_select. apply select_subseq. Qed.

(** What the cap returns: each class filtered by one test. *)
Lemma limit_per_image_shape (K : Z) (cls_boxes : list (list ldet)) (out : list ldet) :
  limit_per_image K cls_boxes = Ok out ->
  exists keep, out = concat (map (filter keep) cls_boxes).
Proof.
  unfold limit_per_image. destruct cls_boxes as [|c cs]; [discriminate|].
  destruct (_ >? K)%Z.
  - destruct (py_index _ _) as [t| |]; try discriminate.
    cbn [bind]. intros H. injection H as <-.
    exists (fun d => lscore d >=? t).
    cbn [concat map]. rewrite take_rows_filter. do 2 f_equal.
    apply map_ext. intros c'. apply take_rows_filter.
  - cbn [bind]. intros H. injection H as <-.
    exists (fun _ => true).
    rewrite (map_ext_in _ (fun l => l)), map_id; [reflexivity|].
    intros l _. apply filter_all. apply Forall_forall. reflexivity.
Qed.

(** With a cap that is not negative the cap step returns. *)
Lemma limit_per_image_returns (K : Z) (cls_boxes : list (list ldet)) :
  (0 <= K)%Z -> cls_boxes <> [] ->
  exists out, limit_per_image K cls_boxes = Ok out.
Proof.
  intros HK Hne. unfold limit_per_image.
  destruct cls_boxes as [|c cs]; [congruence|].
  set (pool := concat (map (map lscore) (c :: cs))).
  destruct (Z.gtb_spec (Z.of_nat (length pool)) K) as [Hgt | _];
    [|eexists; reflexivity].
  assert (Hlen : length (np_sort pool) = length pool)
    by apply Permutation_length, sort_by_perm.
  unfold py_index. rewrite Hlen.
  destruct (Z.ltb_spec (- K) 0).
  - destruct (Z.leb_spec 0 (- K + Z.of_nat (length pool))); [|lia].
    destruct (Z.ltb_spec (- K + Z.of_nat (length pool))
                         (Z.of_nat (length pool))); [|lia].
    cbn [andb].
    destruct (nth_error (np_sort pool)
                (Z.to_nat (- K + Z.of_nat (length pool)))) eqn:Hnth.
    + eexists. reflexivity.
    + apply nth_error_None in Hnth. lia.
  - replace (- K)%Z with 0%Z by lia.
    destruct (Z.ltb_spec 0 (Z.of_nat (length pool))); [|lia].
    cbn [Z.leb andb Z.to_nat].
    destruct (nth_error (np_sort pool) 0) eqn:Hnth.
    + eexists. reflexivity.
    + apply nth_error_None in Hnth. lia.
Qed.

Section PlainSelector.
Variable fuel : nat.
Variable c : candidates.
Variable cfg : config.
Hypothesis plain_nms : use_soft_nms cfg = false.
Hypothesis no_voting : enable_voting cfg = false.

Lemma class_result_plain (j : nat) (dets_j : list det) :
  class_result fuel cfg j dets_j
  = Ok (map (labelled j) (nms dets_j (nms_thresh cfg))).
Proof.
  unfold class_result. rewrite plain_nms, no_voting. reflexivity.
Qed.

Lemma class_results_plain (js : list nat) :
  forall rs,
    class_results fuel c cfg js = Ok rs ->
    Forall2 (fun j r =>
               exists dets_j,
                 class_dets c cfg j = Ok dets_j
                 /\ r = map (labelled j) (nms dets_j (nms_thresh cfg)))
            js rs.
Proof.
  induction js as [|j js IH]; intros rs H; simpl in H.
  - injection H as <-. constructor.
  - destruct (class_dets c cfg j) as [dets_j| |] eqn:Hd; try discriminate.
    cbn [bind] in H. rewrite class_result_plain in H. cbn [bind] in H.
    destruct (class_results fuel c cfg js) as [rs'| |]; try discriminate.
    cbn [bind] in H. injection H as <-.
    constructor; [|apply IH; reflexivity].
    exists dets_j. split; [exact Hd | reflexivity].
Qed.

End PlainSelector.

Lemma filtered_blocks (c : candidates) (cfg : config)
  (keep : ldet -> bool) (js : list nat) (rs : list (list ldet)) :
  Forall2 (fun j r =>
             exists dets_j,
               class_dets c cfg j = Ok dets_j
               /\ r = map (labelled j) (nms dets_j (nms_thresh cfg)))
          js rs ->
  Forall2 (fun j block =>
             exists dets_j,
               class_dets c cfg j = Ok dets_j
               /\ subseq block (map (labelled j) dets_j))
          js (map (filter keep) rs).
Proof.
  induction 1 as [|j r js rs' [dets_j [Hd ->]] _ IH];
    simpl; constructor; [|exact IH].
  exists dets_j. split; [exact Hd|].
  eapply subseq_trans; [apply subseq_filter|].
  apply subseq_map, nms_subseq.
Qed.

(** X8: with plain NMS and no voting, the selector's result is made of
    candidate rows only.  It is the concatenation, by ascending class, of
    one block per class, and the block of class [j] is a sub-sequence of
    the candidates [dets_j] of that class, each row unaltered and
    labelled [j]. *)
Theorem get_nms_result_rows
  (fuel : nat) (c : candidates) (cfg : config) (num_classes : nat)
  (background_label : Z) (out : list ldet) :
  use_soft_nms cfg = false ->
  enable_voting cfg = false ->
  get_nms_result fuel c cfg num_classes background_label = Ok out ->
  exists blocks,
    out = concat blocks
    /\ Forall2 (fun j block =>
                  exists dets_j,
                    class_dets c cfg j = Ok dets_j
                    /\ subseq block (map (labelled j) dets_j))
               (seq (start_idx background_label)
                    (num_classes - start_idx background_label))
               blocks.
Proof.
  intros Hplain Hvote Hout. unfold get_nms_result in Hout.
  fold (start_idx background_label) in Hout.
  destruct (class_results fuel c cfg _) as [rs| |] eqn:Hrs; try discriminate.
  cbn [bind] in Hout.
  destruct (limit_per_image_shape _ _ Hout) as [keep ->].
  exists (map (filter keep) rs). split; [reflexivity|].
  apply filtered_blocks.
  exact (@class_results_plain fuel c cfg Hplain Hvote _ _ Hrs).
Qed.

(** X9: the errors of the selector.  With no class to process
    ([num_classes] not above the first class index) it raises
    [ValueError] rather than return an empty result.  When Soft-NMS is
    asked for without [sigma], it raises [KeyError] at the first class
    whose candidates it has read; so does plain NMS (no Soft-NMS) with
    voting asked for without [vote_thresh].  (With Soft-NMS and voting
    together, [vote_thresh] is read only after Soft-NMS has returned.) *)
Theorem get_nms_result_errors
  (fuel : nat) (c : candidates) (cfg : config) (num_classes : nat)
  (background_label : Z) :
  ((num_classes <= start_idx background_label)%nat ->
   get_nms_result fuel c cfg num_classes background_label = Raise ValueError)
  /\ (forall dets_j,
         (start_idx background_label < num_classes)%nat ->
         class_dets c cfg (start_idx background_label) = Ok dets_j ->
         (use_soft_nms cfg = true /\ sigma cfg = None)
         \/ (use_soft_nms cfg = false /\ enable_voting cfg = true
             /\ vote_thresh cfg = None) ->
         get_nms_result fuel c cfg num_classes background_label
         = Raise KeyError).
Proof.
  unfold get_nms_result. fold (start_idx background_label). split.
  - intros Hle.
    replace (num_classes - start_idx background_label)%nat with 0%nat by lia.
    reflexivity.
  - intros dets_j Hlt Hd Hcfg.
    replace (num_classes - start_idx background_label)%nat
      with (S (num_classes - S (start_idx background_label)))%nat by lia.
    cbn [seq class_results]. rewrite Hd. cbn [bind].
    unfold class_result.
    destruct Hcfg as [[-> ->] | [-> [-> ->]]]; reflexivity.
Qed.

Lemma get_nms_result_errors_witness :
  get_nms_result 0 (Labeled [] [] []) plain_config 1 0 = Raise ValueError
  /\ get_nms_result 0 (Labeled [] [] []) soft_config_no_sigma 2 0
     = Raise KeyError
  /\ get_nms_result 0 (Labeled [] [] []) voting_config_no_thresh 2 0
     = Raise KeyError.
Proof.
  split; [|split].
  - apply (get_nms_result_errors 0 (Labeled [] [] []) plain_config 1 0).
    unfold start_idx. simpl. lia.
  - apply (proj2 (get_nms_result_errors 0 (Labeled [] [] [])
                    soft_config_no_sigma 2 0) []).
    + unfold start_idx. simpl. lia.
    + reflexivity.
    + left. split; reflexivity.
  - apply (proj2 (get_nms_result_errors 0 (Labeled [] [] [])
                    voting_config_no_thresh 2 0) []).
    + unfold start_idx. simpl. lia.
    + reflexivity.
    + right. repeat split; reflexivity.
Defined.

(** ** Corner-style detections *)

Lemma where_from_map {A B : Type} (g : A -> B) (p : B -> bool) (l : list A) :
  forall start,
    where_from p start (map g l) = where_from (fun x => p (g x)) start l.
Proof.
  induction l as [|x l IH]; intros start; simpl; [reflexivity|].
  rewrite IH. reflexivity.
Qed.

Lemma select_filter_map {A B : Type} (f : A -> B) (q : A -> bool) (l : list A) :
  select q l (map f l) = map f (filter q l).
Proof.
  induction l as [|x l IH]; simpl; [reflexivity|].
  destruct (q x); simpl; rewrite IH; reflexivity.
Qed.

Lemma take_where_map {A B C : Type} (g : A -> C) (f : A -> B) (p : C -> bool)
  (d : B) (l : list A) :
  take_rows d (np_where p (map g l)) (map f l)
  = map f (filter (fun x => p (g x)) l).
Proof.
  unfold np_where. rewrite where_from_map.
  change (where_from (fun x => p (g x)) 0 l)
    with (np_where (fun x => p (g x)) l).
  rewrite take_rows_select by (rewrite length_map; reflexivity).
  apply select_filter_map.
Qed.

Lemma det_eta (d : det) :
  with_box (set_score (score d) det0) (det_box d) = d.
Proof. destruct d; reflexivity. Qed.

(** The candidates of class [j] among explicitly labelled rows. *)
Lemma class_dets_labeled (rows : list ldet) (cfg : config) (j : nat) :
  class_dets (Labeled (map label rows) (map lscore rows)
                      (map (fun d => det_box (ldet_det d)) rows)) cfg j
  = Ok (map ldet_det
            (filter (fun r => F32.eqb (label r) (F32.of_Z (Z.of_nat j))) rows)).
Proof.
  unfold class_dets.
  rewrite (take_where_map label lscore
             (fun l => F32.eqb l (F32.of_Z (Z.of_nat j))) F32.zero rows).
  rewrite (take_where_map label (fun d => det_box (ldet_det d))
             (fun l => F32.eqb l (F32.of_Z (Z.of_nat j))) box0 rows).
  f_equal.
  generalize (filter (fun x => F32.eqb (label x) (F32.of_Z (Z.of_nat j))) rows)
    as l.
  induction l as [|r l IH]; simpl; [reflexivity|].
  rewrite IH. f_equal. unfold lscore. apply det_eta.
Qed.

Lemma class_results_labeled_returns
  (fuel : nat) (rows : list ldet) (cfg : config) (js : list nat) :
  use_soft_nms cfg = false -> enable_voting cfg = false ->
  exists rs,
    class_results fuel
      (Labeled (map label rows) (map lscore rows)
               (map (fun d => det_box (ldet_det d)) rows)) cfg js = Ok rs
    /\ length rs = length js.
Proof.
  intros Hplain Hvote.
  induction js as [|j js [rs [IH Hlen]]]; cbn [class_results].
  - exists []. split; reflexivity.
  - rewrite class_dets_labeled. cbn [bind].
    rewrite class_result_plain by assumption. cbn [bind].
    rewrite IH. cbn [bind]. eexists. split; [reflexivity|].
    simpl. rewrite Hlen. reflexivity.
Qed.

Lemma in_concat_blocks {A B : Type} (P : A -> list B -> Prop)
  (js : list A) (blocks : list (list B)) (r : B) :
  Forall2 P js blocks -> In r (concat blocks) ->
  exists j block, In j js /\ P j block /\ In r block.
Proof.
  induction 1 as [|j block js blocks Hj _ IH]; simpl; [contradiction|].
  intros Hin. apply in_app_or in Hin. destruct Hin as [Hin | Hin].
  - exists j, block. auto.
  - destruct (IH Hin) as [j' [b' [Hj' H']]]. exists j', b'. auto.
Qed.

(** X10: [corner_post_process] with plain NMS, no voting and a cap that
    is not negative always returns, reports the number of rows it returns,
    and returns only rows that were given to it: each output row is an
    input row whose score is above -1 and whose label is one of the
    classes [0 .. num_classes - 1], with its score and box unaltered and
    its label rewritten as that class. *)
Theorem corner_post_process_rows
  (fuel : nat) (detections : list ldet) (cfg : config) (num_classes : nat) :
  use_soft_nms cfg = false ->
  enable_voting cfg = false ->
  (0 <= detections_per_im cfg)%Z ->
  (1 <= num_classes)%nat ->
  exists out,
    corner_post_process fuel detections cfg num_classes = Ok (out, length out)
    /\ Forall (fun r =>
                 exists row j,
                   In row detections
                   /\ (lscore row >? F32.of_Z (-1)) = true
                   /\ (j < num_classes)%nat
                   /\ F32.eqb (label row) (F32.of_Z (Z.of_nat j)) = true
                   /\ r = labelled j (ldet_det row))
              out.
Proof.
  intros Hplain Hvote HK Hnc. unfold corner_post_process.
  set (kept := filter (fun d => lscore d >? F32.of_Z (-1)) detections).
  set (c := Labeled (map label kept) (map lscore kept)
                    (map (fun d => det_box (ldet_det d)) kept)).
  destruct (class_results_labeled_returns fuel kept cfg
              (seq 0 (num_classes - 0)) Hplain Hvote) as [rs [Hrs Hlen]].
  fold c in Hrs.
  destruct (@limit_per_image_returns (detections_per_im cfg) rs HK)
    as [out Hout].
  { intros ->. rewrite length_seq in Hlen. simpl in Hlen. lia. }
  assert (Hget : get_nms_result fuel c cfg num_classes (-1) = Ok out).
  { unfold get_nms_result. change (-1 =? 0)%Z with false. cbv iota.
    rewrite Hrs. exact Hout. }
  exists out. rewrite Hget. split; [reflexivity|].
  destruct (limit_per_image_shape _ _ Hout) as [keep Hkeep].
  pose proof (@filtered_blocks c cfg keep _ _
                (@class_results_plain fuel c cfg Hplain Hvote _ _ Hrs))
    as Hblocks.
  rewrite Hkeep.
  apply Forall_forall. intros r Hr.
  destruct (in_concat_blocks _ Hblocks Hr)
    as [j [block [Hj [[dets_j [Hd Hsub]] Hin]]]].
  apply in_seq in Hj. unfold start_idx in Hj. simpl in Hj.
  unfold c in Hd. rewrite class_dets_labeled in Hd. injection Hd as <-.
  apply (subseq_in _ Hsub) in Hin.
  apply in_map_iff in Hin. destruct Hin as [d [<- Hd]].
  apply in_map_iff in Hd. destruct Hd as [row [<- Hrow]].
  apply filter_In in Hrow. destruct Hrow as [Hkept Hlabel].
  apply filter_In in Hkept. destruct Hkept as [Hin Hscore].
  exists row, j. repeat split; auto. lia.
Qed.

Lemma corner_post_process_rows_witness :
  exists out,
    corner_post_process 0 corner_rows plain_config 2 = Ok (out, length out)
    /\ Forall (fun r =>
                 exists row j,
                   In row corner_rows
                   /\ (lscore row >? F32.of_Z (-1)) = true
                   /\ (j < 2)%nat
                   /\ F32.eqb (label row) (F32.of_Z (Z.of_nat j)) = true
                   /\ r = labelled j (ldet_det row))
              out.
Proof.
  apply (@corner_post_process_rows 0 corner_rows plain_config 2).
  - reflexivity.
  - reflexivity.
  - simpl. lia.
  - lia.
Defined.

(** The corner rows selected: the marked row and the row of no class are
    gone, and the second row of class 0 is suppressed by the first. *)
Lemma corner_post_process_example :
  corner_post_process 0 corner_rows plain_config 2
  = Ok ([mkLdet (F32.of_Z 0) (int_det (F32.lit 9 10) 0 0 10 10);
         mkLdet (F32.of_Z 1) (int_det (F32.lit 7 10) 50 50 60 60)], 2%nat).
Proof. vm_compute. reflexivity. Qed.

Lemma get_nms_result_rows_witness :
  exists out blocks,
    get_nms_result 0
      (Labeled (map label corner_rows) (map lscore corner_rows)
               (map (fun d => det_box (ldet_det d)) corner_rows))
      plain_config 2 (-1) = Ok out
    /\ out = concat blocks
    /\ Forall2 (fun j block =>
                  exists dets_j,
                    class_dets
                      (Labeled (map label corner_rows) (map lscore corner_rows)
                               (map (fun d => det_box (ldet_det d)) corner_rows))
                      plain_config j = Ok dets_j
                    /\ subseq block (map (labelled j) dets_j))
               (seq (start_idx (-1)) (2 - start_idx (-1))) blocks.
Proof.
  eexists.
  assert (H : get_nms_result 0
      (Labeled (map label corner_rows) (map lscore corner_rows)
               (map (fun d => det_box (ldet_det d)) corner_rows))
      plain_config 2 (-1) = Ok _) by (vm_compute; reflexivity).
  destruct (get_nms_result_rows 0 _ plain_config 2 (-1)
              eq_refl eq_refl H) as [blocks [Hc Hb]].
  exists blocks. split; [exact H|]. split; [exact Hc | exact Hb].
Defined.

(** ** The paste of a mask *)

Lemma length_mapi {A B : Type} (f : nat -> A -> B) (l : list A) :
  length (mapi f l) = length l.
Proof.
  unfold mapi. rewrite length_map, length_combine, length_seq.
  apply Nat.min_id.
Qed.

Lemma nth_mapi {A B : Type} (f : nat -> A -> B) (l : list A) (i : nat)
  (da : A) (db : B) :
  (i < length l)%nat -> nth i (mapi f l) db = f i (nth i l da).
Proof.
  intros Hi. unfold mapi.
  rewrite (nth_indep _ db (f (fst (0%nat, da)) (snd (0%nat, da)))).
  - rewrite (map_nth (fun p => f (fst p) (snd p))).
    rewrite combine_nth by apply length_seq.
    rewrite seq_nth by exact Hi. reflexivity.
  - rewrite length_map, length_combine, length_seq, Nat.min_id. exact Hi.
Qed.

Lemma slice_bound_in (n i : Z) : (0 <= i <= n)%Z -> slice_bound n i = i.
Proof.
  intros H. unfold slice_bound. destruct (Z.ltb_spec i 0); lia.
Qed.

Lemma slice_bound_range (n i : Z) :
  (0 <= n)%Z -> (0 <= slice_bound n i <= n)%Z.
Proof.
  intros H. unfold slice_bound. destruct (Z.ltb_spec i 0); lia.
Qed.

Lemma slice_fits (n : nat) (a b : Z) :
  (slice_start n a + slice_len n a b <= n)%nat.
Proof.
  unfold slice_start, slice_len.
  pose proof (@slice_bound_range (Z.of_nat n) a (Nat2Z.is_nonneg n)).
  pose proof (@slice_bound_range (Z.of_nat n) b (Nat2Z.is_nonneg n)).
  lia.
Qed.

Lemma length_py_slice {A : Type} (a b : Z) (l : list A) :
  length (py_slice a b l) = slice_len (length l) a b.
Proof.
  unfold py_slice. rewrite length_firstn, length_skipn.
  pose proof (slice_fits (length l) a b). lia.
Qed.

Lemma nth_py_slice {A : Type} (a b : Z) (l : list A) (i : nat) (d : A) :
  (i < slice_len (length l) a b)%nat ->
  nth i (py_slice a b l) d = nth (slice_start (length l) a + i) l d.
Proof.
  intros Hi. unfold py_slice. rewrite nth_firstn.
  apply Nat.ltb_lt in Hi. rewrite Hi. apply nth_skipn.
Qed.

(** The region of the canvas and the region of the mask that is copied
    into it, along one axis: [n] is the size of the image and [lo .. hi]
    the extent of the box. *)
Section Extent.
Variables (n lo hi : Z).
Hypothesis size_ok : (0 <= n)%Z.

Let a := Z.min (Z.max lo 0) n.
Let b := Z.min (Z.max (hi + 1) 0) n.
Let sz := Z.max (hi - lo + 1) 1.

Lemma clip_range : (0 <= a <= n)%Z /\ (0 <= b <= n)%Z.
Proof. subst a b. lia. Qed.

Lemma clip_open :
  (a < b)%Z ->
  (lo <= a)%Z /\ (b <= hi + 1)%Z /\ sz = (hi - lo + 1)%Z.
Proof. subst a b sz. lia. Qed.

Lemma clip_empty :
  (b <= a)%Z -> (slice_bound sz (b - lo) <= slice_bound sz (a - lo))%Z.
Proof.
  intros H. subst a b sz. unfold slice_bound.
  destruct (Z.ltb_spec (Z.min (Z.max (hi + 1) 0) n - lo) 0);
    destruct (Z.ltb_spec (Z.min (Z.max lo 0) n - lo) 0); lia.
Qed.

Lemma clip_inside (k : Z) :
  (0 <= k < n)%Z -> ((a <= k < b)%Z <-> (lo <= k <= hi)%Z).
Proof. subst a b. lia. Qed.

Lemma extent_target_start : slice_start (Z.to_nat n) a = Z.to_nat a.
Proof.
  unfold slice_start. rewrite Z2Nat.id by exact size_ok.
  rewrite slice_bound_in by apply clip_range. reflexivity.
Qed.

Lemma extent_target_length : slice_len (Z.to_nat n) a b = Z.to_nat (b - a).
Proof.
  unfold slice_len. rewrite Z2Nat.id by exact size_ok.
  rewrite !slice_bound_in by apply clip_range. reflexivity.
Qed.

Lemma extent_same_length :
  slice_len (Z.to_nat sz) (a - lo) (b - lo) = slice_len (Z.to_nat n) a b.
Proof.
  rewrite extent_target_length. unfold slice_len.
  rewrite Z2Nat.id by (subst sz; lia).
  destruct (Z.lt_ge_cases a b) as [Hab | Hab].
  - destruct (clip_open Hab) as [Hlo [Hhi Hsz]].
    pose proof clip_range as [Ha Hb]. clearbody a b sz.
    rewrite !slice_bound_in by lia. f_equal. lia.
  - pose proof (clip_empty Hab) as Hle.
    generalize dependent (slice_bound sz (b - lo)).
    generalize (slice_bound sz (a - lo)). intros u v Hle.
    clearbody a b sz. lia.
Qed.

Lemma extent_target (k : Z) :
  (0 <= k < n)%Z ->
  (slice_start (Z.to_nat n) a <=? Z.to_nat k)%nat
  && (Z.to_nat k <? slice_start (Z.to_nat n) a + slice_len (Z.to_nat n) a b)%nat
  = ((lo <=? k) && (k <=? hi))%Z.
Proof.
  intros Hk. rewrite extent_target_start, extent_target_length.
  pose proof clip_range as [Ha Hb].
  pose proof (clip_inside Hk) as Hin. clearbody a b.
  destruct (Z.leb_spec lo k); destruct (Z.leb_spec k hi); simpl.
  - apply andb_true_iff. split; [apply Nat.leb_le | apply Nat.ltb_lt]; lia.
  - apply andb_false_iff.
    destruct (Z.lt_ge_cases k a); [left; apply Nat.leb_gt | right; apply Nat.ltb_ge]; lia.
  - apply andb_false_iff.
    destruct (Z.lt_ge_cases k a); [left; apply Nat.leb_gt | right; apply Nat.ltb_ge]; lia.
  - apply andb_false_iff.
    destruct (Z.lt_ge_cases k a); [left; apply Nat.leb_gt | right; apply Nat.ltb_ge]; lia.
Qed.

Lemma extent_source (k : Z) :
  (0 <= k < n)%Z -> (lo <= k <= hi)%Z ->
  (slice_start (Z.to_nat sz) (a - lo)
   + (Z.to_nat k - slice_start (Z.to_nat n) a)
   = Z.to_nat (k - lo))%nat
  /\ (Z.to_nat k - slice_start (Z.to_nat n) a
      < slice_len (Z.to_nat sz) (a - lo) (b - lo))%nat.
Proof.
  intros Hk Hbox.
  rewrite extent_same_length, extent_target_start, extent_target_length.
  pose proof clip_range as [Ha Hb].
  apply (clip_inside Hk) in Hbox.
  destruct (@clip_open) as [Hlo [Hhi Hsz]]; [lia|].
  unfold slice_start. rewrite Z2Nat.id by (subst sz; lia).
  clearbody a b sz.
  rewrite slice_bound_in by lia. lia.
Qed.

End Extent.

Lemma Forall_mapi {A B : Type} (f : nat -> A -> B) (Q : B -> Prop)
  (l : list A) :
  (forall i x, Q (f i x)) -> Forall Q (mapi f l).
Proof.
  intros H. unfold mapi. apply Forall_forall. intros y Hy.
  apply in_map_iff in Hy. destruct Hy as [p [<- _]]. apply H.
Qed.

Lemma well_formed_row (img : image) (i : nat) :
  well_formed img -> (i < im_rows img)%nat ->
  length (nth i (im_px img) []) = im_cols img.
Proof.
  intros [Hlen Hrows] Hi.
  rewrite Forall_forall in Hrows. apply Hrows, nth_In. lia.
Qed.

Lemma andb_pairs (a b c d : bool) : a && b && c && d = (a && b) && (c && d).
Proof. destruct a, b, c, d; reflexivity. Qed.

(** An element of a slice of an image, read through the broadcast. *)
Lemma slice2_at (img : image) (ya yb xa xb : Z) (i j : nat) :
  well_formed img ->
  (i < slice_len (im_rows img) ya yb)%nat ->
  (j < slice_len (im_cols img) xa xb)%nat ->
  bcast_at (slice2 img ya yb xa xb) i j
  = nth (slice_start (im_cols img) xa + j)
        (nth (slice_start (im_rows img) ya + i) (im_px img) []) 0%Z.
Proof.
  intros Hwf Hi Hj. pose proof Hwf as [Hlen _].
  unfold bcast_at, slice2. cbn [im_rows im_cols im_px].
  replace (if (slice_len (im_rows img) ya yb =? 1)%nat then 0%nat else i)
    with i by (destruct (Nat.eqb_spec (slice_len (im_rows img) ya yb) 1); lia).
  replace (if (slice_len (im_cols img) xa xb =? 1)%nat then 0%nat else j)
    with j by (destruct (Nat.eqb_spec (slice_len (im_cols img) xa xb) 1); lia).
  rewrite (nth_indep _ [] (py_slice xa xb []))
    by (rewrite length_map, length_py_slice, Hlen; exact Hi).
  rewrite map_nth.
  rewrite (nth_py_slice ya yb (im_px img)) by (rewrite Hlen; exact Hi).
  rewrite Hlen.
  pose proof (slice_fits (im_rows img) ya yb) as Hfit.
  assert (Hrow : length (nth (slice_start (im_rows img) ya + i) (im_px img) [])
                 = im_cols img)
    by (apply well_formed_row; [exact Hwf | lia]).
  rewrite nth_py_slice by (rewrite Hrow; exact Hj).
  rewrite Hrow. reflexivity.
Qed.

(** X11: the paste of [mask_encode].  For an image of height and width
    that are not negative, and a mask that [cv2.resize] returned with the
    [h] rows and [w] columns asked of it, the slice assignment never
    raises: the region of the canvas and the region of the mask always
    have the same shape.  The canvas has the size of the image, and its
    pixel [(y, x)] is the mask's pixel [(y - ymin, x - xmin)] where
    [(y, x)] lies in the box, and 0 elsewhere; a box that lies outside the
    image leaves the canvas empty. *)
Theorem paste_mask_pixels
  (im_h im_w xmin ymin xmax ymax : Z) (resized_mask : image) :
  (0 <= im_h)%Z -> (0 <= im_w)%Z ->
  well_formed resized_mask ->
  Z.of_nat (im_rows resized_mask) = resize_h ymin ymax ->
  Z.of_nat (im_cols resized_mask) = resize_w xmin xmax ->
  exists im_mask,
    paste_mask im_h im_w xmin ymin xmax ymax resized_mask = Ok im_mask
    /\ well_formed im_mask
    /\ im_rows im_mask = Z.to_nat im_h
    /\ im_cols im_mask = Z.to_nat im_w
    /\ forall y x,
         (0 <= y < im_h)%Z -> (0 <= x < im_w)%Z ->
         pixel im_mask y x
         = if in_box xmin ymin xmax ymax y x
           then pixel resized_mask (y - ymin) (x - xmin)
           else 0%Z.
Proof.
  intros Hh Hw Hwf Hrows Hcols.
  assert (Hr : im_rows resized_mask = Z.to_nat (Z.max (ymax - ymin + 1) 1))
    by (unfold resize_h in Hrows; lia).
  assert (Hc : im_cols resized_mask = Z.to_nat (Z.max (xmax - xmin + 1) 1))
    by (unfold resize_w in Hcols; lia).
  unfold paste_mask, np_zeros2.
  destruct (Z.ltb_spec im_h 0); [lia|]. destruct (Z.ltb_spec im_w 0); [lia|].
  cbn [orb bind]. unfold assign2.
  cbn [im_rows im_cols im_px slice2].
  rewrite Hr, Hc, !extent_same_length by assumption.
  unfold broadcasts. rewrite !Nat.eqb_refl. cbn [orb andb].
  eexists. split; [reflexivity|]. split; [|split; [reflexivity|split; [reflexivity|]]].
  - split; cbn [im_rows im_cols im_px].
    + rewrite length_mapi. apply repeat_length.
    + unfold mapi at 1. apply Forall_forall. intros row Hrow.
      apply in_map_iff in Hrow. destruct Hrow as [[i r] [<- Hin]].
      apply in_combine_r in Hin. apply repeat_spec in Hin. subst r.
      cbn [fst snd]. rewrite length_mapi. apply repeat_length.
  - intros y x Hy Hx. unfold pixel. cbn [im_px].
    rewrite (nth_mapi _ _ [] []) by (rewrite repeat_length; lia).
    rewrite nth_repeat_lt by lia.
    rewrite (nth_mapi _ _ 0%Z 0%Z) by (rewrite repeat_length; lia).
    rewrite nth_repeat_lt by lia.
    rewrite andb_pairs.
    rewrite (extent_target ymin ymax Hh Hy), (extent_target xmin xmax Hw Hx).
    unfold in_box. rewrite andb_pairs.
    destruct ((ymin <=? y)%Z && (y <=? ymax)%Z) eqn:Hiny; [|reflexivity].
    destruct ((xmin <=? x)%Z && (x <=? xmax)%Z) eqn:Hinx; [|reflexivity].
    cbn [andb].
    apply andb_true_iff in Hiny, Hinx.
    destruct Hiny as [Hy1 Hy2]. destruct Hinx as [Hx1 Hx2].
    apply Z.leb_le in Hy1, Hy2, Hx1, Hx2.
    destruct (extent_source Hh Hy (conj Hy1 Hy2)) as [Hys Hyl].
    destruct (extent_source Hw Hx (conj Hx1 Hx2)) as [Hxs Hxl].
    rewrite <- Hr in Hys, Hyl. rewrite <- Hc in Hxs, Hxl.
    rewrite slice2_at by assumption.
    rewrite Hys, Hxs. reflexivity.
Qed.

Lemma paste_mask_pixels_witness :
  exists im_mask,
    paste_mask 3 2 (-1) 1 1 2 mask_2x3 = Ok im_mask
    /\ well_formed im_mask
    /\ im_rows im_mask = Z.to_nat 3
    /\ im_cols im_mask = Z.to_nat 2
    /\ forall y x,
         (0 <= y < 3)%Z -> (0 <= x < 2)%Z ->
         pixel im_mask y x
         = if in_box (-1) 1 1 2 y x
           then pixel mask_2x3 (y - 1) (x - -1)
           else 0%Z.
Proof.
  apply (@paste_mask_pixels 3 2 (-1) 1 1 2 mask_2x3).
  - lia.
  - lia.
  - split; [reflexivity | repeat constructor].
  - reflexivity.
  - reflexivity.
Defined.

(** The box [(-1, 1, 1, 2)] on an image of 3 rows and 2 columns: the
    first column of the mask falls left of the image. *)
Lemma paste_mask_example :
  paste_mask 3 2 (-1) 1 1 2 mask_2x3
  = Ok (mkImage 3 2 [[0; 0]; [0; 1]; [1; 0]]%Z).
Proof. reflexivity. Qed.

(** ** The mirrored mask tensor *)

Lemma chunks_rev_nil (fuel width : nat) : chunks_rev fuel width [] = [].
Proof. destruct fuel; reflexivity. Qed.

Lemma chunks_rev_width0 (fuel : nat) (l : list float) :
  chunks_rev fuel 0 l = l.
Proof.
  induction fuel as [|fuel IH]; simpl; [reflexivity|].
  destruct l; [reflexivity|]. exact IH.
Qed.

Lemma chunks_rev_length (width : nat) :
  forall fuel l, (length l <= fuel)%nat ->
    length (chunks_rev fuel width l) = length l.
Proof.
  destruct width as [|w]; [intros; rewrite chunks_rev_width0; reflexivity|].
  induction fuel as [|fuel IH]; intros l Hl; [reflexivity|].
  destruct l as [|x l]; [reflexivity|].
  cbn [chunks_rev]. rewrite length_app, length_rev, IH.
  - rewrite <- length_app, firstn_skipn. reflexivity.
  - rewrite length_skipn. simpl in *. lia.
Qed.

Lemma chunks_rev_twice (width : nat) :
  forall fuel fuel' l,
    (length l <= fuel)%nat -> (length l <= fuel')%nat ->
    chunks_rev fuel' width (chunks_rev fuel width l) = l.
Proof.
  destruct width as [|w]; [intros; rewrite !chunks_rev_width0; reflexivity|].
  induction fuel as [|fuel IH]; intros fuel' l Hl Hl'.
  - destruct l; [apply chunks_rev_nil | simpl in Hl; lia].
  - destruct l as [|x l]; [apply chunks_rev_nil|].
    destruct fuel' as [|fuel']; [simpl in Hl'; lia|].
    set (xs := x :: l) in *.
    assert (Hskip : (length (skipn (S w) xs) <= fuel)%nat /\
                    (length (skipn (S w) xs) <= fuel')%nat).
    { rewrite length_skipn. subst xs. simpl in *. lia. }
    destruct Hskip as [Hs Hs'].
    change (chunks_rev (S fuel) (S w) xs)
      with (rev (firstn (S w) xs) ++ chunks_rev fuel (S w) (skipn (S w) xs)).
    destruct (rev (firstn (S w) xs) ++ chunks_rev fuel (S w) (skipn (S w) xs))
      as [|y ys] eqn:Hr.
    { apply (f_equal (@length float)) in Hr.
      rewrite length_app, length_rev in Hr. subst xs. simpl in Hr. lia. }
    change (chunks_rev (S fuel') (S w) (y :: ys))
      with (rev (firstn (S w) (y :: ys))
            ++ chunks_rev fuel' (S w) (skipn (S w) (y :: ys))).
    rewrite <- Hr.
    destruct (Nat.le_gt_cases (S w) (length xs)) as [Hfull | Hshort].
    + assert (Hlen : length (rev (firstn (S w) xs)) = S w)
        by (rewrite length_rev, length_firstn; lia).
      rewrite firstn_app, skipn_app, Hlen, Nat.sub_diag.
      rewrite (firstn_all2 (rev (firstn (S w) xs))) by lia.
      rewrite (skipn_all2 (rev (firstn (S w) xs))) by lia.
      rewrite firstn_O, skipn_O, app_nil_r, app_nil_l, rev_involutive.
      rewrite IH by assumption. apply firstn_skipn.
    + rewrite (skipn_all2 xs) by lia. rewrite chunks_rev_nil, app_nil_r.
      rewrite (firstn_all2 xs) by lia.
      rewrite firstn_all2 by (rewrite length_rev; lia).
      rewrite skipn_all2 by (rewrite length_rev; lia).
      rewrite chunks_rev_nil, app_nil_r. apply rev_involutive.
Qed.

(** X12: mirroring a mask tensor twice gives the tensor back, so that the
    masks predicted on the flipped image, mirrored by the merge, lie on
    the pixels of the original image again. *)
Theorem flip_last_axis_involutive (a : ndarray) :
  flip_last_axis (flip_last_axis a) = a.
Proof.
  destruct a as [shp xs]. unfold flip_last_axis. cbn [shape data].
  f_equal. apply chunks_rev_twice.
  - apply Nat.le_refl.
  - rewrite chunks_rev_length by apply Nat.le_refl. apply Nat.le_refl.
Qed.

Lemma chunks_rev_nth (width : nat) (r : nat) :
  (r < width)%nat ->
  forall q fuel l,
    (length l <= fuel)%nat -> (q * width + width <= length l)%nat ->
    nth (q * width + r) (chunks_rev fuel width l) F32.zero
    = nth (q * width + (width - 1 - r)) l F32.zero.
Proof.
  intros Hr. induction q as [|q IH]; intros fuel l Hl Hq.
  - destruct fuel as [|fuel]; [lia|].
    destruct l as [|x l]; [simpl in Hq; lia|].
    set (xs := x :: l) in *. 
    change (chunks_rev (S fuel) width xs)
      with (rev (firstn width xs) ++ chunks_rev fuel width (skipn width xs)).
    cbn [Nat.mul Nat.add].
    rewrite app_nth1 by (rewrite length_rev, length_firstn; lia).
    rewrite rev_nth by (rewrite length_firstn; lia).
    rewrite length_firstn, Nat.min_l by lia.
    rewrite nth_firstn.
    replace (width - S r)%nat with (width - 1 - r)%nat by lia.
    destruct (Nat.ltb_spec (width - 1 - r) width); [reflexivity | lia].
  - destruct fuel as [|fuel]; [lia|].
    destruct l as [|x l]; [simpl in Hq; lia|].
    set (xs := x :: l) in *.
    change (chunks_rev (S fuel) width xs)
      with (rev (firstn width xs) ++ chunks_rev fuel width (skipn width xs)).
    assert (Hlen : length (rev (firstn width xs)) = width)
      by (rewrite length_rev, length_firstn; lia).
    rewrite app_nth2 by lia. rewrite Hlen.
    replace (S q * width + r - width)%nat with (q * width + r)%nat by lia.
    rewrite IH.
    + rewrite nth_skipn. f_equal. lia.
    + rewrite length_skipn. lia.
    + rewrite length_skipn. lia.
Qed.

(** X13: what the mirror does.  The tensor keeps its shape, and in each
    run of [W] elements along the last axis the element at position [r] is
    the one that stood at position [W - 1 - r]. *)
Theorem flip_last_axis_mirrors (a : ndarray) (q r : nat) :
  (r < last (shape a) 1)%nat ->
  (q * last (shape a) 1 + last (shape a) 1 <= length (data a))%nat ->
  shape (flip_last_axis a) = shape a
  /\ nth (q * last (shape a) 1 + r) (data (flip_last_axis a)) F32.zero
     = nth (q * last (shape a) 1 + (last (shape a) 1 - 1 - r)) (data a)
           F32.zero.
Proof.
  intros Hr Hq. split; [reflexivity|].
  unfold flip_last_axis. cbn [data].
  apply chunks_rev_nth; [exact Hr | apply Nat.le_refl | exact Hq].
Qed.

Lemma flip_last_axis_mirrors_witness :
  shape (flip_last_axis (mkArray [1; 1; 2; 3]%nat (map F32.of_Z [1; 2; 3; 4; 5; 6]%Z)))
  = [1; 1; 2; 3]%nat
  /\ nth (1 * 3 + 0)
         (data (flip_last_axis
                  (mkArray [1; 1; 2; 3]%nat (map F32.of_Z [1; 2; 3; 4; 5; 6]%Z))))
         F32.zero
     = nth (1 * 3 + (3 - 1 - 0)) (map F32.of_Z [1; 2; 3; 4; 5; 6]%Z) F32.zero.
Proof.
  apply (@flip_last_axis_mirrors
           (mkArray [1; 1; 2; 3]%nat (map F32.of_Z [1; 2; 3; 4; 5; 6]%Z)) 1 0).
  - simpl. lia.
  - simpl. lia.
Defined.

(** ** The merge of the mask tensors *)

Lemma find_key (k : string) (result : list (string * ndarray)) :
  In k (map fst result) ->
  exists kv, find (fun kv => String.eqb (fst kv) k) result = Some kv.
Proof.
  induction result as [|[k' v] rest IH]; simpl; [contradiction|].
  intros [-> | Hin].
  - rewrite String.eqb_refl. eexists. reflexivity.
  - destruct (String.eqb k' k); [eexists; reflexivity | apply IH, Hin].
Qed.

Lemma collect_masks_none (M : nat) (result : list (string * ndarray)) :
  Forall (fun kv => is_mask_entry kv = false) result ->
  collect_masks M result = [].
Proof.
  induction 1 as [|[k masks] rest Hkv _ IH]; simpl; [reflexivity|].
  unfold is_mask_entry in Hkv. simpl in Hkv. rewrite Hkv. exact IH.
Qed.

(** X14: a result that has the image shape and no key with "mask" in it
    has nothing to average: the mean of the empty list is a scalar, and
    taking its length raises [TypeError]. *)
Theorem mstest_mask_no_mask_key (result : list (string * ndarray)) (M : nat) :
  In "im_shape"%string (map fst result) ->
  Forall (fun kv => is_mask_entry kv = false) result ->
  mstest_mask_post_process result M = Raise TypeError.
Proof.
  intros Hkey Hnone. unfold mstest_mask_post_process.
  destruct (find_key _ _ Hkey) as [kv ->].
  rewrite collect_masks_none by exact Hnone. reflexivity.
Qed.

Lemma mstest_mask_no_mask_key_witness :
  mstest_mask_post_process no_mask_keys 28 = Raise TypeError.
Proof.
  apply (@mstest_mask_no_mask_key no_mask_keys 28).
  - simpl. auto.
  - repeat constructor.
Defined.

Lemma collect_masks_valid (M : nat) (result : list (string * ndarray)) :
  Forall (fun kv => is_mask_entry kv = true -> valid_mask (snd kv) = true)
         result ->
  collect_masks M result = merged_inputs result.
Proof.
  unfold merged_inputs.
  induction 1 as [|[k masks] rest Hkv _ IH]; simpl; [reflexivity|].
  unfold is_mask_entry, valid_mask in *. simpl in *.
  destruct (contains "mask" k); simpl; [|exact IH].
  rewrite (Hkv eq_refl). simpl.
  destruct (contains "flip" k); rewrite IH; reflexivity.
Qed.

Lemma add_all_length (rest : list (list float)) :
  forall acc,
    Forall (fun b => length b = length acc) rest ->
    length (add_all acc rest) = length acc.
Proof.
  induction rest as [|b rest IH]; intros acc Hall; simpl; [reflexivity|].
  inversion Hall as [|? ? Hb Hrest]; subst.
  assert (Hlen : length (map (fun xy => fst xy + snd xy) (combine acc b))
                 = length acc)
    by (rewrite length_map, length_combine; lia).
  rewrite IH; [exact Hlen|].
  rewrite Hlen. exact Hrest.
Qed.

Lemma add_all_nth (i : nat) (rest : list (list float)) :
  forall acc,
    Forall (fun b => length b = length acc) rest ->
    (i < length acc)%nat ->
    nth i (add_all acc rest) F32.zero
    = fold_left F32.add (map (fun b => nth i b F32.zero) rest)
                (nth i acc F32.zero).
Proof.
  induction rest as [|b rest IH]; intros acc Hall Hi; simpl; [reflexivity|].
  inversion Hall as [|? ? Hb Hrest]; subst.
  assert (Hlen : length (map (fun xy => fst xy + snd xy) (combine acc b))
                 = length acc)
    by (rewrite length_map, length_combine; lia).
  rewrite IH.
  - f_equal.
    rewrite (nth_indep _ F32.zero
               ((fun xy => fst xy + snd xy) (F32.zero, F32.zero)))
      by (rewrite Hlen; exact Hi).
    rewrite (map_nth (fun xy => fst xy + snd xy)).
    rewrite combine_nth by (symmetry; exact Hb). reflexivity.
  - rewrite Hlen. exact Hrest.
  - rewrite Hlen. exact Hi.
Qed.

Lemma flip_last_axis_ok (a : ndarray) :
  array_ok a -> array_ok (flip_last_axis a).
Proof.
  unfold array_ok, flip_last_axis. cbn [shape data]. intros <-.
  apply chunks_rev_length, Nat.le_refl.
Qed.

Lemma merged_inputs_uniform (shp : list nat)
  (result : list (string * ndarray)) :
  Forall (fun kv => is_mask_entry kv = true ->
                    shape (snd kv) = shp /\ array_ok (snd kv)) result ->
  Forall (fun a => shape a = shp /\ array_ok a) (merged_inputs result).
Proof.
  unfold merged_inputs.
  induction 1 as [|kv rest Hkv _ IH]; simpl; [constructor|].
  destruct (is_mask_entry kv) eqn:Hm; [|exact IH].
  destruct (Hkv eq_refl) as [Hs Hok].
  cbn [map]. constructor; [|exact IH].
  destruct (contains "flip" (fst kv)).
  - split; [exact Hs | apply flip_last_axis_ok, Hok].
  - split; assumption.
Qed.

(** X15: the merge of mask tensors of one shape.  When every key with
    "mask" in it holds a tensor of the shape [(n, c, h, w)], and there is at
    least one, the merge returns a tensor of that shape with [n] as its
    length, and each of its elements is the mean of the elements at that
    place in the tensors (the mirrored ones mirrored back first): their sum
    from the first key to the last, over the number of tensors. *)
Theorem mstest_mask_mean
  (result : list (string * ndarray)) (M n c h w : nat) :
  In "im_shape"%string (map fst result) ->
  Forall (fun kv => is_mask_entry kv = true ->
                    shape (snd kv) = [n; c; h; w] /\ array_ok (snd kv))
         result ->
  Exists (fun kv => is_mask_entry kv = true) result ->
  exists mask_pred,
    mstest_mask_post_process result M = Ok (mask_pred, n)
    /\ shape mask_pred = [n; c; h; w]
    /\ array_ok mask_pred
    /\ forall i, (i < size_of [n; c; h; w])%nat ->
         nth i (data mask_pred) F32.zero = mean_at i (merged_inputs result).
Proof.
  intros Hkey Hall Hone. unfold mstest_mask_post_process.
  destruct (find_key _ _ Hkey) as [kv0 ->].
  rewrite collect_masks_valid.
  2:{ eapply Forall_impl; [|exact Hall]. intros kv Hkv Hm.
      destruct (Hkv Hm) as [Hs _]. unfold valid_mask. rewrite Hs. reflexivity. }
  pose proof (merged_inputs_uniform Hall) as Huni.
  destruct (merged_inputs result) as [|a rest] eqn:Hmerged.
  { exfalso. apply Exists_exists in Hone. destruct Hone as [kv [Hin Hm]].
    unfold merged_inputs in Hmerged.
    assert (Hf : In kv (filter is_mask_entry result))
      by (apply filter_In; split; assumption).
    destruct (filter is_mask_entry result); [contradiction | discriminate]. }
  inversion Huni as [|? ? [Hsa Hoka] Hrest]; subst.
  unfold np_mean.
  assert (Hshapes : forallb (fun b => shape_eqb (shape b) (shape a)) rest = true).
  { apply forallb_forall. intros b Hb. rewrite Forall_forall in Hrest.
    destruct (Hrest b Hb) as [-> _]. rewrite Hsa. apply shape_eqb_refl. }
  rewrite Hshapes. cbn [bind]. unfold np_len. cbn [shape]. rewrite Hsa.
  cbn [bind].
  assert (Hlens : Forall (fun b => length b = length (data a)) (map data rest)).
  { apply Forall_forall. intros b Hb. apply in_map_iff in Hb.
    destruct Hb as [b' [<- Hb']]. rewrite Forall_forall in Hrest.
    destruct (Hrest b' Hb') as [Hs Hok]. unfold array_ok in *.
    rewrite Hok, Hoka, Hs, Hsa. reflexivity. }
  eexists. split; [reflexivity|]. split; [reflexivity|]. split.
  - unfold array_ok. cbn [shape data].
    rewrite length_map, add_all_length by exact Hlens.
    rewrite Hoka, Hsa. reflexivity.
  - intros i Hi. cbn [data]. unfold mean_at.
    assert (Hi' : (i < length (data a))%nat) by (rewrite Hoka, Hsa; exact Hi).
    set (count := F32.of_Z (Z.of_nat (length (a :: rest)))).
    rewrite (nth_indep _ F32.zero ((fun t => t / count) F32.zero))
      by (rewrite length_map, add_all_length by exact Hlens; exact Hi').
    rewrite (map_nth (fun t => t / count)).
    rewrite add_all_nth by assumption. rewrite map_map. reflexivity.
Qed.

Lemma mstest_mask_mean_witness :
  exists mask_pred,
    mstest_mask_post_process two_scales 1 = Ok (mask_pred, 1%nat)
    /\ shape mask_pred = [1; 1; 1; 2]%nat
    /\ array_ok mask_pred
    /\ forall i, (i < size_of [1; 1; 1; 2]%nat)%nat ->
         nth i (data mask_pred) F32.zero = mean_at i (merged_inputs two_scales).
Proof.
  apply (@mstest_mask_mean two_scales 1 1 1 1 2).
  - simpl. auto.
  - repeat constructor; simpl; intros; discriminate.
  - right. left. reflexivity.
Defined.

(** The two tensors of [two_scales] merged: the second one is mirrored,
    and each element is the mean of two. *)
Lemma mstest_mask_mean_example :
  mstest_mask_post_process two_scales 1
  = Ok (mkArray [1; 1; 1; 2]%nat [F32.lit 1 4; F32.lit 5 8], 1%nat).
Proof. vm_compute. reflexivity. Qed.

(** ** The merge of the boxes of several transforms *)


Lemma collect_boxes_none (all : list (string * ndarray))
  (im_shape : list (list float)) (num_classes : nat) :
  forall keys,
    Forall (fun kv => contains "bbox" (fst kv) = false) keys ->
    collect_boxes keys all im_shape num_classes = Ok ([], [], false).
Proof.
  induction 1 as [|[k v] rest Hk _ IH]; cbn [collect_boxes]; [reflexivity|].
  cbn [fst] in Hk. rewrite Hk. exact IH.
Qed.

Lemma collect_boxes_app (all : list (string * ndarray))
  (im_shape : list (list float)) (num_classes : nat) :
  forall before after,
    Forall (fun kv => contains "bbox" (fst kv) = false) before ->
    collect_boxes (before ++ after) all im_shape num_classes
    = collect_boxes after all im_shape num_classes.
Proof.
  induction 1 as [|[k v] rest Hk _ IH]; [reflexivity|].
  cbn [app collect_boxes]. cbn [fst] in Hk. rewrite Hk. exact IH.
Qed.

Lemma get_item_present (result : list (string * ndarray)) (k : string) :
  In k (map fst result) -> exists a, get_item result k = Ok a.
Proof.
  intros Hin. unfold get_item.
  destruct (find_key _ _ Hin) as [kv ->]. eexists. reflexivity.
Qed.

Lemma get_item_absent (result : list (string * ndarray)) (k : string) :
  ~ In k (map fst result) -> get_item result k = Raise KeyError.
Proof.
  intros Hnot. unfold get_item.
  destruct (find _ result) as [kv|] eqn:Hfind; [|reflexivity].
  apply find_some in Hfind. destruct Hfind as [Hin Heq].
  apply String.eqb_eq in Heq. exfalso. apply Hnot. subst k.
  apply in_map, Hin.
Qed.

Lemma collect_boxes_no_class (all : list (string * ndarray))
  (im_shape : list (list float)) :
  forall keys,
    collect_boxes keys all im_shape 0 = Ok ([], [], false)
    \/ collect_boxes keys all im_shape 0 = Raise ValueError.
Proof.
  induction keys as [|[k v] rest IH]; cbn [collect_boxes]; [left; reflexivity|].
  destruct (contains "bbox" k); [|exact IH].
  right. reflexivity.
Qed.




(** The two transforms of [two_transforms] merged: the box seen on the
    flipped image, mirrored back, lies 90 pixels from the other one and
    survives beside it. *)
Lemma mstest_box_example :
  mstest_box_post_process 0 two_transforms plain_config 2
  = Ok (mkPostBbox
          ([mkLdet F32.one (int_det (F32.lit 9 10) 10 10 50 50);
            mkLdet F32.one (int_det (F32.lit 8 10) 200 200 300 300)], 2%nat)
          (Some ([[F32.one; F32.lit 9 10; F32.of_Z 589; F32.of_Z 10;
                   F32.of_Z 629; F32.of_Z 50];
                  [F32.one; F32.lit 8 10; F32.of_Z 339; F32.of_Z 200;
                   F32.of_Z 439; F32.of_Z 300]], 2%nat))).
Proof. vm_compute. reflexivity. Qed.

(** X17: [mstest_box_post_process] with nothing to merge.  On a result
    that has the image shape, it raises [ValueError] when no key has
    "bbox" in it (there is nothing to concatenate) and when
    [num_classes = 0] (no array reshapes to rows of no column). *)
Theorem mstest_box_nothing_to_merge
  (fuel : nat) (result : list (string * ndarray)) (cfg : config)
  (num_classes : nat) :
  In "im_shape"%string (map fst result) ->
  Forall (fun kv => contains "bbox" (fst kv) = false) result
  \/ num_classes = 0%nat ->
  mstest_box_post_process fuel result cfg num_classes = Raise ValueError.
Proof.
  intros Hkey Hcase. unfold mstest_box_post_process.
  destruct (get_item_present _ _ Hkey) as [im ->]. cbn [bind].
  destruct Hcase as [Hnone | ->].
  - rewrite collect_boxes_none by exact Hnone. reflexivity.
  - destruct (collect_boxes_no_class result (rows_of im) result) as [-> | ->];
      reflexivity.
Qed.

Lemma mstest_box_nothing_to_merge_witness :
  mstest_box_post_process 0 boxes_only plain_config 0 = Raise ValueError.
Proof.
  apply (@mstest_box_nothing_to_merge 0 boxes_only plain_config 0).
  - simpl. auto.
  - right. reflexivity.
Defined.

(** X18: boxes without their scores.  When the first key with "bbox" in
    it holds an array that reshapes to rows of [4 * num_classes] columns,
    and the result has no key made of "score" and what follows the first
    four characters of that key, [mstest_box_post_process] raises
    [KeyError]. *)
Theorem mstest_box_missing_scores
  (fuel : nat) (result : list (string * ndarray)) (cfg : config)
  (num_classes : nat) (before after : list (string * ndarray))
  (k : string) (v : ndarray) :
  In "im_shape"%string (map fst result) ->
  result = before ++ (k, v) :: after ->
  Forall (fun kv => contains "bbox" (fst kv) = false) before ->
  contains "bbox" k = true ->
  (1 <= num_classes)%nat ->
  (length (data v) mod (4 * num_classes) = 0)%nat ->
  ~ In (String.append "score" (string_drop 4 k)) (map fst result) ->
  mstest_box_post_process fuel result cfg num_classes = Raise KeyError.
Proof.
  intros Hkey Hsplit Hbefore Hk Hnc Hmod Hscore.
  unfold mstest_box_post_process.
  destruct (get_item_present _ _ Hkey) as [im ->]. cbn [bind].
  rewrite Hsplit at 1. rewrite collect_boxes_app by exact Hbefore.
  cbn [collect_boxes]. rewrite Hk. unfold reshape_rows.
  destruct (Nat.eqb_spec (4 * num_classes) 0) as [Hz | _]; [lia|].
  rewrite Hmod. cbn [Nat.eqb negb orb bind].
  rewrite get_item_absent by exact Hscore. reflexivity.
Qed.

Lemma mstest_box_missing_scores_witness :
  mstest_box_post_process 0 boxes_only plain_config 2 = Raise KeyError.
Proof.
  apply (@mstest_box_missing_scores 0 boxes_only plain_config 2
           [("im_shape"%string,
             mkArray [1; 3]%nat [F32.of_Z 480; F32.of_Z 640; F32.one])]
           [] "bbox"%string
           (mkArray [1; 8]%nat (map F32.of_Z [0; 0; 0; 0; 10; 10; 50; 50]%Z))).
  - simpl. auto.
  - reflexivity.
  - repeat constructor.
  - reflexivity.
  - lia.
  - reflexivity.
  - simpl. intros [H | [H | H]]; try discriminate H. exact H.
Defined.


(** * Greedy NMS as numpy computes it *)

(** ** Arrangements of the row indices *)

Section Arrangement.
Variable n : nat.
Variable order : list nat.
Hypothesis order_ok : is_arrangement n order = true.

Lemma arrangement_length : length order = n.
Proof.
  unfold is_arrangement in order_ok. apply andb_true_iff in order_ok.
  apply Nat.eqb_eq, order_ok.
Qed.

Lemma arrangement_perm : Permutation (seq 0 n) order.
Proof.
  apply NoDup_Permutation_bis.
  - apply seq_NoDup.
  - rewrite arrangement_length, length_seq. apply Nat.le_refl.
  - unfold is_arrangement in order_ok. apply andb_true_iff in order_ok.
    destruct order_ok as [_ Hall]. rewrite forallb_forall in Hall.
    intros i Hi. specialize (Hall i Hi). apply existsb_exists in Hall.
    destruct Hall as [j [Hj Heq]]. apply Nat.eqb_eq in Heq. subst j. exact Hj.
Qed.

Lemma arrangement_range (a : nat) :
  (a < n)%nat -> (nth a order 0 < n)%nat.
Proof.
  intros Ha.
  assert (Hin : In (nth a order 0%nat) order)
    by (apply nth_In; rewrite arrangement_length; exact Ha).
  apply (Permutation_in _ (Permutation_sym arrangement_perm)) in Hin.
  apply in_seq in Hin. lia.
Qed.

Lemma arrangement_inj (a b : nat) :
  (a < n)%nat -> (b < n)%nat ->
  nth a order 0%nat = nth b order 0%nat -> a = b.
Proof.
  intros Ha Hb. apply NoDup_nth; try (rewrite arrangement_length; assumption).
  apply (Permutation_NoDup arrangement_perm). apply seq_NoDup.
Qed.

Lemma arrangement_index (k : nat) :
  (k < n)%nat -> exists b, (b < n)%nat /\ nth b order 0%nat = k.
Proof.
  intros Hk.
  assert (Hin : In k order).
  { apply (Permutation_in _ arrangement_perm). apply in_seq. lia. }
  destruct (In_nth _ _ 0%nat Hin) as [b [Hb Heq]].
  exists b. rewrite arrangement_length in Hb. split; assumption.
Qed.

End Arrangement.

(** ** The suppression flags *)

Lemma upd_keeps_one (j k : nat) (l : list Z) :
  nth k l 0%Z = 1%Z -> nth k (upd j 1%Z l) 0%Z = 1%Z.
Proof.
  revert j k; induction l as [|h t IH]; intros [|j] [|k] H; simpl in *; auto.
Qed.

Lemma upd_sets (j : nat) (v : Z) (l : list Z) :
  (j < length l)%nat -> nth j (upd j v l) 0%Z = v.
Proof.
  revert j; induction l as [|h t IH]; intros [|j] H; simpl in *; try lia; auto.
  apply IH. lia.
Qed.

Lemma upd_other (j k : nat) (v : Z) (l : list Z) :
  j <> k -> nth k (upd j v l) 0%Z = nth k l 0%Z.
Proof.
  revert j k; induction l as [|h t IH]; intros [|j] [|k] H; simpl; auto;
    try congruence.
Qed.

Section FoldFlags.
Variable F : list Z -> nat -> list Z.

Lemma fold_mono :
  (forall sup x k, nth k sup 0%Z = 1%Z -> nth k (F sup x) 0%Z = 1%Z) ->
  forall xs sup k,
    nth k sup 0%Z = 1%Z -> nth k (fold_left F xs sup) 0%Z = 1%Z.
Proof.
  intros Hmono. induction xs as [|x xs IH]; intros sup k H; simpl; auto.
Qed.

Lemma fold_untouched (k : nat) :
  forall xs,
    (forall sup x, In x xs -> nth k (F sup x) 0%Z = nth k sup 0%Z) ->
    forall sup, nth k (fold_left F xs sup) 0%Z = nth k sup 0%Z.
Proof.
  induction xs as [|x xs IH]; intros H sup; simpl; [reflexivity|].
  rewrite IH; [apply H; left; reflexivity|].
  intros sup' y Hy. apply H. right. exact Hy.
Qed.

Lemma fold_length :
  (forall sup x, length (F sup x) = length sup) ->
  forall xs sup, length (fold_left F xs sup) = length sup.
Proof.
  intros Hlen. induction xs as [|x xs IH]; intros sup; simpl; auto.
  rewrite IH. apply Hlen.
Qed.

End FoldFlags.

Section NmsLoopFacts.
Variable dets : list det.
Variable thresh : F64.float.
Variable order : list nat.

Abbreviation istep := (inner_step dets thresh order).
Abbreviation ostep := (outer_step dets thresh order).

Lemma walk_inner_fold (_i : nat) (sup : list Z) :
  walk_inner dets thresh order _i sup
  = fold_left (istep _i) (seq (S _i) (ndets dets - S _i)) sup.
Proof. reflexivity. Qed.

Lemma walk_outer_fold (sup : list Z) :
  walk_outer dets thresh order sup = fold_left ostep (seq 0 (ndets dets)) sup.
Proof. reflexivity. Qed.

Lemma istep_mono (_i : nat) (sup : list Z) (x k : nat) :
  nth k sup 0%Z = 1%Z -> nth k (istep _i sup x) 0%Z = 1%Z.
Proof.
  intros H. unfold inner_step.
  destruct (nth (nth x order 0%nat) sup 0 =? 1)%Z; auto.
  destruct (F64.geb _ thresh); auto using upd_keeps_one.
Qed.

Lemma istep_length (_i : nat) (sup : list Z) (x : nat) :
  length (istep _i sup x) = length sup.
Proof.
  unfold inner_step.
  destruct (nth (nth x order 0%nat) sup 0 =? 1)%Z; auto.
  destruct (F64.geb _ thresh); auto using upd_length.
Qed.

Lemma inner_mono (_i : nat) (sup : list Z) (k : nat) :
  nth k sup 0%Z = 1%Z -> nth k (walk_inner dets thresh order _i sup) 0%Z = 1%Z.
Proof. rewrite walk_inner_fold. apply fold_mono, istep_mono. Qed.

Lemma walk_inner_length (_i : nat) (sup : list Z) :
  length (walk_inner dets thresh order _i sup) = length sup.
Proof.
  rewrite walk_inner_fold. apply fold_length. intros. apply istep_length.
Qed.

Lemma ostep_mono (sup : list Z) (x k : nat) :
  nth k sup 0%Z = 1%Z -> nth k (ostep sup x) 0%Z = 1%Z.
Proof.
  intros H. unfold outer_step.
  destruct (nth (nth x order 0%nat) sup 0 =? 1)%Z; auto using inner_mono.
Qed.

Lemma ostep_length (sup : list Z) (x : nat) :
  length (ostep sup x) = length sup.
Proof.
  unfold outer_step.
  destruct (nth (nth x order 0%nat) sup 0 =? 1)%Z;
    auto using walk_inner_length.
Qed.

(** After the inner loop of box [i], every later box of the walk is
    flagged or overlaps [i] by less than the threshold. *)
Lemma inner_post (_i : nat) :
  forall js sup x,
    In x js ->
    (nth x order 0 < length sup)%nat ->
    nth (nth x order 0%nat) (fold_left (istep _i) js sup) 0%Z = 1%Z
    \/ reaches dets thresh (nth _i order 0%nat) (nth x order 0%nat) = false.
Proof.
  induction js as [|y js IH]; intros sup x Hin Hlen; [contradiction|].
  simpl. destruct Hin as [-> | Hin].
  - assert (Hstep :
      nth (nth x order 0%nat) (istep _i sup x) 0%Z = 1%Z
      \/ reaches dets thresh (nth _i order 0%nat) (nth x order 0%nat) = false).
    { unfold inner_step, reaches.
      destruct (Z.eqb_spec (nth (nth x order 0%nat) sup 0%Z) 1); auto.
      destruct (F64.geb _ thresh); auto using upd_sets. }
    destruct Hstep as [H1 | H0]; [left | right; exact H0].
    apply fold_mono; auto using istep_mono.
  - apply IH; auto. rewrite istep_length. exact Hlen.
Qed.

(** A flag is written only by the inner loop of an earlier position of
    the walk. *)
Lemma istep_untouched (_i : nat) (sup : list Z) (x k : nat) :
  nth x order 0%nat <> k -> nth k (istep _i sup x) 0%Z = nth k sup 0%Z.
Proof.
  intros H. unfold inner_step.
  destruct (nth (nth x order 0%nat) sup 0 =? 1)%Z; auto.
  destruct (F64.geb _ thresh); auto using upd_other.
Qed.

End NmsLoopFacts.

(** ** What greedy NMS keeps *)

Lemma where_in {A : Type} (p : A -> bool) (d : A) (l : list A) :
  forall start k,
    In k (where_from p start l)
    <-> (start <= k < start + length l)%nat /\ p (nth (k - start) l d) = true.
Proof.
  induction l as [|h t IH]; intros start k; simpl.
  - split; [contradiction | lia].
  - assert (Hrec := IH (S start) k).
    destruct (p h) eqn:Hp; simpl; rewrite ?Hrec.
    + split.
      * intros [<- | [Hr Hk]].
        -- rewrite Nat.sub_diag. split; [lia | exact Hp].
        -- split; [lia|]. destruct (k - start)%nat as [|m] eqn:Hm; [lia|].
           replace (k - S start)%nat with m in Hk by lia. exact Hk.
      * intros [Hr Hk]. destruct (k - start)%nat as [|m] eqn:Hm.
        -- left. lia.
        -- right. split; [lia|].
           replace (k - S start)%nat with m by lia. exact Hk.
    + split.
      * intros [Hr Hk]. split; [lia|].
        destruct (k - start)%nat as [|m] eqn:Hm; [lia|].
        replace (k - S start)%nat with m in Hk by lia. exact Hk.
      * intros [Hr Hk]. destruct (k - start)%nat as [|m] eqn:Hm.
        -- congruence.
        -- split; [lia|]. replace (k - S start)%nat with m by lia. exact Hk.
Qed.

Lemma seq_split_at (a n : nat) :
  (a < n)%nat -> seq 0 n = seq 0 a ++ a :: seq (S a) (n - S a).
Proof.
  intros H. replace n with (a + S (n - S a))%nat at 1 by lia.
  rewrite seq_app. reflexivity.
Qed.


Lemma walk_keep_survives (order : list nat) (dets : list det)
  (thresh : F64.float) (k : nat) :
  In k (np_where (fun s => (s =? 0)%Z) (walk_suppressed order dets thresh))
  <-> (k < length dets)%nat /\ walk_survives order dets thresh k.
Proof.
  unfold np_where, walk_survives.
  rewrite (where_in _ 0%Z).
  assert (Hlen : length (walk_suppressed order dets thresh) = length dets).
  { unfold walk_suppressed. rewrite walk_outer_fold.
    rewrite fold_length by (intros; apply ostep_length).
    apply repeat_length. }
  rewrite Hlen, Nat.sub_0_r, Z.eqb_eq.
  split; intros [H1 H2]; split; auto; lia.
Qed.

Lemma walk_suppressed_fold (order : list nat) (dets : list det)
  (thresh : F64.float) :
  walk_suppressed order dets thresh
  = fold_left (outer_step dets thresh order)
              (seq 0 (length dets)) (repeat 0%Z (length dets)).
Proof. reflexivity. Qed.

(** X1: no two survivors of [nms] overlap by the threshold or more,
    whichever arrangement of the rows [scores.argsort()[::-1]] is: for two
    rows that both survive, the overlap computed for the one that comes
    first in the walk against the other, in the widths numpy computes it
    in, does not reach [thresh]. *)
Theorem nms_survivors_apart
  (order : list nat) (dets : list det) (thresh : F64.float) (a b : nat) :
  is_arrangement (length dets) order = true ->
  (a < b < length dets)%nat ->
  walk_survives order dets thresh (nth a order 0%nat) ->
  walk_survives order dets thresh (nth b order 0%nat) ->
  F64.geb (nms_ovr64 (nth (nth a order 0%nat) dets det0)
                     (nth (nth b order 0%nat) dets det0)) thresh = false.
Proof.
  intros Hord Hab Ha Hb. unfold walk_survives in *.
  rewrite walk_suppressed_fold in *.
  set (n := length dets) in *.
  rewrite (@seq_split_at a n) in * by lia.
  rewrite fold_left_app in *. cbn [fold_left] in *.
  set (sup_a := fold_left (outer_step dets thresh order) (seq 0 a) _) in *.
  assert (Hlen : length sup_a = n).
  { unfold sup_a. rewrite fold_length by (intros; apply ostep_length).
    apply repeat_length. }
  unfold outer_step at 2 in Ha. unfold outer_step at 2 in Hb.
  destruct (Z.eqb_spec (nth (nth a order 0%nat) sup_a 0%Z) 1) as [H1 | Hn1].
  - rewrite (fold_mono _ (ostep_mono dets thresh order) _ _ _ H1) in Ha.
    discriminate.
  - rewrite walk_inner_fold in Hb.
    destruct (@inner_post dets thresh order a
                (seq (S a) (ndets dets - S a)) sup_a b) as [Hflag | Hovr].
    + apply in_seq. unfold ndets. fold n. lia.
    + rewrite Hlen. apply (@arrangement_range _ _ Hord). lia.
    + rewrite (fold_mono _ (ostep_mono dets thresh order) _ _ _ Hflag) in Hb.
      discriminate.
    + exact Hovr.
Qed.

Lemma nms_survivors_apart_witness :
  F64.geb (nms_ovr64 (nth 0 three_boxes det0) (nth 2 three_boxes det0))
          half64 = false.
Proof.
  apply (@nms_survivors_apart [0; 1; 2]%nat three_boxes half64 0 2).
  - reflexivity.
  - simpl. lia.
  - vm_compute. reflexivity.
  - vm_compute. reflexivity.
Defined.

Section NmsWrites.
Variable dets : list det.
Variable thresh : F64.float.
Variable order : list nat.
Hypothesis order_ok : is_arrangement (length dets) order = true.

Abbreviation n := (length dets).

(** The inner loop of position [x] leaves the flags of the positions up
    to [x] alone. *)
Lemma inner_untouched (x a : nat) (sup : list Z) :
  (a <= x)%nat -> (a < n)%nat ->
  nth (nth a order 0%nat) (walk_inner dets thresh order x sup) 0%Z
  = nth (nth a order 0%nat) sup 0%Z.
Proof.
  intros Hax Han. rewrite walk_inner_fold. apply fold_untouched.
  intros sup' y Hy. apply in_seq in Hy. unfold ndets in Hy.
  apply istep_untouched. intros Heq.
  apply (@arrangement_inj _ _ order_ok) in Heq; lia.
Qed.

Lemma outer_untouched (a : nat) (xs : list nat) (sup : list Z) :
  (a < n)%nat -> Forall (fun x => (a <= x)%nat) xs ->
  nth (nth a order 0%nat) (fold_left (outer_step dets thresh order) xs sup) 0%Z
  = nth (nth a order 0%nat) sup 0%Z.
Proof.
  intros Han Hxs. apply fold_untouched.
  intros sup' x Hx. rewrite Forall_forall in Hxs. specialize (Hxs x Hx).
  unfold outer_step.
  destruct (nth (nth x order 0%nat) sup' 0 =? 1)%Z; [reflexivity|].
  apply inner_untouched; assumption.
Qed.

Lemma flags_binary_upd (j : nat) (l : list Z) :
  (forall k, nth k l 0%Z = 0%Z \/ nth k l 0%Z = 1%Z) ->
  forall k, nth k (upd j 1%Z l) 0%Z = 0%Z \/ nth k (upd j 1%Z l) 0%Z = 1%Z.
Proof.
  intros H k. destruct (Nat.eq_dec j k) as [<- | Hne].
  - destruct (H j) as [H0 | H1]; [|right; apply upd_keeps_one, H1].
    destruct (Nat.lt_ge_cases j (length l)) as [Hlt | Hge].
    + right. apply upd_sets, Hlt.
    + left. rewrite nth_overflow; [reflexivity|]. rewrite upd_length. exact Hge.
  - rewrite upd_other by exact Hne. apply H.
Qed.

Lemma flags_binary (k : nat) :
  nth k (walk_suppressed order dets thresh) 0%Z = 0%Z
  \/ nth k (walk_suppressed order dets thresh) 0%Z = 1%Z.
Proof.
  revert k. rewrite walk_suppressed_fold.
  generalize (seq 0 n) as xs.
  assert (Hinit : forall k, nth k (repeat 0%Z n) 0%Z = 0%Z
                            \/ nth k (repeat 0%Z n) 0%Z = 1%Z).
  { intros k. left. destruct (Nat.lt_ge_cases k n).
    - apply nth_repeat_lt; assumption.
    - apply nth_overflow. rewrite repeat_length. assumption. }
  revert Hinit. generalize (repeat 0%Z n) as sup.
  intros sup Hsup xs. revert sup Hsup.
  induction xs as [|x xs IH]; intros sup Hsup; simpl; [exact Hsup|].
  apply IH. unfold outer_step.
  destruct (nth (nth x order 0%nat) sup 0 =? 1)%Z; [exact Hsup|].
  rewrite walk_inner_fold.
  generalize (seq (S x) (ndets dets - S x)) as js.
  intros js. revert sup Hsup.
  induction js as [|y js IHj]; intros sup Hsup; simpl; [exact Hsup|].
  apply IHj. unfold inner_step.
  destruct (nth (nth y order 0%nat) sup 0 =? 1)%Z; [exact Hsup|].
  destruct (F64.geb _ thresh); [|exact Hsup].
  apply flags_binary_upd, Hsup.
Qed.

End NmsWrites.

(** X2: greedy NMS never returns nothing for a non-empty array,
    whichever arrangement of the rows [scores.argsort()[::-1]] is: the
    first row of the walk is never suppressed, so it is in the output;
    and when the scores are numbers that descend along the walk, it holds
    a maximal score. *)
Theorem nms_keeps_top
  (order : list nat) (dets : list det) (thresh : F64.float) :
  is_arrangement (length dets) order = true ->
  dets <> [] ->
  exists k,
    k = nth 0 order 0%nat
    /\ (k < length dets)%nat
    /\ walk_survives order dets thresh k
    /\ In (nth k dets det0) (nms_walk order dets thresh)
    /\ (scores_ok dets -> by_descending_score dets order = true ->
        Forall (fun d => F32.leb (score d) (score (nth k dets det0)) = true)
               dets).
Proof.
  intros Hord Hne. exists (nth 0 order 0%nat).
  assert (Hpos : (0 < length dets)%nat)
    by (destruct dets; [congruence | simpl; lia]).
  assert (Hk : (nth 0 order 0 < length dets)%nat)
    by (apply (@arrangement_range _ _ Hord), Hpos).
  assert (Hs : walk_survives order dets thresh (nth 0 order 0%nat)).
  { unfold walk_survives. rewrite walk_suppressed_fold.
    rewrite (@outer_untouched dets thresh order Hord).
    - apply nth_repeat_lt. exact Hk.
    - exact Hpos.
    - apply Forall_forall. intros x _. lia. }
  split; [reflexivity|]. split; [exact Hk|]. split; [exact Hs|]. split.
  - unfold nms_walk. destruct dets as [|d ds]; [congruence|].
    change (length (d :: ds) =? 0)%nat with false. cbv iota.
    unfold take_rows.
    apply (in_map (fun k => nth k (d :: ds) det0)).
    apply walk_keep_survives. split; assumption.
  - intros Hok Hdesc. unfold by_descending_score in Hdesc.
    pose proof (@arrangement_length _ _ Hord) as Hlen.
    destruct order as [|k rest]; [simpl in Hlen; lia|].
    cbn [map] in Hdesc. apply descending_head in Hdesc.
    rewrite Forall_forall in Hdesc. cbn [nth].
    apply Forall_forall. intros d Hd.
    destruct (In_nth _ _ det0 Hd) as [j [Hj <-]].
    destruct (@arrangement_index _ _ Hord _ Hj) as [b [Hb Hbj]].
    destruct b as [|b]; cbn [nth] in Hbj.
    + subst j. apply F32Facts.leb_refl.
      unfold scores_ok in Hok. rewrite Forall_forall in Hok.
      apply Hok, nth_In. exact Hk.
    + apply Hdesc. subst j.
      apply (in_map (fun i => score (nth i dets det0))).
      apply nth_In. simpl in Hlen. lia.
Qed.

Lemma nms_keeps_top_witness :
  exists k,
    k = nth 0 [0; 1; 2]%nat 0%nat
    /\ (k < length three_boxes)%nat
    /\ walk_survives [0; 1; 2]%nat three_boxes half64 k
    /\ In (nth k three_boxes det0) (nms_walk [0; 1; 2]%nat three_boxes half64)
    /\ (scores_ok three_boxes ->
        by_descending_score three_boxes [0; 1; 2]%nat = true ->
        Forall (fun d => F32.leb (score d) (score (nth k three_boxes det0))
                         = true) three_boxes).
Proof.
  apply (@nms_keeps_top [0; 1; 2]%nat three_boxes half64).
  - reflexivity.
  - discriminate.
Defined.

Section NmsSuppressors.
Variable dets : list det.
Variable thresh : F64.float.
Variable order : list nat.
Hypothesis order_ok : is_arrangement (length dets) order = true.

Abbreviation n := (length dets).
Abbreviation Q := (flagged_by_earlier order dets thresh).

Lemma istep_inv (m y : nat) (sup : list Z) :
  (m < y < n)%nat -> length sup = n ->
  Q (S m) sup -> nth (nth m order 0%nat) sup 0%Z <> 1%Z ->
  Q (S m) (inner_step dets thresh order m sup y)
  /\ nth (nth m order 0%nat) (inner_step dets thresh order m sup y) 0%Z <> 1%Z.
Proof.
  intros Hmy Hlen HQ Hm. unfold inner_step.
  destruct (Z.eqb_spec (nth (nth y order 0%nat) sup 0%Z) 1) as [_|_];
    [split; assumption|].
  destruct (F64.geb (nms_ovr64 _ _) thresh) eqn:Hovr; [|split; assumption].
  assert (Hne : forall a, (a <= m)%nat ->
                  nth y order 0%nat <> nth a order 0%nat).
  { intros a Ha Heq. apply (@arrangement_inj _ _ order_ok) in Heq; lia. }
  split.
  - intros k Hk. destruct (Nat.eq_dec (nth y order 0%nat) k) as [<- | Hky].
    + exists m, y. repeat split; try lia.
      * rewrite upd_other by (apply Hne; lia). exact Hm.
      * exact Hovr.
    + rewrite upd_other in Hk by exact Hky.
      destruct (HQ k Hk) as [a [b [Ha [Hab [Hb [Hfa Ho]]]]]].
      exists a, b. repeat split; try lia; try assumption.
      rewrite upd_other by (apply Hne; lia). exact Hfa.
  - rewrite upd_other by (apply Hne; lia). exact Hm.
Qed.

Lemma inner_inv (m : nat) :
  forall js sup,
    Forall (fun y => (m < y < n)%nat) js -> length sup = n ->
    Q (S m) sup -> nth (nth m order 0%nat) sup 0%Z <> 1%Z ->
    Q (S m) (fold_left (inner_step dets thresh order m) js sup).
Proof.
  induction js as [|y js IH]; intros sup Hjs Hlen HQ Hm; simpl; [exact HQ|].
  inversion Hjs as [|? ? Hy Hrest]; subst.
  destruct (istep_inv Hy Hlen HQ Hm) as [HQ' Hm'].
  apply IH; auto. rewrite istep_length. exact Hlen.
Qed.

Lemma ostep_inv (m : nat) (sup : list Z) :
  (m < n)%nat -> length sup = n ->
  Q m sup -> Q (S m) (outer_step dets thresh order sup m).
Proof.
  intros Hm Hlen HQ.
  assert (HQ' : Q (S m) sup).
  { intros k Hk. destruct (HQ k Hk) as [a [b [Ha H]]].
    exists a, b. split; [lia | exact H]. }
  unfold outer_step.
  destruct (Z.eqb_spec (nth (nth m order 0%nat) sup 0%Z) 1) as [_|Hne];
    [exact HQ'|].
  rewrite walk_inner_fold. apply inner_inv; auto.
  apply Forall_forall. intros y Hy. apply in_seq in Hy. unfold ndets in Hy.
  lia.
Qed.

Lemma outer_inv (len : nat) :
  forall m sup,
    (m + len <= n)%nat -> length sup = n ->
    Q m sup ->
    Q (m + len) (fold_left (outer_step dets thresh order) (seq m len) sup).
Proof.
  induction len as [|len IH]; intros m sup Hn Hlen HQ; simpl.
  - rewrite Nat.add_0_r. exact HQ.
  - replace (m + S len)%nat with (S m + len)%nat by lia.
    apply IH; [lia | rewrite ostep_length; exact Hlen |].
    apply ostep_inv; auto. lia.
Qed.

End NmsSuppressors.

(** X3: greedy NMS suppresses a row only against a survivor, whichever
    arrangement of the rows [scores.argsort()[::-1]] is: every row left
    out of the output comes later in the walk than some surviving row
    whose overlap with it, in the widths numpy computes it in, reaches
    [thresh]. *)
Theorem nms_suppressed_by_survivor
  (order : list nat) (dets : list det) (thresh : F64.float) (k : nat) :
  is_arrangement (length dets) order = true ->
  nth k (walk_suppressed order dets thresh) 0%Z = 1%Z ->
  exists a b,
    (a < b < length dets)%nat
    /\ nth b order 0%nat = k
    /\ walk_survives order dets thresh (nth a order 0%nat)
    /\ F64.geb (nms_ovr64 (nth (nth a order 0%nat) dets det0)
                          (nth k dets det0)) thresh = true.
Proof.
  intros Hord Hk.
  assert (HQ : flagged_by_earlier order dets thresh (0 + length dets)
                 (walk_suppressed order dets thresh)).
  { rewrite walk_suppressed_fold. apply (@outer_inv dets thresh order Hord).
    - lia.
    - apply repeat_length.
    - intros j Hj. exfalso.
      destruct (Nat.lt_ge_cases j (length dets)).
      + rewrite nth_repeat_lt in Hj by assumption. discriminate.
      + rewrite nth_overflow in Hj by (rewrite repeat_length; assumption).
        discriminate. }
  destruct (HQ k Hk) as [a [b [_ [Hab [Hb [Ha Hovr]]]]]].
  exists a, b. split; [exact Hab|]. split; [exact Hb|]. split.
  - unfold walk_survives.
    destruct (@flags_binary dets thresh order (nth a order 0%nat));
      congruence.
  - rewrite <- Hb. exact Hovr.
Qed.

Lemma nms_suppressed_by_survivor_witness :
  exists a b,
    (a < b < length three_boxes)%nat
    /\ nth b [0; 1; 2]%nat 0%nat = 1%nat
    /\ walk_survives [0; 1; 2]%nat three_boxes half64
         (nth a [0; 1; 2]%nat 0%nat)
    /\ F64.geb (nms_ovr64 (nth (nth a [0; 1; 2]%nat 0%nat) three_boxes det0)
                          (nth 1 three_boxes det0)) half64 = true.
Proof.
  apply (@nms_suppressed_by_survivor [0; 1; 2]%nat three_boxes half64 1).
  - reflexivity.
  - vm_compute. reflexivity.
Defined.
